(** * A shallow embedding of the expression filter (expr2/exprfilter.cpp)

    The development follows the layout of the C++ source: the IR
    ([ExprOp]), the token decoder ([decodeToken]), the sorting-network
    generator ([buildSortNet]), the code generator's compile-time stack
    machine ([buildOneIter]), the scalar interpreter ([interpret]) and the
    frame-time glue of the three filters.

    Conventions.
    - [int32_t]/[uint32_t] are [Z] with the wrap-around written out.
    - [float] is IEEE-754 binary32, taken from [SpecFloat] with
      [prec = 24] and [emax = 128]; the immediate union [ExprUnion] is its
      raw 32-bit pattern.
    - [std::vector] used as a stack is a [list] whose {e last} element is
      the top of stack, exactly as [push_back]/[back] use it.
    - C++ exceptions and undefined behaviour are explicit results. *)

From Stdlib Require Import ZArith Lia Bool List String Ascii SpecFloat.
From Stdlib Require Import Permutation Sorted.
From stdpp Require Import base option list strings pretty gmap sorting.

#[local] Open Scope Z_scope.

(** ** Machine integers *)

Definition wrap_u32 (z : Z) : Z := z mod 2 ^ 32.
Definition wrap_i32 (z : Z) : Z := (z + 2 ^ 31) mod 2 ^ 32 - 2 ^ 31.
Definition wrap_i64 (z : Z) : Z := (z + 2 ^ 63) mod 2 ^ 64 - 2 ^ 63.

Definition INT_MIN : Z := - 2 ^ 31.
Definition INT_MAX : Z := 2 ^ 31 - 1.
Definition LLONG_MIN : Z := - 2 ^ 63.
Definition LLONG_MAX : Z := 2 ^ 63 - 1.

Definition in_i32 (z : Z) : bool := (INT_MIN <=? z) && (z <=? INT_MAX).
Definition in_u32 (z : Z) : bool := (0 <=? z) && (z <? 2 ^ 32).
Definition in_i64 (z : Z) : bool := (LLONG_MIN <=? z) && (z <=? LLONG_MAX).

(** ** IEEE-754 binary32 *)

Module Float32.

Definition prec : Z := 24.
Definition emax : Z := 128.

Definition float : Type := spec_float.

(** [As<FloatV>(IntV)]: reinterpret a 32-bit pattern. *)
Definition of_bits (u : Z) : float :=
  let s := Z.testbit u 31 in
  let e := Z.land (Z.shiftr u 23) 255 in
  let m := Z.land u 8388607 in
  if e =? 0 then
    match m with
    | Zpos p => S754_finite s p (-149)
    | _ => S754_zero s
    end
  else if e =? 255 then
    (if m =? 0 then S754_infinity s else S754_nan)
  else
    match m + 8388608 with
    | Zpos p => S754_finite s p (e - 150)
    | _ => S754_nan
    end.

Definition sign_bit (s : bool) : Z := if s then 2147483648 else 0.

(** The bit pattern of a value; every NaN is the quiet NaN that
    [std::nanf("")] returns. *)
Definition to_bits (f : float) : Z :=
  match f with
  | S754_zero s => sign_bit s
  | S754_infinity s => sign_bit s + 2139095040
  | S754_nan => 2143289344
  | S754_finite s m e =>
      if Zpos m <? 8388608 then sign_bit s + Zpos m
      else sign_bit s + (e + 150) * 8388608 + (Zpos m - 8388608)
  end.

(** [(float)z] for an integer [z], round to nearest even. *)
Definition of_Z (z : Z) : float := binary_normalize prec emax z 0 false.

(** The integer part of a finite value, rounded toward zero. *)
Definition truncZ (f : float) : option Z :=
  match f with
  | S754_zero _ => Some 0
  | S754_finite s m e =>
      Some (cond_Zopp s (if 0 <=? e then Zpos m * 2 ^ e
                         else Z.shiftr (Zpos m) (- e)))
  | _ => None
  end.

(** [(int)f] and [(int64_t)f].  Out of range the conversion is undefined
    in C++; the value below is the "integer indefinite" that the x86
    conversion instruction delivers. *)
Definition to_int32 (f : float) : Z :=
  match truncZ f with
  | Some z => if in_i32 z then z else INT_MIN
  | None => INT_MIN
  end.

Definition to_int64 (f : float) : Z :=
  match truncZ f with
  | Some z => if in_i64 z then z else LLONG_MIN
  | None => LLONG_MIN
  end.

Definition eqb (a b : float) : bool := SFeqb a b.
Definition ltb (a b : float) : bool := SFltb a b.
Definition leb (a b : float) : bool := SFleb a b.

Definition add : float -> float -> float := SFadd prec emax.
Definition sub : float -> float -> float := SFsub prec emax.
Definition mul : float -> float -> float := SFmul prec emax.
Definition div : float -> float -> float := SFdiv prec emax.

Definition zero : float := S754_zero false.
Definition nan : float := S754_nan.

Definition is_nan (f : float) : bool :=
  match f with S754_nan => true | _ => false end.


End Float32.

Abbreviation float := Float32.float.

(** ** The IR *)

Inductive ExprOpType : Set :=
  (* Terminals. *)
  | MEM_LOAD | MEM_LOAD_VAR
  | CONSTANTI | CONSTANTF | CONST_LOAD
  | VAR_LOAD | VAR_STORE
  (* Arithmetic primitives. *)
  | ADD | SUB | MUL | DIV | MOD | SQRT | ABS | MAX | MIN | CLAMP | CMP
  (* Integer conversions. *)
  | TRUNC | ROUND | FLOOR
  (* Logical operators. *)
  | AND | OR | XOR | NOT
  (* Bitwise operators. *)
  | BITAND | BITOR | BITXOR | BITNOT
  (* Transcendental functions. *)
  | EXP | LOG | POW | SIN | COS
  (* Ternary operator *)
  | TERNARY
  (* Rank-order operator *)
  | SORT
  (* Stack helpers. *)
  | DUP | SWAP | DROP
  (* Extended operator for Select only. *)
  | ARGMIN | ARGMAX | ARGSORT.

#[global] Instance ExprOpType_eq_dec : EqDecision ExprOpType.
Proof. solve_decision. Defined.

Module ComparisonType.
Definition EQ : Z := 0.
Definition LT : Z := 1.
Definition LE : Z := 2.
Definition NEQ : Z := 4.
Definition NLT : Z := 5.
Definition NLE : Z := 6.
End ComparisonType.

Module LoadConstType.
Definition N : Z := 0.
Definition X : Z := 1.
Definition Y : Z := 2.
Definition Width : Z := 3.
Definition Height : Z := 4.
Definition LAST : Z := 5.
End LoadConstType.

Module LoadConstIndex.
Definition N : Z := 0.
Definition LAST : Z := 1.
End LoadConstIndex.

Inductive BoundaryCondition : Set :=
  | Unspecified
  | Clamped
  | Mirrored.

#[global] Instance BoundaryCondition_eq_dec : EqDecision BoundaryCondition.
Proof. solve_decision. Defined.

(** [union ExprUnion { int32_t i; uint32_t u; float f; }] is kept as its
    32-bit pattern: an integer read modulo [2^32]. *)
Definition ExprUnion : Type := Z.

Definition ExprUnion_default : ExprUnion := 0.
Definition ExprUnion_i (i : Z) : ExprUnion := wrap_u32 i.
Definition ExprUnion_u (u : Z) : ExprUnion := wrap_u32 u.
Definition ExprUnion_f (f : float) : ExprUnion := Float32.to_bits f.

Definition union_u (p : ExprUnion) : Z := wrap_u32 p.
Definition union_i (p : ExprUnion) : Z := wrap_i32 p.
Definition union_f (p : ExprUnion) : float := Float32.of_bits (wrap_u32 p).

Record ExprOp : Type := mkExprOp {
  op_type : ExprOpType;
  op_imm : ExprUnion;
  op_name : string;
  op_x : Z;
  op_y : Z;
  op_bc : BoundaryCondition
}.

(** The constructor's default arguments. *)
Definition Op1 (t : ExprOpType) : ExprOp := mkExprOp t ExprUnion_default "" 0 0 Unspecified.
Definition Op2 (t : ExprOpType) (p : ExprUnion) : ExprOp := mkExprOp t p "" 0 0 Unspecified.
Definition Op3 (t : ExprOpType) (p : ExprUnion) (n : string) : ExprOp :=
  mkExprOp t p n 0 0 Unspecified.

(** [bool operator==(const ExprOp &lhs, const ExprOp &rhs)] *)
Definition ExprOp_eqb (lhs rhs : ExprOp) : bool :=
  bool_decide (op_type lhs = op_type rhs)
  && (union_u (op_imm lhs) =? union_u (op_imm rhs))
  && String.eqb (op_name lhs) (op_name rhs)
  && (op_x lhs =? op_x rhs)
  && (op_y lhs =? op_y rhs).

Definition ExprOp_neqb (lhs rhs : ExprOp) : bool := negb (ExprOp_eqb lhs rhs).

(** ** Results of fallible code *)

Inductive exn : Type :=
  | runtime_error (what : string)  (* [std::runtime_error] *)
  | bad_variant_access             (* thrown by [std::get] on the wrong alternative *)
  | out_of_range                   (* thrown by [std::vector::at] *)
  | undefined_behaviour.           (* no defined result in C++ *)

Inductive result (A : Type) : Type :=
  | Ok (a : A)
  | Throw (e : exn).
Arguments Ok {A} a.
Arguments Throw {A} e.

#[global] Instance result_bind : MBind result :=
  fun A B k r =>
    match r with
    | Ok a => k a
    | Throw e => Throw e
    end.

#[global] Instance result_ret : MRet result := fun A a => Ok a.

(** ** Strings and the C library's number parsers *)

Definition Z_of_char (c : ascii) : Z := Z.of_N (N_of_ascii c).

Definition char_between (lo hi c : ascii) : bool :=
  (Z_of_char lo <=? Z_of_char c) && (Z_of_char c <=? Z_of_char hi).

Definition isdigit (c : ascii) : bool := char_between "0" "9" c.
Definition islower (c : ascii) : bool := char_between "a" "z" c.

(** [std::isspace] in the "C" locale. *)
Definition isspace (c : ascii) : bool :=
  (Z_of_char c =? 32) || ((9 <=? Z_of_char c) && (Z_of_char c <=? 13)).

Definition str_len (s : string) : nat := String.length s.

(** [s.substr(pos)] and [s.substr(0, n)] (both clamp at the end). *)
Fixpoint str_drop (n : nat) (s : string) : string :=
  match n, s with
  | O, _ => s
  | S n', String _ s' => str_drop n' s'
  | S _, EmptyString => EmptyString
  end.

Definition str_take (n : nat) (s : string) : string := String.substring 0 n s.

(** [s[i]]; reading the terminator of a [std::string] gives ['\0']. *)
Definition str_at (s : string) (i : nat) : ascii :=
  match String.get i s with
  | Some c => c
  | None => zero
  end.

Definition str_back (s : string) : ascii := str_at s (str_len s - 1).

Fixpoint skip_space (s : string) : nat * string :=
  match s with
  | String c s' =>
      if isspace c then let '(n, r) := skip_space s' in (S n, r) else (O, s)
  | EmptyString => (O, s)
  end.

Definition digit_value (c : ascii) : option Z :=
  if char_between "0" "9" c then Some (Z_of_char c - 48)
  else if char_between "a" "z" c then Some (Z_of_char c - 97 + 10)
  else if char_between "A" "Z" c then Some (Z_of_char c - 65 + 10)
  else None.

Definition digit_in (base : Z) (c : ascii) : option Z :=
  match digit_value c with
  | Some d => if d <? base then Some d else None
  | None => None
  end.

(** Longest run of digits of [base]: accumulated value and digits read. *)
Fixpoint read_digits (base : Z) (s : string) (acc : Z) : Z * nat :=
  match s with
  | String c s' =>
      match digit_in base c with
      | Some d => let '(v, n) := read_digits base s' (acc * base + d) in (v, S n)
      | None => (acc, O)
      end
  | EmptyString => (acc, O)
  end.

Definition read_sign (s : string) : bool * nat * string :=
  match s with
  | String "-" s' => (true, 1%nat, s')
  | String "+" s' => (false, 1%nat, s')
  | _ => (false, O, s)
  end.

(** The base-0 prefix rule of [strtoll]: a [0x] prefix counts only when a
    hexadecimal digit follows. *)
Definition detect_base (s : string) : Z * nat * string :=
  match s with
  | String "0" (String c (String h s')) =>
      if (Ascii.eqb c "x" || Ascii.eqb c "X")
         && match digit_in 16 h with Some _ => true | None => false end
      then (16, 2%nat, String h s')
      else (8, O, s)
  | String "0" _ => (8, O, s)
  | _ => (10, O, s)
  end.

(** [strtoll(s, &end, base)] before any range check: the value read and
    the number of characters consumed, or [None] when nothing converts. *)
Definition strto (base : Z) (s : string) : option (Z * nat) :=
  let '(nsp, s1) := skip_space s in
  let '(neg, nsg, s2) := read_sign s1 in
  let '(b, npre, s3) := if base =? 0 then detect_base s2 else (base, O, s2) in
  let '(v, nd) := read_digits b s3 0 in
  match nd with
  | O => None
  | _ => Some (if neg then - v else v, (nsp + nsg + npre + nd)%nat)
  end.

(** [std::stoll(s, &pos, base)]: [None] stands for either exception
    ([invalid_argument], [out_of_range]). *)
Definition stoll (s : string) (base : Z) : option (Z * nat) :=
  match strto base s with
  | Some (v, n) => if in_i64 v then Some (v, n) else None
  | None => None
  end.

(** [std::stoi(s, &pos)] *)
Definition stoi (s : string) : option (Z * nat) :=
  match strto 10 s with
  | Some (v, n) => if in_i32 v then Some (v, n) else None
  | None => None
  end.

(** [atoi(s)] is [(int)strtol(s, nullptr, 10)]: saturating at [long],
    then truncated to [int]. *)
Definition atoi (s : string) : Z :=
  match strto 10 s with
  | Some (v, _) => wrap_i32 (Z.max LLONG_MIN (Z.min LLONG_MAX v))
  | None => 0
  end.

(** ** The token decoder *)

Definition clipNamePrefix : string := "src".

(** [std::numbers::pi_v<float>] *)
Definition pi_f : float := Float32.of_bits 1078530011.

Definition cmp_op (c : Z) : ExprOp := Op2 CMP (ExprUnion_i c).

(** The [simple] table of [decodeToken]. *)
Definition simple : list (string * ExprOp) :=
  [ ("+", Op1 ADD);
    ("-", Op1 SUB);
    ("*", Op1 MUL);
    ("/", Op1 DIV);
    ("%", Op1 MOD);
    ("sqrt", Op1 SQRT);
    ("abs", Op1 ABS);
    ("max", Op1 MAX);
    ("min", Op1 MIN);
    ("clip", Op1 CLAMP);
    ("clamp", Op1 CLAMP);
    ("<", cmp_op ComparisonType.LT);
    (">", cmp_op ComparisonType.NLE);
    ("=", cmp_op ComparisonType.EQ);
    (">=", cmp_op ComparisonType.NLT);
    ("<=", cmp_op ComparisonType.LE);
    ("trunc", Op1 TRUNC);
    ("round", Op1 ROUND);
    ("floor", Op1 FLOOR);
    ("and", Op1 AND);
    ("or", Op1 OR);
    ("xor", Op1 XOR);
    ("not", Op1 NOT);
    ("bitand", Op1 BITAND);
    ("bitor", Op1 BITOR);
    ("bitxor", Op1 BITXOR);
    ("bitnot", Op1 BITNOT);
    ("?", Op1 TERNARY);
    ("exp", Op1 EXP);
    ("log", Op1 LOG);
    ("pow", Op1 POW);
    ("**", Op1 POW);
    ("sin", Op1 SIN);
    ("cos", Op1 COS);
    ("dup", Op2 DUP (ExprUnion_i 0));
    ("swap", Op2 SWAP (ExprUnion_i 1));
    ("drop", Op2 DROP (ExprUnion_i 1));
    ("pi", Op2 CONSTANTF (ExprUnion_f pi_f));
    ("N", Op2 CONST_LOAD (ExprUnion_i LoadConstType.N));
    ("X", Op2 CONST_LOAD (ExprUnion_i LoadConstType.X));
    ("Y", Op2 CONST_LOAD (ExprUnion_i LoadConstType.Y));
    ("width", Op2 CONST_LOAD (ExprUnion_i LoadConstType.Width));
    ("height", Op2 CONST_LOAD (ExprUnion_i LoadConstType.Height)) ].

Fixpoint simple_find (tbl : list (string * ExprOp)) (token : string) : option ExprOp :=
  match tbl with
  | [] => None
  | (k, op) :: tbl' => if String.eqb k token then Some op else simple_find tbl' token
  end.

Fixpoint count_digits (s : string) : nat :=
  match s with
  | String c s' => if isdigit c then S (count_digits s') else O
  | EmptyString => O
  end.

(** The ways [^([a-z]|src[0-9]+)] can match a prefix of [s], in the order
    a backtracking matcher tries them: the captured clip name and the
    rest of the input. *)
Definition clip_prefix_splits (s : string) : list (string * string) :=
  let alt1 :=
    match s with
    | String c r => if islower c then [(String c EmptyString, r)] else []
    | EmptyString => []
    end in
  let alt2 :=
    if String.eqb (str_take 3 s) clipNamePrefix then
      let n := count_digits (str_drop 3 s) in
      map (fun k => (str_take (3 + k) s, str_drop (3 + k) s)) (rev (seq 1 n))
    else [] in
  alt1 ++ alt2.

Fixpoint first_match {A B : Type} (k : A -> option B) (l : list A) : option B :=
  match l with
  | [] => None
  | a :: l' => match k a with Some b => Some b | None => first_match k l' end
  end.

(** [clipNameRe]: the prefix and nothing else. *)
Definition match_clipNameRe (token : string) : option string :=
  first_match (fun '(clip, rest) =>
                 if String.eqb rest "" then Some clip else None)
              (clip_prefix_splits token).

Fixpoint no_bracket (s : string) : bool :=
  match s with
  | String c s' => negb (Ascii.eqb c "[") && negb (Ascii.eqb c "]") && no_bracket s'
  | EmptyString => true
  end.

(** [framePropRe]: prefix, a dot, then [[^\[\]]*]. *)
Definition match_framePropRe (token : string) : option (string * string) :=
  first_match (fun '(clip, rest) =>
                 match rest with
                 | String "." name => if no_bracket name then Some (clip, name) else None
                 | _ => None
                 end)
              (clip_prefix_splits token).

(** [-?[0-9]+] at the head of [s]. *)
Definition read_signed (s : string) : option (string * string) :=
  let '(sgn, r) :=
    match s with
    | String "-" r => ("-"%string, r)
    | _ => (EmptyString, s)
    end in
  match count_digits r with
  | O => None
  | n => Some (String.append sgn (str_take n r), str_drop n r)
  end.

(** [relpixelRe]: prefix, then [\[(-?[0-9]+),(-?[0-9]+)\](:[cm])?]. *)
Definition match_relpixelRe (token : string)
  : option (string * string * string * string) :=
  first_match (fun '(clip, rest) =>
                 match rest with
                 | String "[" r1 =>
                     match read_signed r1 with
                     | Some (sx, String "," r2) =>
                         match read_signed r2 with
                         | Some (sy, String "]" r3) =>
                             if String.eqb r3 "" then Some (clip, sx, sy, ""%string)
                             else if String.eqb r3 ":c" || String.eqb r3 ":m"
                                  then Some (clip, sx, sy, r3)
                                  else None
                         | _ => None
                         end
                     | _ => None
                     end
                 | _ => None
                 end)
              (clip_prefix_splits token).

(** [abspixelRe]: prefix, then [\[\]]. *)
Definition match_abspixelRe (token : string) : option string :=
  first_match (fun '(clip, rest) =>
                 if String.eqb rest "[]" then Some clip else None)
              (clip_prefix_splits token).

(** The lambda [extractClipId]. *)
Definition extractClipId (name : string) : result Z :=
  if (str_len name =? 1)%nat then
    Ok (if Z_of_char "x" <=? Z_of_char (str_at name 0)
        then Z_of_char (str_at name 0) - Z_of_char "x"
        else Z_of_char (str_at name 0) - Z_of_char "a" + 3)
  else
    match stoi (str_drop (str_len clipNamePrefix) name) with
    | Some (idx, _) => Ok idx
    | None => Throw (runtime_error ("invalid clip name: " ++ name))
    end.

(** [idx] and [count] after the guarded [std::stoi] of the counted forms. *)
Definition stoi_guarded (s : string) : Z * nat :=
  match stoi s with
  | Some r => r
  | None => (-1, O)
  end.

Section Decode.

(** [std::stof(token, &pos)]; [None] is either exception.  The decimal
    to binary32 conversion belongs to the C library. *)
Variable stof : string -> option (float * nat).

Definition decode_number (token : string) : result ExprOp :=
  let len := str_len token in
  let '(l, pos) :=
    match stoll token 0 with
    | Some r => r
    | None => (0, O)
    end in
  if (pos =? len)%nat then
    if wrap_i32 l =? l then Ok (Op2 CONSTANTI (ExprUnion_i (wrap_i32 l)))
    else if wrap_u32 l =? l then Ok (Op2 CONSTANTI (ExprUnion_u (wrap_u32 l)))
    else Ok (Op2 CONSTANTF (ExprUnion_f (Float32.of_Z l)))
  else
    let '(f, pos) :=
      match stof token with
      | Some r => r
      | None => (Float32.zero, O)
      end in
    if (pos =? len)%nat then Ok (Op2 CONSTANTF (ExprUnion_f f))
    else if (0 <? pos)%nat then
      Throw (runtime_error ("failed to convert '" ++ token
               ++ "' to float, not the whole token could be converted"))
    else
      Throw (runtime_error ("failed to convert '" ++ token ++ "' to float")).

Definition is_counted_stack_token (token : string) : bool :=
  String.eqb (str_take 3 token) "dup" || String.eqb (str_take 4 token) "swap"
  || String.eqb (str_take 4 token) "drop" || String.eqb (str_take 4 token) "sort".

Definition is_counted_arg_token (token : string) : bool :=
  String.eqb (str_take 6 token) "argmin" || String.eqb (str_take 6 token) "argmax"
  || String.eqb (str_take 7 token) "argsort".

Definition decodeToken (token : string) (extended : bool) : result ExprOp :=
  match simple_find simple token with
  | Some op => Ok op
  | None =>
  match match_clipNameRe token with
  | Some _ => id ← extractClipId token; Ok (Op2 MEM_LOAD (ExprUnion_i id))
  | None =>
  if (2 <=? str_len token)%nat
     && (Ascii.eqb (str_back token) "@" || Ascii.eqb (str_back token) "!") then
    (* 'name@' load named variable; 'name!' store to named variable. *)
    Ok (Op3 (if Ascii.eqb (str_back token) "@" then VAR_LOAD else VAR_STORE)
            (ExprUnion_i (-1)) (str_take (str_len token - 1) token))
  else if is_counted_stack_token token then
    let prefix := if Ascii.eqb (str_at token 1) "u" then 3%nat else 4%nat in
    let '(idx, count) := stoi_guarded (str_drop prefix token) in
    if (idx <? 0) || negb (prefix + count =? str_len token)%nat then
      Throw (runtime_error ("illegal token: " ++ token))
    else if Ascii.eqb (str_at token 1) "u" then Ok (Op2 DUP (ExprUnion_i idx))
    else if Ascii.eqb (str_at token 1) "w" then Ok (Op2 SWAP (ExprUnion_i idx))
    else if Ascii.eqb (str_at token 1) "r" then Ok (Op2 DROP (ExprUnion_i idx))
    else Ok (Op2 SORT (ExprUnion_i idx))
  else if extended && is_counted_arg_token token then
    let prefix := if Ascii.eqb (str_at token 3) "s" then 7%nat else 6%nat in
    let '(idx, count) := stoi_guarded (str_drop prefix token) in
    if (idx <? 0) || negb (prefix + count =? str_len token)%nat then
      Throw (runtime_error ("illegal token: " ++ token))
    else if Ascii.eqb (str_at token 3) "s" then Ok (Op2 ARGSORT (ExprUnion_i idx))
    else if Ascii.eqb (str_at token 4) "i" then Ok (Op2 ARGMIN (ExprUnion_i idx))
    else Ok (Op2 ARGMAX (ExprUnion_i idx))
  else
  match match_framePropRe token with
  | Some (clip, name) =>
      (* frame property access *)
      id ← extractClipId clip;
      Ok (mkExprOp CONST_LOAD (ExprUnion_i (LoadConstType.LAST + id)) name 0 0 Unspecified)
  | None =>
  match match_relpixelRe token with
  | Some (clip, sx, sy, flag) =>
      let bc := if (str_len flag =? 0)%nat then Unspecified
                else if Ascii.eqb (str_at flag 1) "m" then Mirrored else Clamped in
      id ← extractClipId clip;
      Ok (mkExprOp MEM_LOAD (ExprUnion_i id) "" (atoi sx) (atoi sy) bc)
  | None =>
  match match_abspixelRe token with
  | Some clip => id ← extractClipId clip; Ok (Op2 MEM_LOAD_VAR (ExprUnion_i id))
  | None => decode_number token
  end end end end end.

End Decode.

(** ** The sorting network *)

Definition SortingNetwork : Type := list (Z * Z).

(** [while (n > (1<<t)) t++;] *)
Fixpoint sort_t_loop (fuel : nat) (n t : Z) : Z :=
  match fuel with
  | O => t
  | S fuel' => if Z.shiftl 1 t <? n then sort_t_loop fuel' n (t + 1) else t
  end.

(** [for (int i = 0; i < n - d; i++) if ((i & p) == r) sn.emplace_back(i, i+d);] *)
Definition sort_i_loop (n p r d : Z) : SortingNetwork :=
  flat_map (fun i => if Z.land i p =? r then [(i, i + d)] else [])
           (map Z.of_nat (seq 0 (Z.to_nat (n - d)))).

(** [while (d > 0) { ...; d = q - p; q >>= 1; r = p; }] *)
Fixpoint sort_d_loop (fuel : nat) (n p q r d : Z) (sn : SortingNetwork)
  : SortingNetwork :=
  match fuel with
  | O => sn
  | S fuel' =>
      if 0 <? d
      then sort_d_loop fuel' n p (Z.shiftr q 1) p (q - p) (sn ++ sort_i_loop n p r d)
      else sn
  end.

(** [while (p > 0) { int q = 1 << (t - 1), r = 0, d = p; ...; p >>= 1; }] *)
Fixpoint sort_p_loop (fuel : nat) (n t p : Z) (sn : SortingNetwork)
  : SortingNetwork :=
  match fuel with
  | O => sn
  | S fuel' =>
      if 0 <? p
      then sort_p_loop fuel' n t (Z.shiftr p 1)
             (sort_d_loop 32 n p (Z.shiftl 1 (t - 1)) 0 p sn)
      else sn
  end.

(** [buildSortNet(n)].  The [static] map only memoises the result.  The
    loops are bounded by the width of [int]; the shifts are exact, so the
    model follows the source for [n <= 2^30], where [1 << t] does not
    overflow.  For [n <= 1] the source evaluates [1 << -1]; the model's
    [p = 0] leaves the network empty. *)
Definition buildSortNet (n : Z) : SortingNetwork :=
  let t := sort_t_loop 32 n 0 in
  let p := Z.shiftl 1 (t - 1) in
  sort_p_loop 32 n t p [].

(** *** The schedule as the specification words it

    [t = ceil(log2 n); p = 2^(t-1);
     while p > 0:
       q = 2^(t-1); r = 0; d = p
       while d > 0:
         for i in 0..n-d: if (i & p) == r: emit (i, i+d)
         d = q - p; q >>= 1; r = p
       p >>= 1]

    Each [while] is given as many rounds as [t] allows for; the
    properties below show that the loops stop by their own condition. *)

Definition spec_emit (n p r d : Z) : list (Z * Z) :=
  map (fun i => (i, i + d))
      (filter (fun i => Z.land i p = r) (map Z.of_nat (seq 0 (Z.to_nat (n - d))))).

Fixpoint spec_while_d (rounds : nat) (n p q r d : Z) : list (Z * Z) :=
  match rounds with
  | O => []
  | S rounds' =>
      if decide (d > 0)
      then spec_emit n p r d ++ spec_while_d rounds' n p (q / 2) p (q - p)
      else []
  end.

Fixpoint spec_while_p (rounds : nat) (n t p : Z) : list (Z * Z) :=
  match rounds with
  | O => []
  | S rounds' =>
      if decide (p > 0)
      then spec_while_d (Z.to_nat t) n p (2 ^ (t - 1)) 0 p
             ++ spec_while_p rounds' n t (p / 2)
      else []
  end.

Definition spec_sort_schedule (n : Z) : list (Z * Z) :=
  let t := Z.log2_up n in
  spec_while_p (Z.to_nat t) n t (2 ^ (t - 1)).

(** ** The code generator *)

Inductive SampleType : Set := stInteger | stFloat.

Record VSFormat : Type := mkVSFormat {
  sampleType : SampleType;
  bitsPerSample : Z;
  bytesPerSample : Z
}.

(** [Compiler::Context], without the host pointers. *)
Record Context : Type := mkContext {
  ctx_expr : string;
  ctx_tokens : list string;
  ctx_ops : list ExprOp;
  ctx_vo : VSFormat;
  ctx_vi : list VSFormat;
  ctx_numInputs : Z;
  ctx_optMask : Z;
  ctx_mirror : bool
}.

Definition flagUseInteger : Z := Z.shiftl 1 0.

(** [bool forceFloat() const { return !(optMask & flagUseInteger); }] *)
Definition forceFloat (ctx : Context) : bool :=
  Z.land (ctx_optMask ctx) flagUseInteger =? 0.

(** A [Value] of the compile-time stack.  The alternative held by the
    variant and the [constant] flag are compile-time facts; the payload is
    what one lane of the vector holds when the generated code runs. *)
Inductive Value : Type :=
  | VInt (i : Z) (constant : bool)
  | VFloat (f : float) (constant : bool).

Definition isFloat (v : Value) : bool :=
  match v with VFloat _ _ => true | VInt _ _ => false end.

Definition isConst (v : Value) : bool :=
  match v with VFloat _ c => c | VInt _ c => c end.

(** [Value(int x)], [Value(float x)]: compile-time constants. *)
Definition Value_of_int (x : Z) : Value := VInt x true.
Definition Value_of_float (x : float) : Value := VFloat x true.
(** [Value(IntV)], [Value(FloatV)] and the [RValue] overloads. *)
Definition Value_IntV (i : Z) : Value := VInt i false.
Definition Value_FloatV (f : float) : Value := VFloat f false.

(** [std::get<FloatV>(v)] and [std::get<IntV>(v)] *)
Definition Value_f (v : Value) : result float :=
  match v with
  | VFloat f _ => Ok f
  | VInt _ _ => Throw bad_variant_access
  end.

Definition Value_i (v : Value) : result Z :=
  match v with
  | VInt i _ => Ok i
  | VFloat _ _ => Throw bad_variant_access
  end.

(** The part of the Reactor back end the generated code relies on for
    single-precision lanes.  Integer lanes are 32-bit two's complement and
    are written out below. *)
Record Reactor : Type := mkReactor {
  rr_FAdd : float -> float -> float;
  rr_FSub : float -> float -> float;
  rr_FMul : float -> float -> float;
  rr_FDiv : float -> float -> float;
  rr_FRem : float -> float -> float;
  rr_FMax : float -> float -> float;
  rr_FMin : float -> float -> float;
  rr_FAbs : float -> float;
  rr_Sqrt : float -> float;
  rr_Trunc : float -> float;
  rr_Round : float -> float;
  rr_Floor : float -> float;
  rr_RoundInt : float -> Z;
  rr_FCmpEQ : float -> float -> bool;
  rr_FCmpLT : float -> float -> bool;
  rr_FCmpLE : float -> float -> bool;
  rr_FCmpNEQ : float -> float -> bool;
  rr_FCmpNLT : float -> float -> bool;
  rr_FCmpNLE : float -> float -> bool;
  rr_FCmpGT : float -> float -> bool;
  rr_BuiltinPow : float -> float -> float;
  rr_IsConstant : Value -> bool;
  rr_FP32To16 : float -> Z
}.

(** [Compiler::Helper]: the module functions built by [buildHelpers]. *)
Record Helper : Type := mkHelper {
  h_Exp : float -> float;
  h_Log : float -> float;
  h_Sin : float -> float;
  h_Cos : float -> float;
  h_Pow : float -> float -> float
}.

(** What the generated code reads at run time for the lane at hand. *)
Record Env : Type := mkEnv {
  env_N : Z;                          (* [Pointer<Int>(consts)[0]] *)
  env_consts : Z -> float;            (* [consts[k]] *)
  env_x : Z;                          (* [state.x] plus the lane number *)
  env_y : Z;
  env_width : Z;
  env_height : Z;
  env_load_int : ExprOp -> Z;         (* sample fetched by [MEM_LOAD], integer clip *)
  env_load_float : ExprOp -> float;   (* the same for a float clip *)
  env_gather_int : Z -> Z -> Z -> Z;  (* clip, column, row *)
  env_gather_float : Z -> Z -> Z -> float
}.

(** [FloatV(IntV)]: signed 32-bit to single, round to nearest even. *)
Definition FloatV_of_IntV (i : Z) : float := Float32.of_Z i.

(** A comparison's lane mask: all ones or all zeros. *)
Definition mask (b : bool) : Z := if b then -1 else 0.

Definition IAdd (a b : Z) : Z := wrap_i32 (a + b).
Definition ISub (a b : Z) : Z := wrap_i32 (a - b).
Definition IMul (a b : Z) : Z := wrap_i32 (a * b).
Definition IAbs (a : Z) : Z := wrap_i32 (Z.abs a).
Definition IMax (a b : Z) : Z := Z.max a b.
Definition IMin (a b : Z) : Z := Z.min a b.

Definition ICmp (code : Z) (l r : Z) : result Z :=
  if code =? ComparisonType.EQ then Ok (mask (l =? r))
  else if code =? ComparisonType.LT then Ok (mask (l <? r))
  else if code =? ComparisonType.LE then Ok (mask (l <=? r))
  else if code =? ComparisonType.NEQ then Ok (mask (negb (l =? r)))
  else if code =? ComparisonType.NLT then Ok (mask (negb (l <? r)))
  else if code =? ComparisonType.NLE then Ok (mask (negb (l <=? r)))
  else Throw undefined_behaviour.

(** [unsigned char numOperands[]] *)
Definition numOperands (t : ExprOpType) : result nat :=
  match t with
  | MEM_LOAD => Ok 0 | MEM_LOAD_VAR => Ok 2 | CONSTANTI => Ok 0
  | CONSTANTF => Ok 0 | CONST_LOAD => Ok 0 | VAR_LOAD => Ok 0
  | VAR_STORE => Ok 1 | ADD => Ok 2 | SUB => Ok 2 | MUL => Ok 2
  | DIV => Ok 2 | MOD => Ok 2 | SQRT => Ok 1 | ABS => Ok 1
  | MAX => Ok 2 | MIN => Ok 2 | CLAMP => Ok 3 | CMP => Ok 2
  | TRUNC => Ok 1 | ROUND => Ok 1 | FLOOR => Ok 1
  | AND => Ok 2 | OR => Ok 2 | XOR => Ok 2 | NOT => Ok 1
  | BITAND => Ok 2 | BITOR => Ok 2 | BITXOR => Ok 2 | BITNOT => Ok 1
  | EXP => Ok 1 | LOG => Ok 1 | POW => Ok 2 | SIN => Ok 1 | COS => Ok 1
  | TERNARY => Ok 3 | SORT => Ok 0 | DUP => Ok 0 | SWAP => Ok 0 | DROP => Ok 0
  (* past the end of the table *)
  | ARGMIN | ARGMAX | ARGSORT => Throw undefined_behaviour
  end%nat.

(** Stacks: [back()] is the last element. *)
Definition stack_top_index {A : Type} (stack : list A) (i : Z) : nat :=
  (length stack - 1 - Z.to_nat i)%nat.

(** [Value x = stack.back(); stack.pop_back()] *)
Definition LOAD1 {A : Type} (stack : list A) : result (A * list A) :=
  match rev stack with
  | x :: rest => Ok (x, rev rest)
  | [] => Throw undefined_behaviour
  end.

(** [LOAD2(l, r)]: [r] is popped first. *)
Definition LOAD2 {A : Type} (stack : list A) : result (A * A * list A) :=
  '(r, stack) ← LOAD1 stack;
  '(l, stack) ← LOAD1 stack;
  Ok (l, r, stack).

(** [for (unsigned i = 0; i < n; i++) stack.pop_back();] *)
Definition pop_n {A : Type} (n : Z) (stack : list A) : result (list A) :=
  if Z.of_nat (length stack) <? n then Throw undefined_behaviour
  else Ok (take (length stack - Z.to_nat n) stack).

(** [stack.push_back(stack[stack.size() - 1 - n])] *)
Definition dup_n {A : Type} (n : Z) (stack : list A) : result (list A) :=
  if Z.of_nat (length stack) <=? n then Throw undefined_behaviour
  else match stack !! stack_top_index stack n with
       | Some v => Ok (stack ++ [v])
       | None => Throw undefined_behaviour
       end.

(** [std::swap(stack[stack.size()-1], stack[stack.size() - 1 - n])] *)
Definition swap_n {A : Type} (n : Z) (stack : list A) : result (list A) :=
  if Z.of_nat (length stack) <=? n then Throw undefined_behaviour
  else match stack !! stack_top_index stack 0, stack !! stack_top_index stack n with
       | Some a, Some b =>
           Ok (<[stack_top_index stack n := a]> (<[stack_top_index stack 0 := b]> stack))
       | _, _ => Throw undefined_behaviour
       end.

Section Codegen.

Variable rr : Reactor.
Variable helpers : Helper.
Variable ctx : Context.
Variable env : Env.

(** [FloatV ensureFloat()] and [IntV ensureInt()] *)
Definition ensureFloat (v : Value) : float :=
  match v with
  | VFloat f _ => f
  | VInt i _ => FloatV_of_IntV i
  end.

Definition ensureInt (v : Value) : Z :=
  match v with
  | VFloat f _ => rr_RoundInt rr f
  | VInt i _ => i
  end.

(** [Value Max(Value &rhs)] and [Value Min(Value &rhs)]: both operands
    go through [f()] as soon as one of them is a float. *)
Definition Value_Max (lhs rhs : Value) : result Value :=
  if isFloat lhs || isFloat rhs then
    a ← Value_f lhs; b ← Value_f rhs; Ok (Value_FloatV (rr_FMax rr a b))
  else
    a ← Value_i lhs; b ← Value_i rhs; Ok (Value_IntV (IMax a b)).

Definition Value_Min (lhs rhs : Value) : result Value :=
  if isFloat lhs || isFloat rhs then
    a ← Value_f lhs; b ← Value_f rhs; Ok (Value_FloatV (rr_FMin rr a b))
  else
    a ← Value_i lhs; b ← Value_i rhs; Ok (Value_IntV (IMin a b)).

(** [auto at = [&stack](int i) -> Value& { return stack.at(stack.size() - 1 - i); }] *)
Definition stack_at (stack : list Value) (i : Z) : result Value :=
  if (0 <=? i) && (i <? Z.of_nat (length stack)) then
    match stack !! stack_top_index stack i with
    | Some v => Ok v
    | None => Throw out_of_range
    end
  else Throw out_of_range.

(** One comparator of the [SORT] case. *)
Definition sort_cmp (stack : list Value) (cmp : Z * Z) : result (list Value) :=
  a ← stack_at stack (fst cmp);
  b ← stack_at stack (snd cmp);
  min ← Value_Min a b;
  max ← Value_Max a b;
  Ok (<[stack_top_index stack (snd cmp) := max]>
        (<[stack_top_index stack (fst cmp) := min]> stack)).

Fixpoint sort_apply (sn : SortingNetwork) (stack : list Value) : result (list Value) :=
  match sn with
  | [] => Ok stack
  | cmp :: sn' => stack ← sort_cmp stack cmp; sort_apply sn' stack
  end.

Definition vi_format (i : Z) : result VSFormat :=
  if i <? 0 then Throw undefined_behaviour
  else match ctx_vi ctx !! Z.to_nat i with
       | Some f => Ok f
       | None => Throw undefined_behaviour
       end.

(** [BINARYOP(op, forceFloat)] *)
Definition BINARYOP (fop : float -> float -> float) (iop : Z -> Z -> Z)
    (force : bool) (stack : list Value) : result (list Value) :=
  '(l, r, stack) ← LOAD2 stack;
  match l, r with
  | VFloat lf _, VFloat rf _ => Ok (stack ++ [Value_FloatV (fop lf rf)])
  | VFloat lf _, VInt ri _ => Ok (stack ++ [Value_FloatV (fop lf (FloatV_of_IntV ri))])
  | VInt li _, VFloat rf _ => Ok (stack ++ [Value_FloatV (fop (FloatV_of_IntV li) rf)])
  | VInt li _, VInt ri _ =>
      if force
      then Ok (stack ++ [Value_FloatV (fop (FloatV_of_IntV li) (FloatV_of_IntV ri))])
      else Ok (stack ++ [Value_IntV (iop li ri)])
  end.

(** [UNARYOP(op, forceFloat)] *)
Definition UNARYOP (fop : float -> float) (iop : Z -> Z)
    (force : bool) (stack : list Value) : result (list Value) :=
  '(x, stack) ← LOAD1 stack;
  match x with
  | VFloat f _ => Ok (stack ++ [Value_FloatV (fop f)])
  | VInt i _ =>
      if force then Ok (stack ++ [Value_FloatV (fop (FloatV_of_IntV i))])
      else Ok (stack ++ [Value_IntV (iop i)])
  end.

(** [UNARYOPF(op)] *)
Definition UNARYOPF (fop : float -> float) (stack : list Value) : result (list Value) :=
  '(x, stack) ← LOAD1 stack;
  Ok (stack ++ [Value_FloatV (fop (ensureFloat x))]).

Definition CmpGT0 (v : Value) : Z :=
  match v with
  | VFloat f _ => mask (rr_FCmpGT rr f Float32.zero)
  | VInt i _ => mask (0 <? i)
  end.

Definition CmpLE0 (v : Value) : Z :=
  match v with
  | VFloat f _ => mask (rr_FCmpLE rr f Float32.zero)
  | VInt i _ => mask (i <=? 0)
  end.

(** [LOGICOP(op)] *)
Definition LOGICOP (iop : Z -> Z -> Z) (stack : list Value) : result (list Value) :=
  '(l, r, stack) ← LOAD2 stack;
  Ok (stack ++ [Value_IntV (Z.land (iop (CmpGT0 l) (CmpGT0 r)) 1)]).

(** [BITWISEOP(op)] *)
Definition BITWISEOP (iop : Z -> Z -> Z) (stack : list Value) : result (list Value) :=
  '(l, r, stack) ← LOAD2 stack;
  Ok (stack ++ [Value_IntV (iop (ensureInt l) (ensureInt r))]).

Definition FCmp (code : Z) (l r : float) : result Z :=
  if code =? ComparisonType.EQ then Ok (mask (rr_FCmpEQ rr l r))
  else if code =? ComparisonType.LT then Ok (mask (rr_FCmpLT rr l r))
  else if code =? ComparisonType.LE then Ok (mask (rr_FCmpLE rr l r))
  else if code =? ComparisonType.NEQ then Ok (mask (rr_FCmpNEQ rr l r))
  else if code =? ComparisonType.NLT then Ok (mask (rr_FCmpNLT rr l r))
  else if code =? ComparisonType.NLE then Ok (mask (rr_FCmpNLE rr l r))
  else Throw undefined_behaviour.

(** [(t & mask) | (f & ~mask)] on the lanes' bit patterns. *)
Definition blend (ci t f : Z) : Z := Z.lor (Z.land t ci) (Z.land f (Z.lnot ci)).

(** The value pushed for a sample of an integer clip. *)
Definition push_sample (v : Z) : Value :=
  if forceFloat ctx then Value_FloatV (FloatV_of_IntV v) else Value_IntV v.

Definition insufficient (tok : string) : exn :=
  runtime_error ("insufficient values on stack: " ++ tok).

Definition undefined_clip (tok : string) : exn :=
  runtime_error ("reference to undefined clip: " ++ tok).

(** The "Check validity" block at the head of the loop body. *)
Definition check_validity (tok : string) (op : ExprOp) (size : nat) : result unit :=
  if bool_decide (op_type op = MEM_LOAD) && (ctx_numInputs ctx <=? union_i (op_imm op))
  then Throw (undefined_clip tok)
  else if (bool_decide (op_type op = DUP) || bool_decide (op_type op = SWAP))
          && (Z.of_nat size <=? union_u (op_imm op))
  then Throw (insufficient tok)
  else if (bool_decide (op_type op = DROP) || bool_decide (op_type op = SORT))
          && (Z.of_nat size <? union_u (op_imm op))
  then Throw (insufficient tok)
  else
    k ← numOperands (op_type op);
    if (size <? k)%nat then Throw (insufficient tok) else Ok ().

(** The compile-time state threaded through the loop over [ctx.ops]:
    the stack and [state.variables]. *)
Definition CgState : Type := list Value * list Value.

(** The [switch (op.type)] of [buildOneIter]. *)
Definition emit_op (op : ExprOp) (st : CgState) : result CgState :=
  let '(stack, variables) := st in
  let keep (r : result (list Value)) : result CgState :=
    stack ← r; Ok (stack, variables) in
  match op_type op with
  | DUP => keep (dup_n (union_u (op_imm op)) stack)
  | SWAP => keep (swap_n (union_u (op_imm op)) stack)
  | DROP => keep (pop_n (union_u (op_imm op)) stack)
  | SORT =>
      (* "3 7 1 2 0 4 6 5 sort8" -> "7 6 5 4 3 2 1 0" *)
      keep (sort_apply (buildSortNet (union_i (op_imm op))) stack)
  | MEM_LOAD =>
      format ← vi_format (union_i (op_imm op));
      match sampleType format with
      | stInteger => Ok (stack ++ [push_sample (env_load_int env op)], variables)
      | stFloat => Ok (stack ++ [Value_FloatV (env_load_float env op)], variables)
      end
  | CONSTANTI => Ok (stack ++ [Value_of_int (union_i (op_imm op))], variables)
  | CONSTANTF =>
      let f := union_f (op_imm op) in
      if Float32.eqb f (Float32.of_Z (Float32.to_int32 f))
      then Ok (stack ++ [Value_of_int (Float32.to_int32 f)], variables)
      else Ok (stack ++ [Value_of_float f], variables)
  | CONST_LOAD =>
      let c := union_i (op_imm op) in
      if c =? LoadConstType.N then Ok (stack ++ [Value_IntV (env_N env)], variables)
      else if c =? LoadConstType.Y then Ok (stack ++ [Value_IntV (env_y env)], variables)
      else if c =? LoadConstType.X then Ok (stack ++ [Value_IntV (env_x env)], variables)
      else if c =? LoadConstType.Width then
        Ok (stack ++ [Value_IntV (env_width env)], variables)
      else if c =? LoadConstType.Height then
        Ok (stack ++ [Value_IntV (env_height env)], variables)
      else
        let bias := LoadConstIndex.LAST - LoadConstType.LAST in
        Ok (stack ++ [Value_FloatV (env_consts env (c + bias))], variables)
  | MEM_LOAD_VAR =>
      '(absx_, absy_, stack) ← LOAD2 stack;
      format ← vi_format (union_i (op_imm op));
      let absx := IMin (IMax (ensureInt absx_) 0) (env_width env - 1) in
      let absy := IMin (IMax (ensureInt absy_) 0) (env_height env - 1) in
      match sampleType format with
      | stInteger =>
          Ok (stack ++ [push_sample (env_gather_int env (union_i (op_imm op)) absx absy)],
              variables)
      | stFloat =>
          Ok (stack ++ [Value_FloatV (env_gather_float env (union_i (op_imm op)) absx absy)],
              variables)
      end
  | VAR_LOAD =>
      if union_i (op_imm op) <? 0 then Throw undefined_behaviour
      else match variables !! Z.to_nat (union_i (op_imm op)) with
           | Some v => Ok (stack ++ [v], variables)
           | None => Throw undefined_behaviour
           end
  | VAR_STORE =>
      '(x, stack) ← LOAD1 stack;
      if (union_i (op_imm op) <? 0)
         || (Z.of_nat (length variables) <=? union_i (op_imm op))
      then Throw undefined_behaviour
      else Ok (stack, <[Z.to_nat (union_i (op_imm op)) := x]> variables)
  | ADD => keep (BINARYOP (rr_FAdd rr) IAdd false stack)
  | SUB => keep (BINARYOP (rr_FSub rr) ISub false stack)
  | MUL => keep (BINARYOP (rr_FMul rr) IMul false stack)
  | DIV => keep (BINARYOP (rr_FDiv rr) Z.quot true stack)
  | MOD => keep (BINARYOP (rr_FRem rr) Z.rem true stack)
  | SQRT => keep (UNARYOPF (fun x => rr_Sqrt rr (rr_FMax rr x Float32.zero)) stack)
  | ABS => keep (UNARYOP (rr_FAbs rr) IAbs (forceFloat ctx) stack)
  | MAX => keep (BINARYOP (rr_FMax rr) IMax (forceFloat ctx) stack)
  | MIN => keep (BINARYOP (rr_FMin rr) IMin (forceFloat ctx) stack)
  | CLAMP =>
      '(min, max, stack) ← LOAD2 stack;
      '(x, stack) ← LOAD1 stack;
      if isFloat x || isFloat min || isFloat max || forceFloat ctx then
        let xf := ensureFloat x in
        let minf := ensureFloat min in
        let maxf := ensureFloat max in
        Ok (stack ++ [Value_FloatV (rr_FMax rr (rr_FMin rr xf maxf) minf)], variables)
      else
        xi ← Value_i x; mini ← Value_i min; maxi ← Value_i max;
        Ok (stack ++ [Value_IntV (IMax (IMin xi maxi) mini)], variables)
  | CMP =>
      '(l, r, stack) ← LOAD2 stack;
      x ← (if isFloat l || isFloat r
           then FCmp (union_u (op_imm op)) (ensureFloat l) (ensureFloat r)
           else li ← Value_i l; ri ← Value_i r; ICmp (union_u (op_imm op)) li ri);
      Ok (stack ++ [Value_IntV (Z.land x 1)], variables)
  | AND => keep (LOGICOP Z.land stack)
  | OR => keep (LOGICOP Z.lor stack)
  | XOR => keep (LOGICOP Z.lxor stack)
  | NOT =>
      '(x, stack) ← LOAD1 stack;
      Ok (stack ++ [Value_IntV (Z.land (CmpLE0 x) 1)], variables)
  | BITAND => keep (BITWISEOP Z.land stack)
  | BITOR => keep (BITWISEOP Z.lor stack)
  | BITXOR => keep (BITWISEOP Z.lxor stack)
  | BITNOT =>
      '(x, stack) ← LOAD1 stack;
      Ok (stack ++ [Value_IntV (Z.lnot (ensureInt x))], variables)
  | TRUNC => keep (UNARYOPF (rr_Trunc rr) stack)
  | ROUND => keep (UNARYOPF (rr_Round rr) stack)
  | FLOOR => keep (UNARYOPF (rr_Floor rr) stack)
  | EXP => keep (UNARYOPF (h_Exp helpers) stack)
  | LOG => keep (UNARYOPF (h_Log helpers) stack)
  | POW =>
      '(l, r, stack) ← LOAD2 stack;
      match r with
      | VInt ri _ =>
          if rr_IsConstant rr r
          then Ok (stack ++ [Value_FloatV (rr_BuiltinPow rr (ensureFloat l) (FloatV_of_IntV ri))],
                   variables)
          else Ok (stack ++ [Value_FloatV (h_Pow helpers (ensureFloat l) (ensureFloat r))],
                   variables)
      | VFloat _ _ =>
          Ok (stack ++ [Value_FloatV (h_Pow helpers (ensureFloat l) (ensureFloat r))],
              variables)
      end
  | SIN => keep (UNARYOPF (h_Sin helpers) stack)
  | COS => keep (UNARYOPF (h_Cos helpers) stack)
  | TERNARY =>
      '(t, f, stack) ← LOAD2 stack;
      '(c, stack) ← LOAD1 stack;
      let ci := CmpGT0 c in
      if isFloat t || isFloat f then
        let tf := ensureFloat t in
        let ff := ensureFloat f in
        Ok (stack ++ [Value_FloatV (Float32.of_bits
                        (blend ci (Float32.to_bits tf) (Float32.to_bits ff)))],
            variables)
      else
        ti ← Value_i t; fi ← Value_i f;
        Ok (stack ++ [Value_IntV (blend ci ti fi)], variables)
  (* Unsupported operators, shouldn't happen *)
  | ARGMIN | ARGMAX | ARGSORT => Throw undefined_behaviour
  end.

(** The body of [for (size_t i = 0; i < ctx.ops.size(); i++)]. *)
Definition build_step (tok : string) (op : ExprOp) (st : CgState) : result CgState :=
  _ ← check_validity tok op (length (fst st));
  emit_op op st.

Fixpoint build_loop (toks : list string) (ops : list ExprOp) (st : CgState)
  : result CgState :=
  match ops with
  | [] => Ok st
  | op :: ops' =>
      st ← build_step (hd ""%string toks) op st;
      build_loop (tl toks) ops' st
  end.

(** What one lane of the output receives. *)
Inductive Stored : Type :=
  | StoredByte (b : Z)
  | StoredUShort (w : Z)
  | StoredInt (i : Z)
  | StoredHalf (h : Z)
  | StoredFloat (f : float)
  | StoredNothing.

(** The tail of [buildOneIter]: the depth checks and the store to
    [rwptrs[0]].  [maxval] is an [int].  For 32-bit output the shift
    [1 << 32] is undefined in C++; the value below is the one the x86
    shift instruction delivers, which takes the count modulo 32, so that
    [maxval] is [0] there. *)
Definition store_result (stack : list Value) : result Stored :=
  match rev stack with
  | [] => Throw (runtime_error ("empty expression: " ++ ctx_expr ctx))
  | res :: _ :: _ =>
      Throw (runtime_error (pretty (length stack)
               ++ " unconsumed values on stack: " ++ ctx_expr ctx))
  | [res] =>
      let format := ctx_vo ctx in
      match sampleType format with
      | stInteger =>
          let maxval := ISub (wrap_i32 (Z.shiftl 1 (bitsPerSample format mod 32))) 1 in
          let rounded :=
            match res with
            | VFloat f _ =>
                rr_RoundInt rr
                  (rr_FMin rr (rr_FMax rr f (Float32.of_Z 0)) (Float32.of_Z maxval))
            | VInt i _ =>
                if bitsPerSample format <? 32 then IMin (IMax i 0) maxval else i
            end in
          if bytesPerSample format =? 1 then Ok (StoredByte (rounded mod 2 ^ 8))
          else if bytesPerSample format =? 2 then Ok (StoredUShort (rounded mod 2 ^ 16))
          else if bytesPerSample format =? 4 then Ok (StoredInt rounded)
          else Ok StoredNothing
      | stFloat =>
          if bytesPerSample format =? 2
          then Ok (StoredHalf (rr_FP32To16 rr (ensureFloat res)))
          else if bytesPerSample format =? 4 then Ok (StoredFloat (ensureFloat res))
          else Ok StoredNothing
      end
  end.

(** [buildOneIter(helpers, state)] on [ctx.ops], from an empty stack. *)
Definition buildOneIter (variables : list Value) : result Stored :=
  st ← build_loop (ctx_tokens ctx) (ctx_ops ctx) ([], variables);
  store_result (fst st).

End Codegen.

(** ** Lexing and the compiler driver *)

(** [tokenize]: split at [std::isspace]; [cur] is the token being read. *)
Fixpoint tokenize_from (expr : string) (cur : string) : list string :=
  match expr with
  | String c rest =>
      if isspace c then
        match cur with
        | EmptyString => tokenize_from rest EmptyString
        | _ => cur :: tokenize_from rest EmptyString
        end
      else tokenize_from rest (String.append cur (String c EmptyString))
  | EmptyString =>
      match cur with
      | EmptyString => []
      | _ => [cur]
      end
  end.

Definition tokenize (expr : string) : list string := tokenize_from expr EmptyString.

Fixpoint decode_all (stof : string -> option (float * nat)) (extended : bool)
    (fix_bc : ExprOp -> ExprOp) (tokens : list string) : result (list ExprOp) :=
  match tokens with
  | [] => Ok []
  | tok :: tokens' =>
      op ← decodeToken stof tok extended;
      ops ← decode_all stof extended fix_bc tokens';
      Ok (fix_bc op :: ops)
  end.

Definition set_imm_i (op : ExprOp) (i : Z) : ExprOp :=
  mkExprOp (op_type op) (ExprUnion_i i) (op_name op) (op_x op) (op_y op) (op_bc op).

Definition set_bc (op : ExprOp) (bc : BoundaryCondition) : ExprOp :=
  mkExprOp (op_type op) (op_imm op) (op_name op) (op_x op) (op_y op) bc.

(** The constructor of [Compiler::Context] past the look-up in
    [exprCache]: what it does when the key is not in the cache. *)
Definition Context_new (stof : string -> option (float * nat)) (expr : string)
    (vo : VSFormat) (vi : list VSFormat) (numInputs opt mirror : Z) : result Context :=
  let tokens := tokenize expr in
  ops ← decode_all stof false
         (fun op => if bool_decide (op_bc op = Unspecified)
                    then set_bc op (if mirror =? 0 then Clamped else Mirrored)
                    else op)
         tokens;
  Ok (mkContext expr tokens ops vo vi numInputs opt (negb (mirror =? 0))).

(** [videoInfoKey] and [key()].  The name of a format is host data; an
    [int] is written in decimal and [mirror], a [bool], as [0] or [1]. *)
Definition videoInfoKey (format_name : VSFormat -> string) (vi : VSFormat) : string :=
  (format_name vi ++ ";")%string.

Definition Context_key (format_name : VSFormat -> string) (expr : string)
    (vo : VSFormat) (vi : list VSFormat) (numInputs opt : Z) (mirror : bool) : string :=
  ("n=" ++ pretty numInputs ++ "|opt=" ++ pretty opt
   ++ "|mirror=" ++ (if mirror then "1" else "0")
   ++ "|expr=" ++ expr ++ "|vo=" ++ videoInfoKey format_name vo
   ++ foldr String.append ""
        (imap (fun i f => "|vi" ++ pretty (Z.of_nat i) ++ "=" ++ videoInfoKey format_name f)
              (take (Z.to_nat numInputs) vi)))%string.

(** The constructor of [Compiler::Context], with the member [cached] it
    sets: when [exprCache] holds the key it returns at once, [tokens]
    and [ops] left empty; otherwise the expression is decoded. *)
Definition Context_ctor {V : Type} (format_name : VSFormat -> string)
    (exprCache : gmap string V) (stof : string -> option (float * nat)) (expr : string)
    (vo : VSFormat) (vi : list VSFormat) (numInputs opt mirror : Z)
    : result (Context * bool) :=
  match exprCache !! Context_key format_name expr vo vi numInputs opt (negb (mirror =? 0)) with
  | Some _ => Ok (mkContext expr [] [] vo vi numInputs opt (negb (mirror =? 0)), true)
  | None =>
      ctx ← Context_new stof expr vo vi numInputs opt mirror;
      Ok (ctx, false)
  end.

(** Position of a key in a table kept in insertion order. *)
Fixpoint index_of {K : Type} `{EqDecision K} (k : K) (l : list K) : option nat :=
  match l with
  | [] => None
  | k' :: l' => if decide (k' = k) then Some O else S <$> index_of k l'
  end.

(** [paMap]/[varMap] hand out consecutive numbers in insertion order; a
    list of the keys in that order carries the same information. *)
Definition intern {K : Type} `{EqDecision K} (k : K) (tbl : list K) : list K * Z :=
  match index_of k tbl with
  | Some i => (tbl, Z.of_nat i)
  | None => (tbl ++ [k], Z.of_nat (length tbl))
  end.

(** A frame property read by the routine: clip and name. *)
Definition PropAccess : Type := Z * string.

(** First loop of [compile]: number the frame-property accesses. *)
Fixpoint index_props (numInputs : Z) (toks : list string) (ops : list ExprOp)
    (paMap : list PropAccess) : result (list ExprOp * list PropAccess) :=
  match ops with
  | [] => Ok ([], paMap)
  | op :: ops' =>
      if negb (bool_decide (op_type op = CONST_LOAD))
         || (union_i (op_imm op) <? LoadConstType.LAST)
      then
        '(r, pa) ← index_props numInputs (tl toks) ops' paMap;
        Ok (op :: r, pa)
      else
        let id := wrap_i32 (union_i (op_imm op) - LoadConstType.LAST) in
        if numInputs <=? id then
          Throw (runtime_error ("reference to undefined clip: " ++ hd ""%string toks))
        else
          let '(paMap', idx) := intern (id, op_name op) paMap in
          '(r, pa) ← index_props numInputs (tl toks) ops' paMap';
          Ok (set_imm_i op (LoadConstType.LAST + idx) :: r, pa)
  end.

(** Second loop of [compile]: number the variables. *)
Fixpoint index_vars (toks : list string) (ops : list ExprOp) (varMap : list string)
    : result (list ExprOp * list string) :=
  match ops with
  | [] => Ok ([], varMap)
  | op :: ops' =>
      if negb (bool_decide (op_type op = VAR_LOAD))
         && negb (bool_decide (op_type op = VAR_STORE))
      then
        '(r, vm) ← index_vars (tl toks) ops' varMap;
        Ok (op :: r, vm)
      else
        match index_of (op_name op) varMap with
        | None =>
            if bool_decide (op_type op = VAR_LOAD) then
              Throw (runtime_error ("reference to uninitialized variable: "
                                      ++ hd ""%string toks))
            else
              '(r, vm) ← index_vars (tl toks) ops' (varMap ++ [op_name op]);
              Ok (set_imm_i op (Z.of_nat (length varMap)) :: r, vm)
        | Some i =>
            '(r, vm) ← index_vars (tl toks) ops' varMap;
            Ok (set_imm_i op (Z.of_nat i) :: r, vm)
        end
  end.

Definition with_ops (ctx : Context) (ops : list ExprOp) : Context :=
  mkContext (ctx_expr ctx) (ctx_tokens ctx) ops (ctx_vo ctx) (ctx_vi ctx)
            (ctx_numInputs ctx) (ctx_optMask ctx) (ctx_mirror ctx).

(** [Compiler::compile()] on a cache miss, together with what the routine
    it returns stores for the lane that [env] describes.  All exceptions
    are raised while compiling; a cache hit returns the entry an earlier
    call with the same key stored. *)
Definition compile (rr : Reactor) (helpers : Helper) (ctx : Context) (env : Env)
    : result (Stored * list PropAccess) :=
  '(ops, pa) ← index_props (ctx_numInputs ctx) (ctx_tokens ctx) (ctx_ops ctx) [];
  '(ops, varMap) ← index_vars (ctx_tokens ctx) ops [];
  stored ← buildOneIter rr helpers (with_ops ctx ops) env
             (replicate (length varMap) (Value_IntV 0));
  Ok (stored, pa).

(** ** The interpreter *)

(** The C library functions [interpret] calls on [float]. *)
Record HostMath : Type := mkHostMath {
  c_fmod : float -> float -> float;
  c_sqrt : float -> float;
  c_trunc : float -> float;
  c_round : float -> float;
  c_floor : float -> float;
  c_exp : float -> float;
  c_log : float -> float;
  c_pow : float -> float -> float;
  c_sin : float -> float;
  c_cos : float -> float
}.

(** [std::max(a, b)] is [(a < b) ? b : a]; [std::min(a, b)] is
    [(b < a) ? b : a]. *)
Definition std_max (a b : float) : float := if Float32.ltb a b then b else a.
Definition std_min (a b : float) : float := if Float32.ltb b a then b else a.

(** Conversion of an [int] or [bool] result on [OUT(x)]. *)
Definition float_of_int (i : Z) : float := Float32.of_Z i.
Definition float_of_bool (b : bool) : float := Float32.of_Z (if b then 1 else 0).

(** ** [std::sort] and [std::stable_sort]

    The interpreter sorts with [std::sort] and [std::stable_sort] under
    the comparator [l > r].  The C++ standard fixes what they return only
    for a comparator that is a strict weak ordering, which [>] on [float]
    is not once a NaN is among the values; what is then left on the stack
    is whatever the library's algorithm does.  The definitions below
    follow libstdc++ (GCC 12, [bits/stl_algo.h] and [bits/stl_heap.h])
    routine by routine, under the library's names without the leading
    underscores.  A range is a list and an iterator a place in it.

    The scans of [__unguarded_partition] and of
    [__unguarded_linear_insert] carry no bound in the library and end
    inside the range on their own when the comparator is a strict weak
    ordering; here they end at the ends of the range at the latest.
    [std::stable_sort] is taken with the buffer of half the range that it
    asks for. *)
Section StdAlgo.

Context {A : Type}.
Variable comp : A -> A -> bool.

(** [__unguarded_linear_insert]: [val] moves towards the front past
    every element it is to precede.  [rpre] is the part of the range in
    front of it, nearest element first. *)
Fixpoint linear_insert_rev (val : A) (rpre : list A) : list A :=
  match rpre with
  | [] => [val]
  | next :: rpre' =>
      if comp val next then next :: linear_insert_rev val rpre' else val :: rpre
  end.

Definition unguarded_linear_insert (pre : list A) (val : A) : list A :=
  rev (linear_insert_rev val (rev pre)).

(** One round of the loop of [__insertion_sort]. *)
Definition insertion_step (pre : list A) (val : A) : list A :=
  match pre with
  | [] => [val]
  | first :: _ => if comp val first then val :: pre else unguarded_linear_insert pre val
  end.

Definition insertion_sort (l : list A) : list A := foldl insertion_step [] l.

Definition S_threshold : nat := 16.

Definition final_insertion_sort (l : list A) : list A :=
  if (S_threshold <? length l)%nat
  then foldl unguarded_linear_insert (insertion_sort (take S_threshold l))
             (drop S_threshold l)
  else insertion_sort l.

Definition iter_swap (i j : nat) (l : list A) : list A :=
  match l !! i, l !! j with
  | Some a, Some b => <[j := a]> (<[i := b]> l)
  | _, _ => l
  end.

Definition comp_at (l : list A) (i j : nat) : bool :=
  match l !! i, l !! j with
  | Some a, Some b => comp a b
  | _, _ => false
  end.

Definition move_median_to_first (result a b c : nat) (l : list A) : list A :=
  if comp_at l a b then
    if comp_at l b c then iter_swap result b l
    else if comp_at l a c then iter_swap result c l
    else iter_swap result a l
  else if comp_at l a c then iter_swap result a l
  else if comp_at l b c then iter_swap result c l
  else iter_swap result b l.

Fixpoint count_while (p : A -> bool) (l : list A) : nat :=
  match l with
  | x :: l' => if p x then S (count_while p l') else O
  | [] => O
  end.

(** [__unguarded_partition(first, last, pivot)], the pivot at place [0]. *)
Fixpoint unguarded_partition (fuel : nat) (l : list A) (first last : nat)
    : nat * list A :=
  match fuel, l !! O with
  | S fuel', Some pivot =>
      let first := (first + count_while (fun x => comp x pivot) (drop first l))%nat in
      let last := (last - 1)%nat in
      let last := (last - count_while (fun x => comp pivot x) (rev (take (S last) l)))%nat in
      if negb (first <? last)%nat then (first, l)
      else unguarded_partition fuel' (iter_swap first last l) (S first) last
  | _, _ => (first, l)
  end.

Definition unguarded_partition_pivot (l : list A) : nat * list A :=
  let mid := (length l / 2)%nat in
  unguarded_partition (length l)
    (move_median_to_first 0 1 mid (length l - 1) l) 1 (length l).

(** [__push_heap] *)
Fixpoint push_heap (fuel : nat) (l : list A) (holeIndex topIndex : nat) (value : A)
    : list A :=
  let parent := ((holeIndex - 1) / 2)%nat in
  match fuel, l !! parent with
  | S fuel', Some p =>
      if (topIndex <? holeIndex)%nat && comp p value
      then push_heap fuel' (<[holeIndex := p]> l) parent topIndex value
      else <[holeIndex := value]> l
  | _, _ => <[holeIndex := value]> l
  end.

(** The first loop of [__adjust_heap]: the hole sinks to a leaf. *)
Fixpoint adjust_heap_sink (fuel : nat) (l : list A) (len secondChild : nat)
    : nat * list A :=
  match fuel with
  | S fuel' =>
      if (secondChild <? (len - 1) / 2)%nat then
        let holeIndex := secondChild in
        let secondChild := (2 * (secondChild + 1))%nat in
        let secondChild :=
          if comp_at l secondChild (secondChild - 1) then (secondChild - 1)%nat
          else secondChild in
        match l !! secondChild with
        | Some c => adjust_heap_sink fuel' (<[holeIndex := c]> l) len secondChild
        | None => (holeIndex, l)
        end
      else (secondChild, l)
  | O => (secondChild, l)
  end.

Definition adjust_heap (l : list A) (holeIndex len : nat) (value : A) : list A :=
  let topIndex := holeIndex in
  let '(secondChild, l) := adjust_heap_sink len l len holeIndex in
  let '(holeIndex, l) :=
    if Nat.even len && (secondChild =? (len - 2) / 2)%nat then
      let secondChild' := (2 * (secondChild + 1))%nat in
      match l !! (secondChild' - 1)%nat with
      | Some c => ((secondChild' - 1)%nat, <[secondChild := c]> l)
      | None => (secondChild, l)
      end
    else (secondChild, l) in
  push_heap len l holeIndex topIndex value.

(** [__make_heap] over the first [len] places. *)
Fixpoint make_heap_from (parent : nat) (len : nat) (l : list A) : list A :=
  let l' := match l !! parent with
            | Some value => adjust_heap l parent len value
            | None => l
            end in
  match parent with
  | O => l'
  | S parent' => make_heap_from parent' len l'
  end.

Definition make_heap (l : list A) : list A :=
  if (length l <? 2)%nat then l else make_heap_from ((length l - 2) / 2) (length l) l.

(** [__pop_heap(first, last, last)] with [last - first = len]. *)
Definition pop_heap (len : nat) (l : list A) : list A :=
  match l !! len, l !! O with
  | Some value, Some top => adjust_heap (<[len := top]> l) 0 len value
  | _, _ => l
  end.

Fixpoint sort_heap (len : nat) (l : list A) : list A :=
  match len with
  | S len' => if (1 <? len)%nat then sort_heap len' (pop_heap len' l) else l
  | O => l
  end.

(** [__partial_sort(first, last, last)] *)
Definition partial_sort (l : list A) : list A := sort_heap (length l) (make_heap l).

Fixpoint introsort_loop (depth_limit : nat) (l : list A) : list A :=
  if (S_threshold <? length l)%nat then
    match depth_limit with
    | O => partial_sort l
    | S depth_limit' =>
        let '(cut, l') := unguarded_partition_pivot l in
        introsort_loop depth_limit' (take cut l')
        ++ introsort_loop depth_limit' (drop cut l')
    end
  else l.

Definition std_sort (l : list A) : list A :=
  match l with
  | [] => []
  | _ => final_insertion_sort (introsort_loop (2 * Nat.log2 (length l)) l)
  end.

(** [__move_merge] and [__move_merge_adaptive] *)
Fixpoint move_merge (l1 : list A) : list A -> list A :=
  fix inner (l2 : list A) : list A :=
    match l1, l2 with
    | [], _ => l2
    | _, [] => l1
    | x1 :: l1', x2 :: l2' =>
        if comp x2 x1 then x2 :: inner l2' else x1 :: move_merge l1' l2
    end.

(** [__move_merge_adaptive_backward], on the two ranges read from their
    last elements, giving the merged range from its last element. *)
Fixpoint move_merge_backward_rev (r1 : list A) : list A -> list A :=
  fix inner (r2 : list A) : list A :=
    match r1, r2 with
    | [], _ => r2
    | _, [] => r1
    | last1 :: r1', last2 :: r2' =>
        if comp last2 last1 then last1 :: move_merge_backward_rev r1' r2
        else last2 :: inner r2'
    end.

Definition move_merge_adaptive_backward (l1 l2 : list A) : list A :=
  rev (move_merge_backward_rev (rev l1) (rev l2)).

Fixpoint merge_sort_loop (fuel : nat) (step_size : nat) (l : list A) : list A :=
  match fuel with
  | S fuel' =>
      if (2 * step_size <=? length l)%nat then
        move_merge (take step_size l) (take step_size (drop step_size l))
        ++ merge_sort_loop fuel' step_size (drop (2 * step_size) l)
      else
        let step_size := Nat.min (length l) step_size in
        move_merge (take step_size l) (drop step_size l)
  | O => l
  end.

Fixpoint chunk_insertion_sort (fuel : nat) (chunk_size : nat) (l : list A) : list A :=
  match fuel with
  | S fuel' =>
      if (chunk_size <=? length l)%nat then
        insertion_sort (take chunk_size l)
        ++ chunk_insertion_sort fuel' chunk_size (drop chunk_size l)
      else insertion_sort l
  | O => insertion_sort l
  end.

Definition S_chunk_size : nat := 7.

Fixpoint merge_sort_passes (fuel : nat) (step_size : nat) (l : list A) : list A :=
  match fuel with
  | S fuel' =>
      if (step_size <? length l)%nat then
        let l := merge_sort_loop (S (length l)) step_size l in
        let l := merge_sort_loop (S (length l)) (2 * step_size) l in
        merge_sort_passes fuel' (4 * step_size) l
      else l
  | O => l
  end.

Definition merge_sort_with_buffer (l : list A) : list A :=
  merge_sort_passes (length l) S_chunk_size
    (chunk_insertion_sort (length l) S_chunk_size l).

Definition merge_adaptive (l1 l2 : list A) : list A :=
  if (length l1 <=? length l2)%nat then move_merge l1 l2
  else move_merge_adaptive_backward l1 l2.

Definition std_stable_sort (l : list A) : list A :=
  match l with
  | [] => []
  | _ =>
      let len := ((length l + 1) / 2)%nat in
      merge_adaptive (merge_sort_with_buffer (take len l))
                     (merge_sort_with_buffer (drop len l))
  end.

End StdAlgo.




Definition float_gt (l r : float) : bool := Float32.ltb r l.

Section Interpreter.

Variable libm : HostMath.
Variable N width height Y X : Z.
Variable pixelGet : ExprOp -> Z -> Z -> result float.
Variable propGet : Z -> string -> result float.

(** The lambda [check_stack]. *)
Definition check_stack (stack : list float) (nargs : Z) : result unit :=
  let size := wrap_i32 (Z.of_nat (length stack)) in
  if size <? nargs then
    Throw (runtime_error ("stack underflow, expecting " ++ pretty nargs
             ++ " args, but only has " ++ pretty size ++ " elements left on stack"))
  else Ok ().

Definition ISt : Type := list float * gmap string float.

Definition I_BINARYOP (f : float -> float -> float) (st : ISt) : result ISt :=
  _ ← check_stack (fst st) 2;
  '(l, r, stack) ← LOAD2 (fst st);
  Ok (stack ++ [f l r], snd st).

Definition I_UNARYOP (f : float -> float) (st : ISt) : result ISt :=
  _ ← check_stack (fst st) 1;
  '(x, stack) ← LOAD1 (fst st);
  Ok (stack ++ [f x], snd st).

Definition I_LOGICOP (f : bool -> bool -> bool) (st : ISt) : result ISt :=
  I_BINARYOP (fun l r => float_of_bool (f (float_gt l Float32.zero)
                                          (float_gt r Float32.zero))) st.

(** [(int)std::round(x)] *)
Definition round_int (x : float) : Z := Float32.to_int32 (c_round libm x).

Definition I_BITWISEOP (f : Z -> Z -> Z) (st : ISt) : result ISt :=
  I_BINARYOP (fun l r => float_of_int (f (round_int l) (round_int r))) st.

Definition I_CMP (code : Z) (l r : float) : result bool :=
  if code =? ComparisonType.EQ then Ok (Float32.eqb l r)
  else if code =? ComparisonType.LT then Ok (Float32.ltb l r)
  else if code =? ComparisonType.LE then Ok (Float32.leb l r)
  else if code =? ComparisonType.NEQ then Ok (negb (Float32.eqb l r))
  else if code =? ComparisonType.NLT then Ok (Float32.leb r l)
  else if code =? ComparisonType.NLE then Ok (Float32.ltb r l)
  else Throw undefined_behaviour.

(** The scan of [ARGMIN]/[ARGMAX] over [stack[off+1 ..]]. *)
Fixpoint arg_scan (is_min : bool) (xs : list float) (i : Z) (cur : float) (idx : Z) : Z :=
  match xs with
  | [] => idx
  | x :: xs' =>
      if (is_min && Float32.ltb x cur) || (negb is_min && Float32.ltb cur x)
      then arg_scan is_min xs' (i + 1) x i
      else arg_scan is_min xs' (i + 1) cur idx
  end.

(** The [switch (op.type)] of [interpret]. *)
Definition interp_op (op : ExprOp) (st : ISt) : result ISt :=
  let '(stack, vars) := st in
  match op_type op with
  | DUP =>
      _ ← check_stack stack (union_i (op_imm op));
      stack ← dup_n (union_u (op_imm op)) stack; Ok (stack, vars)
  | SWAP =>
      _ ← check_stack stack (union_i (op_imm op));
      stack ← swap_n (union_u (op_imm op)) stack; Ok (stack, vars)
  | DROP =>
      _ ← check_stack stack (union_i (op_imm op));
      stack ← pop_n (union_u (op_imm op)) stack; Ok (stack, vars)
  | MEM_LOAD | MEM_LOAD_VAR =>
      v ← pixelGet op Y X; Ok (stack ++ [v], vars)
  | CONSTANTI => Ok (stack ++ [float_of_int (union_i (op_imm op))], vars)
  | CONSTANTF => Ok (stack ++ [union_f (op_imm op)], vars)
  | CONST_LOAD =>
      let c := union_i (op_imm op) in
      if c =? LoadConstType.N then Ok (stack ++ [float_of_int N], vars)
      else if c =? LoadConstType.Y then Ok (stack ++ [float_of_int Y], vars)
      else if c =? LoadConstType.X then Ok (stack ++ [float_of_int X], vars)
      else if c =? LoadConstType.Width then Ok (stack ++ [float_of_int width], vars)
      else if c =? LoadConstType.Height then Ok (stack ++ [float_of_int height], vars)
      else
        v ← propGet (wrap_i32 (c - LoadConstType.LAST)) (op_name op);
        Ok (stack ++ [v], vars)
  | VAR_LOAD =>
      match vars !! op_name op with
      | None =>
          Throw (runtime_error ("variable " ++ op_name op ++ " used before assignment"))
      | Some v => Ok (stack ++ [v], vars)
      end
  | VAR_STORE =>
      '(v, stack) ← LOAD1 stack;
      Ok (stack, <[op_name op := v]> vars)
  | ADD => I_BINARYOP Float32.add st
  | SUB => I_BINARYOP Float32.sub st
  | MUL => I_BINARYOP Float32.mul st
  | DIV => I_BINARYOP Float32.div st
  | MOD => I_BINARYOP (c_fmod libm) st
  | SQRT => I_UNARYOP (fun x => c_sqrt libm (std_max x Float32.zero)) st
  | ABS => I_UNARYOP SFabs st
  | MAX => I_BINARYOP std_max st
  | MIN => I_BINARYOP std_min st
  | CLAMP =>
      _ ← check_stack stack 3;
      '(min, max, stack) ← LOAD2 stack;
      '(x, stack) ← LOAD1 stack;
      Ok (stack ++ [std_max (std_min x max) min], vars)
  | CMP =>
      _ ← check_stack stack 2;
      '(l, r, stack) ← LOAD2 stack;
      x ← I_CMP (union_u (op_imm op)) l r;
      Ok (stack ++ [float_of_bool x], vars)
  | TRUNC => I_UNARYOP (c_trunc libm) st
  | ROUND => I_UNARYOP (c_round libm) st
  | FLOOR => I_UNARYOP (c_floor libm) st
  | AND => I_LOGICOP andb st
  | OR => I_LOGICOP orb st
  | XOR => I_LOGICOP xorb st
  | NOT => I_UNARYOP (fun x => float_of_bool (Float32.leb x Float32.zero)) st
  | BITAND => I_BITWISEOP Z.land st
  | BITOR => I_BITWISEOP Z.lor st
  | BITXOR => I_BITWISEOP Z.lxor st
  | BITNOT => I_UNARYOP (fun x => float_of_int (Z.lnot (round_int x))) st
  | EXP => I_UNARYOP (c_exp libm) st
  | LOG => I_UNARYOP (c_log libm) st
  | POW => I_BINARYOP (c_pow libm) st
  | SIN => I_UNARYOP (c_sin libm) st
  | COS => I_UNARYOP (c_cos libm) st
  | TERNARY =>
      _ ← check_stack stack 3;
      '(t, f, stack) ← LOAD2 stack;
      '(c, stack) ← LOAD1 stack;
      Ok (stack ++ [if float_gt c Float32.zero then t else f], vars)
  | SORT =>
      _ ← check_stack stack (union_i (op_imm op));
      if Z.of_nat (length stack) <? union_u (op_imm op) then Throw undefined_behaviour
      else
        let off := (length stack - Z.to_nat (union_u (op_imm op)))%nat in
        Ok (take off stack ++ std_sort float_gt (drop off stack), vars)
  | ARGMIN | ARGMAX =>
      _ ← check_stack stack (union_i (op_imm op));
      if (Z.of_nat (length stack) <? union_u (op_imm op)) || (union_u (op_imm op) =? 0)
      then Throw undefined_behaviour
      else
        let off := (length stack - Z.to_nat (union_u (op_imm op)))%nat in
        match drop off stack with
        | cur :: xs =>
            let idx := arg_scan (bool_decide (op_type op = ARGMIN)) xs 1 cur 0 in
            Ok (take off stack ++ [float_of_int idx], vars)
        | [] => Throw undefined_behaviour
        end
  | ARGSORT =>
      _ ← check_stack stack (union_i (op_imm op));
      if Z.of_nat (length stack) <? union_u (op_imm op) then Throw undefined_behaviour
      else
        let off := (length stack - Z.to_nat (union_u (op_imm op)))%nat in
        let top := drop off stack in
        let idxs :=
          std_stable_sort
            (fun l r => float_gt (default Float32.zero (top !! l))
                                 (default Float32.zero (top !! r)))
            (seq 0 (length top)) in
        Ok (take off stack ++ map (fun i => float_of_int (Z.of_nat i)) idxs, vars)
  end.

Fixpoint interp_loop (ops : list ExprOp) (st : ISt) : result ISt :=
  match ops with
  | [] => Ok st
  | op :: ops' => st ← interp_op op st; interp_loop ops' st
  end.

(** [interpret(ops, N, width, height, Y, X, pixelGet, propGet)] with
    the debugging argument [rstk] left at its default. *)
Definition interpret (ops : list ExprOp) : result float :=
  st ← interp_loop ops ([], ∅);
  match fst st with
  | [] => Throw (runtime_error "empty expression")
  | [x] => Ok x
  | x :: _ =>
      Throw (runtime_error ("unconsumed " ++ pretty (length (fst st))
                              ++ " values on stack"))
  end.

End Interpreter.

(** ** Frame properties of the host *)

(** [double], as the host API passes floating-point properties. *)
Definition double : Type := spec_float.

Definition float_of_double (d : double) : float :=
  match d with
  | S754_finite s m e =>
      binary_normalize Float32.prec Float32.emax (cond_Zopp s (Zpos m)) e s
  | _ => d
  end.

Definition double_of_float (f : float) : double :=
  match f with
  | S754_finite s m e => binary_normalize 53 1024 (cond_Zopp s (Zpos m)) e s
  | _ => f
  end.

(** Modelled from the spec: the host frame API ("a means to read
    integer/float/data frame properties by name") is declared in
    VapourSynth.h, which is not part of the sources.  A property is a typed
    array; the getters report through their [error] argument, [0] on
    success, [peUnset] for a missing key, [peType] for a property of
    another type and [peIndex] for an index past the end. *)
Inductive VSProp : Type :=
  | PInt (vals : list Z)
  | PFloat (vals : list double)
  | PData (vals : list string)
  | POther (count : nat).   (* clips, frames and functions *)

Definition peUnset : Z := 1.
Definition peType : Z := 2.
Definition peIndex : Z := 4.

Definition prop_get {A : Type} (sel : VSProp -> option (list A)) (m : gmap string VSProp)
    (key : string) (index : nat) : option A * Z :=
  match m !! key with
  | None => (None, peUnset)
  | Some p =>
      match sel p with
      | None => (None, peType)
      | Some vals =>
          match vals !! index with
          | Some v => (Some v, 0)
          | None => (None, peIndex)
          end
      end
  end.

(** Modelled from the spec: [propGetInt], [propGetFloat] and
    [propGetData] of the host API; on error the first two return zero
    and the last a null pointer. *)
Definition propGetInt (m : gmap string VSProp) (key : string) (index : nat) : Z * Z :=
  let '(v, err) := prop_get (fun p => match p with PInt l => Some l | _ => None end)
                            m key index in
  (default 0 v, err).

Definition propGetFloat (m : gmap string VSProp) (key : string) (index : nat)
    : double * Z :=
  let '(v, err) := prop_get (fun p => match p with PFloat l => Some l | _ => None end)
                            m key index in
  (default (S754_zero false) v, err).

Definition propGetData (m : gmap string VSProp) (key : string) (index : nat)
    : option string * Z :=
  prop_get (fun p => match p with PData l => Some l | _ => None end) m key index.

(** Modelled from the spec: [propDeleteKey], and [propSetInt] and
    [propSetFloat] in [paAppend] mode, which create the property when the
    key is absent and refuse a property of another type. *)
Definition propDeleteKey (m : gmap string VSProp) (key : string) : gmap string VSProp :=
  delete key m.

Definition propSetInt_append (m : gmap string VSProp) (key : string) (i : Z)
    : gmap string VSProp :=
  match m !! key with
  | None => <[key := PInt [i]]> m
  | Some (PInt l) => <[key := PInt (l ++ [i])]> m
  | Some _ => m
  end.

Definition propSetFloat_append (m : gmap string VSProp) (key : string) (d : double)
    : gmap string VSProp :=
  match m !! key with
  | None => <[key := PFloat [d]]> m
  | Some (PFloat l) => <[key := PFloat (l ++ [d])]> m
  | Some _ => m
  end.

(** [val = d[0]] for [const char *d]: the terminator when the data is
    empty; [char] is signed on the x86 targets of the JIT. *)
Definition first_byte (d : string) : Z :=
  match d with
  | EmptyString => 0
  | String c _ => if Z_of_char c <? 128 then Z_of_char c else Z_of_char c - 256
  end.

(** The property read that [exprGetFrame], and the [propGet] lambdas of
    [selectGetFrame] and [propExprGetFrame], spell out in the same words;
    they differ in the value assigned under [if (err != 0)]. *)
Definition read_frame_prop (on_error : float) (m : gmap string VSProp) (name : string)
    : float :=
  let '(i, err) := propGetInt m name 0 in
  let val := Float32.of_Z i in
  let '(val, err) :=
    if err =? peType
    then let '(d, err) := propGetFloat m name 0 in (float_of_double d, err)
    else (val, err) in
  let '(val, err) :=
    if err =? peType
    then let '(d, err) := propGetData m name 0 in
         (match d with Some d => Float32.of_Z (first_byte d) | None => val end, err)
    else (val, err) in
  if negb (err =? 0) then on_error else val.

(** [exprGetFrame]: the values appended to [consts] after the frame
    number, [val = std::nanf("")] on error.  [src] holds the property
    maps of the input frames. *)
Definition exprGetFrame_consts (src : list (gmap string VSProp))
    (propAccess : list PropAccess) : result (list float) :=
  mapM (M := result)
       (fun pa : PropAccess =>
          if fst pa <? 0 then Throw undefined_behaviour
          else match src !! Z.to_nat (fst pa) with
               | Some m => Ok (read_frame_prop Float32.nan m (snd pa))
               | None => Throw undefined_behaviour
               end)
       propAccess.

(** The [propGet] lambda of [selectGetFrame] and of [propExprGetFrame],
    [val = 0.0f] on error. *)
Definition frame_propGet (props : list (gmap string VSProp)) (idx : Z) (name : string)
    : result float :=
  if idx <? 0 then Throw undefined_behaviour
  else match props !! Z.to_nat idx with
       | Some m => Ok (read_frame_prop Float32.zero m name)
       | None => Throw undefined_behaviour
       end.

Definition selectGetFrame_propGet := frame_propGet.
Definition propExprGetFrame_propGet := frame_propGet.

(** ** Frame-time code of Select and PropExpr *)

(** [try { x = interpret(...); } catch (std::runtime_error &e) { x = 0.0f; }] *)
Definition catch_runtime_error (r : result float) : result float :=
  match r with
  | Throw (runtime_error _) => Ok Float32.zero
  | _ => r
  end.

Section FrameTime.

Variable libm : HostMath.

(** The guarded call both filters make at frame time: [Y = X = -1],
    pixels read as [0.0f]. *)
Definition frame_interpret (n width height : Z) (props : list (gmap string VSProp))
    (ops : list ExprOp) : result float :=
  catch_runtime_error
    (interpret libm n width height (-1) (-1)
               (fun _ _ _ => Ok Float32.zero)
               (frame_propGet props) ops).

(** [selectGetFrame]: the clip chosen for one plane. *)
Definition selectedClip (n width height : Z) (props : list (gmap string VSProp))
    (numSrc : Z) (ops : list ExprOp) : result Z :=
  x ← frame_interpret n width height props ops;
  let x := c_round libm x in
  Ok (Z.max 0 (Z.min (Float32.to_int32 x) (numSrc - 1))).

(** [pair.second[n % pair.second.size()]] *)
Definition ops_at_frame (n : Z) (opss : list (list ExprOp)) : result (list ExprOp) :=
  match opss with
  | [] => Throw undefined_behaviour
  | _ =>
      match opss !! Z.to_nat ((n mod 2 ^ 64) mod Z.of_nat (length opss)) with
      | Some ops => Ok ops
      | None => Throw undefined_behaviour
      end
  end.

(** First loop of [propExprGetFrame]: all values are computed before
    any property is written. *)
Definition propExpr_vals (n width height : Z) (props : list (gmap string VSProp))
    (d_ops : list (string * list (list ExprOp))) : result (list float) :=
  mapM (M := result)
       (fun kv : string * list (list ExprOp) =>
          ops ← ops_at_frame n (snd kv);
          frame_interpret n width height props ops)
       d_ops.

(** One round of the second loop. *)
Definition propExpr_write (n : Z) (map : gmap string VSProp)
    (kv : string * list (list ExprOp)) (v : float) : result (gmap string VSProp) :=
  let name := fst kv in
  ops ← ops_at_frame n (snd kv);
  let map := propDeleteKey map name in
  if (0 <? length ops)%nat then
    if Float32.eqb v (Float32.of_Z (Float32.to_int64 v))
    then Ok (propSetInt_append map name (Float32.to_int64 v))
    else Ok (propSetFloat_append map name (double_of_float v))
  else Ok map.

Fixpoint propExpr_writes (n : Z) (map : gmap string VSProp)
    (d_ops : list (string * list (list ExprOp))) (vals : list float)
    : result (gmap string VSProp) :=
  match d_ops, vals with
  | kv :: d_ops', v :: vals' =>
      map ← propExpr_write n map kv v;
      propExpr_writes n map d_ops' vals'
  | [], _ => Ok map
  | _ :: _, [] => Throw undefined_behaviour
  end.

(** [propExprGetFrame] at [arAllFramesReady]: the properties of the
    returned frame, which starts as a copy of those of [props[0]]. *)
Definition propExprGetFrame (n width height : Z) (props : list (gmap string VSProp))
    (d_ops : list (string * list (list ExprOp))) : result (gmap string VSProp) :=
  match props with
  | [] => Throw undefined_behaviour
  | dst :: _ =>
      vals ← propExpr_vals n width height props d_ops;
      propExpr_writes n dst d_ops vals
  end.

End FrameTime.

(** ** Creation-time code of PropExpr *)

Section Create.

Variable stof : string -> option (float * nat).
Variable libm : HostMath.

(** [propExprCreate]: one expression string of a dictionary entry.  An
    empty string is kept as an empty operation list; anything else is
    decoded in extended mode and run once, so that a faulty expression
    is refused when the filter is created. *)
Definition propExprCreate_ops (key : string) (numInputs width height : Z)
    (expr : string) : result (list ExprOp) :=
  if negb (str_len expr =? 0)%nat then
    ops ← decode_all stof true (fun op => op) (tokenize expr);
    _ ← interpret libm 0 width height (-1) (-1)
          (fun _ _ _ =>
             Throw (runtime_error (key ++ ": unable to use pixel values in PropExpr")))
          (fun index _ =>
             if numInputs <=? index
             then Throw (runtime_error (key ++ ": property access clip out of range"))
             else Ok Float32.zero)
          ops;
    Ok ops
  else Ok [].

End Create.

(** ** Comparing the interpreter with the generated code *)




(** ** Instances used to run the examples *)

(** A back end for running examples: IEEE-754 arithmetic where
    [SpecFloat] provides it; the remaining entries are placeholders that
    no example reaches. *)
Definition example_rr : Reactor :=
  {| rr_FAdd := Float32.add;
     rr_FSub := Float32.sub;
     rr_FMul := Float32.mul;
     rr_FDiv := Float32.div;
     rr_FRem := fun a _ => a;
     rr_FMax := fun a b => if Float32.ltb b a then a else b;
     rr_FMin := fun a b => if Float32.ltb a b then a else b;
     rr_FAbs := SFabs;
     rr_Sqrt := SFsqrt Float32.prec Float32.emax;
     rr_Trunc := fun a => a;
     rr_Round := fun a => a;
     rr_Floor := fun a => a;
     rr_RoundInt := Float32.to_int32;
     rr_FCmpEQ := Float32.eqb;
     rr_FCmpLT := Float32.ltb;
     rr_FCmpLE := Float32.leb;
     rr_FCmpNEQ := fun a b => negb (Float32.eqb a b);
     rr_FCmpNLT := fun a b => Float32.leb b a;
     rr_FCmpNLE := fun a b => Float32.ltb b a;
     rr_FCmpGT := fun a b => Float32.ltb b a;
     rr_BuiltinPow := fun a _ => a;
     rr_IsConstant := isConst;
     rr_FP32To16 := fun _ => 0 |}.

Definition example_helpers : Helper :=
  {| h_Exp := fun a => a; h_Log := fun a => a; h_Sin := fun a => a;
     h_Cos := fun a => a; h_Pow := fun a _ => a |}.

Definition example_libm : HostMath :=
  {| c_fmod := fun a _ => a;
     c_sqrt := SFsqrt Float32.prec Float32.emax;
     c_trunc := fun a => a;
     c_round := fun a => a;
     c_floor := fun a => a;
     c_exp := fun a => a;
     c_log := fun a => a;
     c_pow := fun a _ => a;
     c_sin := fun a => a;
     c_cos := fun a => a |}.

(** A lane at column 2, row 1 of a 4x3 plane of frame 7 whose samples
    all read 5. *)
Definition example_env : Env :=
  {| env_N := 7;
     env_consts := fun _ => Float32.zero;
     env_x := 2; env_y := 1; env_width := 4; env_height := 3;
     env_load_int := fun _ => 5;
     env_load_float := fun _ => Float32.of_Z 5;
     env_gather_int := fun _ _ _ => 5;
     env_gather_float := fun _ _ _ => Float32.of_Z 5 |}.

Definition fmt_u8 : VSFormat := mkVSFormat stInteger 8 1.
Definition fmt_f32 : VSFormat := mkVSFormat stFloat 32 4.

(** [std::stof] is not needed by tokens the integer parser accepts. *)
Definition no_stof (s : string) : option (float * nat) := None.

(** ["x 2.0 *"] over one 8-bit clip with integer code generation on. *)
Definition example_ctx_int : Context :=
  mkContext "x 2.0 *" ["x"; "2.0"; "*"]%string [] fmt_u8 [fmt_u8] 1 1 false.


(** The dictionary [{ "K": "N 2 *" }] of PropExpr, decoded. *)
Definition example_d_ops : list (string * list (list ExprOp)) :=
  [ ("K"%string,
     [ [Op2 CONST_LOAD (ExprUnion_i LoadConstType.N);
        Op2 CONSTANTI (ExprUnion_i 2);
        Op1 MUL] ]) ].


Definition no_pixels (op : ExprOp) (y x : Z) : result float := Ok Float32.zero.
Definition no_props (idx : Z) (name : string) : result float := Ok Float32.zero.



(** ** Predicates and notions used in the statements *)

(** Every rule of [decodeToken] that is tried before the numeric
    literal fails on [token]. *)
Definition earlier_rules_miss (token : string) (extended : bool) : bool :=
  match simple_find simple token with Some _ => false | None => true end
  && match match_clipNameRe token with Some _ => false | None => true end
  && negb ((2 <=? str_len token)%nat
           && (Ascii.eqb (str_back token) "@" || Ascii.eqb (str_back token) "!"))
  && negb (is_counted_stack_token token)
  && negb (extended && is_counted_arg_token token)
  && match match_framePropRe token with Some _ => false | None => true end
  && match match_relpixelRe token with Some _ => false | None => true end
  && match match_abspixelRe token with Some _ => false | None => true end.

(** The named property is missing, or is neither integer, float nor
    data. *)
Definition prop_unreadable (m : gmap string VSProp) (name : string) : Prop :=
  m !! name = None \/ exists k, m !! name = Some (POther k).

(** The frame properties of one input frame. *)
Definition example_props : list (gmap string VSProp) :=
  [ {[ "_Sel"%string := PInt [1]; "_Node"%string := POther 1 ]} ].

(** What the second loop of [propExprGetFrame] leaves under a key. *)
Definition propExpr_written (ops : list ExprOp) (v : float) : option VSProp :=
  if (0 <? length ops)%nat then
    if Float32.eqb v (Float32.of_Z (Float32.to_int64 v))
    then Some (PInt [Float32.to_int64 v])
    else Some (PFloat [double_of_float v])
  else None.

(** Every comparator joins a slot with a deeper one inside the top [n]. *)
Definition cmp_in_range (n : Z) (cmp : Z * Z) : Prop :=
  0 <= fst cmp < snd cmp /\ snd cmp < n.


(** The integer lanes of a compile-time stack, and the comparators of
    [SORT] as they act on them ([Value::Min] and [Value::Max] of two
    integer values are [rr::Min] and [rr::Max] of the lanes). *)
Definition int_val (v : Value) : Z :=
  match v with VInt i _ => i | VFloat _ _ => 0 end.

Definition cmp_ints (s : list Z) (cmp : Z * Z) : list Z :=
  let ia := stack_top_index s (fst cmp) in
  let ib := stack_top_index s (snd cmp) in
  let a := default 0 (s !! ia) in
  let b := default 0 (s !! ib) in
  <[ib := Z.max a b]> (<[ia := Z.min a b]> s).

Definition net_ints (sn : SortingNetwork) (s : list Z) : list Z :=
  foldl cmp_ints s sn.

(** No element is followed by a greater one. *)
Fixpoint descending (l : list Z) : bool :=
  match l with
  | x :: (y :: _) as t => (y <=? x) && descending t
  | _ => true
  end.

(** Stacks of zeros and ones, all of them for each height, and the maps
    that send a stack to such a stack without changing the order of its
    values. *)
Definition threshold (t x : Z) : Z := if t <=? x then 1 else 0.

Fixpoint zero_one_stacks (n : nat) : list (list Z) :=
  match n with
  | O => [[]]
  | S n' => flat_map (fun l => [0 :: l; 1 :: l]) (zero_one_stacks n')
  end.

(** The heights at which the network is checked on every stack of zeros
    and ones. *)
Definition checked_heights : list nat := seq 0 13.

Definition sorts_zero_one_stacks (n : nat) : bool :=
  forallb (fun s => descending (net_ints (buildSortNet (Z.of_nat n)) s))
          (zero_one_stacks n).

(** A token as [tokenize] produces them: not empty, no white space. *)
Definition clean_token (tok : string) : Prop :=
  tok <> EmptyString
  /\ Forall (fun c => isspace c = false) (list_ascii_of_string tok).

(** The number a string of decimal digits writes. *)
Fixpoint decimal_acc (acc : Z) (s : string) : Z :=
  match s with
  | EmptyString => acc
  | String c s' => decimal_acc (acc * 10 + (Z_of_char c - 48)) s'
  end.

Definition decimal_value (s : string) : Z := decimal_acc 0 s.

(** A numeral: one decimal digit or more. *)
Definition is_numeral (s : string) : Prop :=
  s <> EmptyString /\ Forall (fun c => isdigit c = true) (list_ascii_of_string s).

(** A clip name as the decoder's regular expressions accept it: one
    lower-case letter, or [src] followed by a numeral. *)
Definition is_clip_name (clip : string) : Prop :=
  (exists c, islower c = true /\ clip = String c EmptyString)
  \/ (exists ds, is_numeral ds /\ clip = String.append clipNamePrefix ds).

(** The single-letter clip names in the order of the clips they name. *)
Definition clip_letters : string := "xyzabcdefghijklmnopqrstuvw".

(** A token that ends in one of the variable marks. *)
Definition ends_with_mark (s : string) : bool :=
  Ascii.eqb (str_back s) "@" || Ascii.eqb (str_back s) "!".

(** Whether a character occurs in a string. *)
Definition has_char (c : ascii) (s : string) : bool :=
  existsb (Ascii.eqb c) (list_ascii_of_string s).

(** What [decodeToken] guarantees about the operation it returns: clip
    indices and counts are not negative, a frame-property access carries
    a non-negative clip index after the bias [LoadConstType::LAST] is
    taken off, a comparison carries one of the six codes, a variable has
    a name, and the rank operators of Select and PropExpr appear in
    extended mode only. *)
Definition decoded_ok (extended : bool) (op : ExprOp) : bool :=
  let i := union_i (op_imm op) in
  match op_type op with
  | MEM_LOAD | MEM_LOAD_VAR => 0 <=? i
  | CONST_LOAD =>
      ((0 <=? i) && (i <? LoadConstType.LAST))
      || (0 <=? wrap_i32 (i - LoadConstType.LAST))
  | CMP => existsb (Z.eqb (union_u (op_imm op))) [0; 1; 2; 4; 5; 6]
  | DUP | SWAP | DROP | SORT => 0 <=? i
  | ARGMIN | ARGMAX | ARGSORT => extended && (0 <=? i)
  | VAR_LOAD | VAR_STORE => negb (String.eqb (op_name op) "")
  | _ => true
  end.

(** ** Creation-time code of Select *)

Section CreateSelect.

Variable stof : string -> option (float * nat).
Variable libm : HostMath.

(** [selectCreate]: the expression of one plane is decoded in extended
    mode and run once with [N = 0], so that a faulty expression is
    refused when the filter is created. *)
Definition selectCreate_ops (numPropInputs width height : Z) (expr : string)
    : result (list ExprOp) :=
  ops ← decode_all stof true (fun op => op) (tokenize expr);
  _ ← interpret libm 0 width height (-1) (-1)
        (fun _ _ _ => Throw (runtime_error "unable to use pixel values in Select"))
        (fun index _ =>
           if numPropInputs <=? index
           then Throw (runtime_error "property access clip out of range.")
           else Ok Float32.zero)
        ops;
  Ok ops.

End CreateSelect.

(** [selectGetFrame]: the source frames requested once the clips are
    selected, one request for each clip that no earlier plane selected. *)
Fixpoint select_requests (earlier : list Z) (selectedClip : list Z) : list Z :=
  match selectedClip with
  | [] => []
  | sel :: rest =>
      if existsb (Z.eqb sel) earlier
      then select_requests (earlier ++ [sel]) rest
      else sel :: select_requests (earlier ++ [sel]) rest
  end.

(** Two interpreter states of one shape: stacks of the same height and
    the same variables assigned. *)
Definition same_shape (a b : ISt) : Prop :=
  length (fst a) = length (fst b)
  /\ forall k : string, is_Some (snd a !! k) <-> is_Some (snd b !! k).

(** A [CONST_LOAD] that reads a frame property, and the clip and name
    it reads, as the first loop of [compile] tells them apart. *)
Definition is_prop_access (op : ExprOp) : bool :=
  bool_decide (op_type op = CONST_LOAD)
  && negb (union_i (op_imm op) <? LoadConstType.LAST).

Definition prop_access_key (op : ExprOp) : PropAccess :=
  (wrap_i32 (union_i (op_imm op) - LoadConstType.LAST), op_name op).

Definition is_var_access (op : ExprOp) : bool :=
  bool_decide (op_type op = VAR_LOAD) || bool_decide (op_type op = VAR_STORE).

(** What [buildOneIter] relies on for the operations it is given, once
    [compile] has numbered the variables: clip indices and counts are
    not negative, a [MEM_LOAD_VAR] names an input clip, a comparison
    carries one of the six codes, a variable has a slot in
    [state.variables], and none of the operators reserved for the
    interpreter is present. *)
Definition jit_ok (numInputs : Z) (nvars : nat) (op : ExprOp) : bool :=
  let i := union_i (op_imm op) in
  match op_type op with
  | MEM_LOAD => 0 <=? i
  | MEM_LOAD_VAR => (0 <=? i) && (i <? numInputs)
  | CMP => existsb (Z.eqb (union_u (op_imm op))) [0; 1; 2; 4; 5; 6]
  | DUP | SWAP | DROP | SORT => 0 <=? i
  | VAR_LOAD | VAR_STORE => (0 <=? i) && (i <? Z.of_nat nvars)
  | ARGMIN | ARGMAX | ARGSORT => false
  | _ => true
  end.

(** The exceptions the code generator raises on purpose, and the one
    that escapes from [std::get]: everything but the behaviour C++
    leaves undefined and the [std::out_of_range] of [vector::at]. *)
Definition benign (e : exn) : Prop :=
  match e with
  | runtime_error _ | bad_variant_access => True
  | out_of_range | undefined_behaviour => False
  end.

(** The test that moves the current best of the [ARGMIN]/[ARGMAX] scan:
    [x < cur] for [ARGMIN], [x > cur] for [ARGMAX]. *)
Definition arg_before (is_min : bool) (x cur : float) : bool :=
  if is_min then Float32.ltb x cur else Float32.ltb cur x.

(** A rank of the values that are not NaN: [<] on them is the
    lexicographic order of the ranks. *)
Definition float_key (f : float) : Z * Z * Z :=
  match f with
  | S754_infinity true => (-2, 0, 0)
  | S754_finite true m e => (-1, - e, - Z.pos m)
  | S754_zero _ | S754_nan => (0, 0, 0)
  | S754_finite false m e => (1, e, Z.pos m)
  | S754_infinity false => (2, 0, 0)
  end.

Definition lex_lt (a b : Z * Z * Z) : Prop :=
  a.1.1 < b.1.1
  \/ (a.1.1 = b.1.1 /\ (a.1.2 < b.1.2 \/ (a.1.2 = b.1.2 /\ a.2 < b.2))).

(** [idx] is the first place of [l] whose value no value of [l] comes
    before. *)
Definition first_best (is_min : bool) (l : list float) (idx : nat) (v : float) : Prop :=
  l !! idx = Some v
  /\ (forall j w, l !! j = Some w -> arg_before is_min w v = false)
  /\ (forall j w, l !! j = Some w -> (j < idx)%nat -> arg_before is_min v w = true).

(** ** The sample [MEM_LOAD] reads *)

(** [Clamp(x, min, max)] of Reactor: [Min(Max(x, min), max)]. *)
Definition rr_Clamp (x lo hi : Z) : Z := IMin (IMax x lo) hi.

(** The row [y] that [MEM_LOAD] puts in [p += y * stride + ...], from
    [state.y], [op.y] and [state.height]; [Int] arithmetic wraps.  After
    the constructor of [Context] a boundary condition that is not
    [Clamped] is [Mirrored]. *)
Definition mem_load_row (bc : BoundaryCondition) (dy y height : Z) : Z :=
  match bc with
  | Clamped =>
      if dy =? 0 then y else rr_Clamp (IAdd y dy) 0 (ISub height 1)
  | _ =>
      if dy =? 0 then y
      else
        let sy := IAdd y (rr_Clamp dy (wrap_i32 (- height)) height) in
        if sy <? 0 then ISub (-1) sy
        else if height <=? sy then ISub (ISub (IMul 2 height) 1) sy
        else sy
  end.

(** The column [xi] that the mirrored [MEM_LOAD] with [op.x != 0] puts in
    lane [i] of [offsets], before the scaling by [bytesPerSample]. *)
Definition mem_load_col_mirrored (dx x i width : Z) : Z :=
  let cx := rr_Clamp dx (wrap_i32 (- width)) width in
  let w2m1 := ISub (IMul 2 width) 1 in
  let sx := IAdd (IAdd x i) cx in
  if sx <? 0 then ISub (-1) sx
  else if width <=? sx then ISub w2m1 sx
  else sx.

(** A numeral with an optional minus sign, as [-?[0-9]+] reads it, and
    the integer it denotes. *)
Definition is_signed_numeral (s : string) : Prop :=
  is_numeral s \/ exists ds, is_numeral ds /\ s = String "-" ds.

Definition signed_value (s : string) : Z :=
  match s with
  | String c ds => if Ascii.eqb c "-" then - decimal_value ds else decimal_value s
  | EmptyString => 0
  end.

(** A value with no fractional part: a zero, or a finite value whose
    mantissa has no bit set below the unit. *)
Definition is_integral (f : float) : bool :=
  match f with
  | S754_zero _ => true
  | S754_finite _ m e => (0 <=? e) || (Z.land (Zpos m) (2 ^ (- e) - 1) =? 0)
  | _ => false
  end.

(** * Properties *)

(** ** Tactics *)



(** ** Machine integers and floats *)

Lemma wrap_i32_id_iff (z : Z) : wrap_i32 z = z <-> in_i32 z = true.
Proof.
  unfold wrap_i32, in_i32, INT_MIN, INT_MAX.
  rewrite andb_true_iff, !Z.leb_le.
  split.
  - intros H.
    pose proof (Z.mod_pos_bound (z + 2 ^ 31) (2 ^ 32) ltac:(lia)). lia.
  - intros [H1 H2]. rewrite Z.mod_small by lia. lia.
Qed.

Lemma wrap_u32_id_iff (z : Z) : wrap_u32 z = z <-> in_u32 z = true.
Proof.
  unfold wrap_u32, in_u32.
  rewrite andb_true_iff, Z.leb_le, Z.ltb_lt.
  split.
  - intros H. pose proof (Z.mod_pos_bound z (2 ^ 32) ltac:(lia)). lia.
  - intros [H1 H2]. apply Z.mod_small. lia.
Qed.

Lemma wrap_i32_range (z : Z) : INT_MIN <= wrap_i32 z <= INT_MAX.
Proof.
  unfold wrap_i32, INT_MIN, INT_MAX.
  pose proof (Z.mod_pos_bound (z + 2 ^ 31) (2 ^ 32) ltac:(lia)). lia.
Qed.

Lemma wrap_i32_small (z : Z) : INT_MIN <= z <= INT_MAX -> wrap_i32 z = z.
Proof.
  intros H. apply wrap_i32_id_iff. unfold in_i32.
  apply andb_true_iff. rewrite !Z.leb_le. lia.
Qed.

Lemma union_i_of_small (u : Z) : 0 <= u < 2 ^ 31 -> union_i u = u.
Proof. intros H. apply wrap_i32_small. unfold INT_MIN, INT_MAX. lia. Qed.

(** ** The IR: equality of operations *)

Lemma ExprOp_eqb_spec (a b : ExprOp) :
  ExprOp_eqb a b = true <->
  op_type a = op_type b /\ union_u (op_imm a) = union_u (op_imm b)
  /\ op_name a = op_name b /\ op_x a = op_x b /\ op_y a = op_y b.
Proof.
  unfold ExprOp_eqb.
  rewrite !andb_true_iff, bool_decide_eq_true, !Z.eqb_eq, String.eqb_eq.
  tauto.
Qed.

(** C8.  Two operations compare equal under [operator==] exactly when
    their kind, the raw 32-bit immediate read through the unsigned member
    of the union, the name and the two offsets agree; the boundary
    condition takes no part, so changing [bc] alone never makes an
    operation unequal to itself, although the two records differ. *)
Theorem ExprOp_equality_ignores_bc :
  (forall a b : ExprOp,
      ExprOp_eqb a b = true <->
      op_type a = op_type b /\ union_u (op_imm a) = union_u (op_imm b)
      /\ op_name a = op_name b /\ op_x a = op_x b /\ op_y a = op_y b)
  /\ (forall (op : ExprOp) (bc : BoundaryCondition),
         ExprOp_eqb op (set_bc op bc) = true)
  /\ (forall op : ExprOp,
         set_bc op Clamped <> set_bc op Mirrored
         /\ ExprOp_eqb (set_bc op Clamped) (set_bc op Mirrored) = true
         /\ ExprOp_neqb (set_bc op Clamped) (set_bc op Mirrored) = false).
Proof.
  split; [exact ExprOp_eqb_spec|].
  split.
  - intros op bc. apply ExprOp_eqb_spec. destruct op; simpl. tauto.
  - intros op.
    assert (H : ExprOp_eqb (set_bc op Clamped) (set_bc op Mirrored) = true).
    { apply ExprOp_eqb_spec. destruct op; simpl. tauto. }
    split; [discriminate|]. split; [exact H|].
    unfold ExprOp_neqb. rewrite H. reflexivity.
Qed.

(** ** The token decoder *)

Lemma decodeToken_falls_to_number stof token extended :
  earlier_rules_miss token extended = true ->
  decodeToken stof token extended = decode_number stof token.
Proof.
  unfold earlier_rules_miss, decodeToken.
  rewrite !andb_true_iff, !negb_true_iff.
  intros [[[[[[[H1 H2] H3] H4] H5] H6] H7] H8].
  destruct (simple_find simple token); [discriminate|].
  destruct (match_clipNameRe token); [discriminate|].
  rewrite H3, H4, H5.
  destruct (match_framePropRe token) as [[? ?]|]; [discriminate|].
  destruct (match_relpixelRe token) as [[[[? ?] ?] ?]|]; [discriminate|].
  destruct (match_abspixelRe token); [discriminate|].
  reflexivity.
Qed.

(** C10.  The bare tokens [dup], [swap] and [drop] come out of the
    [simple] table as [DUP] with count 0, [SWAP] with count 1 and [DROP]
    with count 1, the very operations the counted tokens [dup0], [swap1]
    and [drop1] decode to, in both the plain and the extended mode. *)
Theorem unsuffixed_stack_tokens :
  forall (stof : string -> option (float * nat)) (extended : bool),
    decodeToken stof "dup" extended = Ok (Op2 DUP (ExprUnion_i 0))
    /\ decodeToken stof "swap" extended = Ok (Op2 SWAP (ExprUnion_i 1))
    /\ decodeToken stof "drop" extended = Ok (Op2 DROP (ExprUnion_i 1))
    /\ decodeToken stof "dup" extended = decodeToken stof "dup0" extended
    /\ decodeToken stof "swap" extended = decodeToken stof "swap1" extended
    /\ decodeToken stof "drop" extended = decodeToken stof "drop1" extended
    /\ union_u (ExprUnion_i 0) = 0 /\ union_u (ExprUnion_i 1) = 1.
Proof.
  intros stof extended.
  repeat split; try reflexivity; destruct extended; reflexivity.
Qed.

Lemma union_i_ExprUnion_i (l : Z) : in_i32 l = true -> union_i (ExprUnion_i l) = l.
Proof.
  unfold union_i, ExprUnion_i, wrap_i32, wrap_u32, in_i32, INT_MIN, INT_MAX.
  rewrite andb_true_iff, !Z.leb_le. intros [H1 H2].
  rewrite Z.add_mod_idemp_l by lia.
  rewrite Z.mod_small by lia. lia.
Qed.

Lemma union_u_ExprUnion_u (l : Z) : in_u32 l = true -> union_u (ExprUnion_u l) = l.
Proof.
  intros H. apply wrap_u32_id_iff in H. unfold union_u, ExprUnion_u. by rewrite !H.
Qed.

Lemma union_i_small (p : ExprUnion) : union_u p < 2 ^ 31 -> union_i p = union_u p.
Proof.
  unfold union_i, union_u, wrap_i32, wrap_u32. intros H.
  pose proof (Z.mod_pos_bound p (2 ^ 32) ltac:(lia)) as Hb.
  rewrite <- (Z.add_mod_idemp_l p) by lia.
  rewrite (Z.mod_small (p mod 2 ^ 32 + 2 ^ 31)) by lia. lia.
Qed.

Lemma check_stack_pass (stack : list float) (nargs : Z) :
  Z.of_nat (length stack) < 2 ^ 31 -> nargs <= Z.of_nat (length stack) ->
  check_stack stack nargs = Ok ().
Proof.
  intros Hlen Hn. unfold check_stack.
  rewrite wrap_i32_small by (unfold INT_MIN, INT_MAX; lia).
  destruct (Z.ltb_spec (Z.of_nat (length stack)) nargs); [lia | reflexivity].
Qed.

Lemma tokenize_from_nonempty (expr : string) : forall cur : string,
  Forall (fun tok => tok <> EmptyString) (tokenize_from expr cur).
Proof.
  induction expr as [|c expr IH]; intros cur; cbn [tokenize_from].
  - destruct cur; repeat constructor. discriminate.
  - destruct (isspace c); [|apply IH].
    destruct cur; [apply IH|]. constructor; [discriminate | apply IH].
Qed.

(** The lexer never hands the decoder an empty token. *)
Lemma tokenize_nonempty (expr : string) :
  Forall (fun tok => tok <> EmptyString) (tokenize expr).
Proof. apply tokenize_from_nonempty. Qed.

(** C7.  When no earlier rule takes a (non-empty) token, the token is
    read as a number.  [stoll] with base 0 goes first: if it consumes the
    whole token, a value in the [int32_t] range becomes [CONSTANTI] of that
    value and a value only in the [uint32_t] range becomes [CONSTANTI]
    whose raw immediate is the value.  If [stoll] fails or stops early,
    [stof] is tried: a parse of the whole token gives [CONSTANTF], and
    both a partial parse and a failed one end in a [runtime_error]. *)
Theorem numeric_literal_decoding
    (stof : string -> option (float * nat)) (token : string) (extended : bool)
    (Hne : token <> EmptyString)
    (Hmiss : earlier_rules_miss token extended = true) :
  (forall l, stoll token 0 = Some (l, str_len token) -> in_i32 l = true ->
     decodeToken stof token extended = Ok (Op2 CONSTANTI (ExprUnion_i l))
     /\ union_i (ExprUnion_i l) = l)
  /\ (forall l, stoll token 0 = Some (l, str_len token) ->
        in_i32 l = false -> in_u32 l = true ->
        decodeToken stof token extended = Ok (Op2 CONSTANTI (ExprUnion_u l))
        /\ union_u (ExprUnion_u l) = l)
  /\ ((forall l, stoll token 0 <> Some (l, str_len token)) ->
      (forall f, stof token = Some (f, str_len token) ->
         decodeToken stof token extended = Ok (Op2 CONSTANTF (ExprUnion_f f)))
      /\ (forall f pos, stof token = Some (f, pos) -> pos <> str_len token ->
           exists what, decodeToken stof token extended = Throw (runtime_error what))
      /\ (stof token = None ->
           exists what, decodeToken stof token extended = Throw (runtime_error what))).
Proof.
  rewrite (decodeToken_falls_to_number stof token extended Hmiss).
  unfold decode_number.
  assert (Hlen : str_len token <> O).
  { destruct token; [congruence | discriminate]. }
  split; [|split].
  - intros l Hs Hi. rewrite Hs, Nat.eqb_refl.
    apply wrap_i32_id_iff in Hi as Hw. rewrite Hw, Z.eqb_refl.
    split; [reflexivity | by apply union_i_ExprUnion_i].
  - intros l Hs Hi Hu. rewrite Hs, Nat.eqb_refl.
    destruct (Z.eqb_spec (wrap_i32 l) l) as [Hw|_].
    { apply wrap_i32_id_iff in Hw. congruence. }
    apply wrap_u32_id_iff in Hu as Hw. rewrite Hw, Z.eqb_refl.
    split; [reflexivity | by apply union_u_ExprUnion_u].
  - intros Hpart.
    assert (Hpos : forall l pos,
               match stoll token 0 with Some r => r | None => (0, O) end = (l, pos) ->
               (pos =? str_len token)%nat = false).
    { intros l pos Heq. apply Nat.eqb_neq. intros ->.
      destruct (stoll token 0) as [[l' pos']|] eqn:Hs.
      - inversion Heq; subst. by apply (Hpart l).
      - inversion Heq; subst. congruence. }
    destruct (match stoll token 0 with Some r => r | None => (0, O) end)
      as [l pos] eqn:Heq.
    rewrite (Hpos l pos eq_refl).
    split; [|split].
    + intros f Hf. rewrite Hf, Nat.eqb_refl. reflexivity.
    + intros f p Hf Hp. rewrite Hf.
      apply Nat.eqb_neq in Hp. rewrite Hp.
      destruct (0 <? p)%nat; eauto.
    + intros Hf. rewrite Hf.
      destruct (0 =? str_len token)%nat eqn:E.
      { apply Nat.eqb_eq in E. congruence. }
      simpl. eauto.
Qed.

Lemma numeric_literal_decoding_witness :
  decodeToken no_stof "4294967295" false = Ok (Op2 CONSTANTI (ExprUnion_u 4294967295))
  /\ decodeToken no_stof "-12" false = Ok (Op2 CONSTANTI (ExprUnion_i (-12)))
  /\ exists what, decodeToken no_stof "1.5" false = Throw (runtime_error what).
Proof.
  split; [|split].
  - destruct (numeric_literal_decoding no_stof "4294967295" false
                ltac:(discriminate) eq_refl) as (_ & H & _).
    apply (H 4294967295); reflexivity.
  - destruct (numeric_literal_decoding no_stof "-12" false
                ltac:(discriminate) eq_refl) as (H & _ & _).
    apply (H (-12)); reflexivity.
  - destruct (numeric_literal_decoding no_stof "1.5" false
                ltac:(discriminate) eq_refl) as (_ & _ & H).
    apply H; [|reflexivity].
    intros l. vm_compute. discriminate.
Defined.

(** ** The code generator: constants *)



Lemma LOAD2_app {A : Type} (stack : list A) (l r : A) :
  LOAD2 (stack ++ [l; r]) = Ok (l, r, stack).
Proof.
  unfold LOAD2, LOAD1.
  change (stack ++ [l; r]) with (stack ++ [l] ++ [r]).
  rewrite app_assoc, rev_unit. cbn [mbind result_bind].
  rewrite rev_involutive, rev_unit. cbn [mbind result_bind].
  rewrite rev_involutive. reflexivity.
Qed.

Lemma LOAD1_app {A : Type} (stack : list A) (x : A) :
  LOAD1 (stack ++ [x]) = Ok (x, stack).
Proof. unfold LOAD1. rewrite rev_unit, rev_involutive. reflexivity. Qed.


Lemma pi_f_not_integral :
  Float32.eqb (union_f (ExprUnion_f pi_f))
              (Float32.of_Z (Float32.to_int32 (union_f (ExprUnion_f pi_f)))) = false
  /\ union_f (ExprUnion_f pi_f) = pi_f.
Proof. split; vm_compute; reflexivity. Qed.

Lemma emit_op_CONSTANTF rr helpers ctx env imm name x y bc stack variables :
  emit_op rr helpers ctx env (mkExprOp CONSTANTF imm name x y bc) (stack, variables) =
  Ok (stack ++ [if Float32.eqb (union_f imm)
                     (Float32.of_Z (Float32.to_int32 (union_f imm)))
                then Value_of_int (Float32.to_int32 (union_f imm))
                else Value_of_float (union_f imm)], variables).
Proof.
  unfold emit_op. cbn [op_type op_imm].
  destruct (Float32.eqb _ _); reflexivity.
Qed.





(** The literal [4294967296] is an integral value that fails the test,
    its integer part being out of the range of [int]: it is pushed as a
    float constant, although it is not "non-integral". *)
Lemma integral_literal_pushed_as_float :
  decodeToken no_stof "4294967296" false
  = Ok (Op2 CONSTANTF (ExprUnion_f (Float32.of_Z (2 ^ 32))))
  /\ is_integral (union_f (ExprUnion_f (Float32.of_Z (2 ^ 32)))) = true
  /\ Float32.truncZ (union_f (ExprUnion_f (Float32.of_Z (2 ^ 32)))) = Some (2 ^ 32)
  /\ emit_op example_rr example_helpers example_ctx_int example_env
       (Op2 CONSTANTF (ExprUnion_f (Float32.of_Z (2 ^ 32)))) ([], [])
     = Ok ([VFloat (Float32.of_Z (2 ^ 32)) true], []).
Proof. repeat split; vm_compute; reflexivity. Qed.

(** ** Frame properties that cannot be read *)

Lemma read_frame_prop_unreadable (on_error : float) m name :
  prop_unreadable m name -> read_frame_prop on_error m name = on_error.
Proof.
  intros [H | [k H]]; unfold read_frame_prop, propGetInt, propGetFloat, propGetData,
    prop_get; rewrite H; reflexivity.
Qed.

Lemma exprGetFrame_consts_lookup (src : list (gmap string VSProp))
    (propAccess : list PropAccess) :
  Forall (fun pa => 0 <= fst pa < Z.of_nat (length src)) propAccess ->
  exists consts,
    exprGetFrame_consts src propAccess = Ok consts
    /\ length consts = length propAccess
    /\ forall i pa m,
         propAccess !! i = Some pa -> src !! Z.to_nat (fst pa) = Some m ->
         consts !! i = Some (read_frame_prop Float32.nan m (snd pa)).
Proof.
  unfold exprGetFrame_consts.
  induction 1 as [|pa pas [Hlo Hhi] _ IH].
  - exists []. repeat split. intros i pa m Hi. rewrite lookup_nil in Hi. discriminate.
  - destruct IH as (consts & Heq & Hlen & Hall).
    destruct (src !! Z.to_nat (fst pa)) as [m0|] eqn:Hm0.
    2:{ apply lookup_ge_None in Hm0. lia. }
    exists (read_frame_prop Float32.nan m0 (snd pa) :: consts).
    cbn [mapM]. destruct (Z.ltb_spec (fst pa) 0); [lia|].
    rewrite Hm0. cbn [mbind result_bind]. rewrite Heq. cbn [mbind result_bind mret result_ret].
    split; [reflexivity|]. split; [cbn; congruence|].
    intros [|i] pa' m Hi Hm; cbn in Hi |- *.
    + inversion Hi; subst. rewrite Hm0 in Hm. inversion Hm; subst. reflexivity.
    + eauto.
Qed.

(** C5.  When the property named by a frame-property access is missing
    from the frame of the clip it refers to, or is of a type other than
    integer, float or data, [exprGetFrame] puts NaN in the routine's
    constant table, and the [propGet] of [selectGetFrame] and of
    [propExprGetFrame] returns [0.0]; none of the three reports an error.
    The guarded evaluation both frame-time interpreters use never lets a
    [std::runtime_error] escape either. *)
Theorem missing_property_substitution
    (src : list (gmap string VSProp)) (m : gmap string VSProp)
    (clip : Z) (name : string)
    (Hclip : 0 <= clip)
    (Hm : src !! Z.to_nat clip = Some m)
    (Hun : prop_unreadable m name) :
  (forall (propAccess : list PropAccess) (i : nat),
      Forall (fun pa => 0 <= fst pa < Z.of_nat (length src)) propAccess ->
      propAccess !! i = Some (clip, name) ->
      exists consts,
        exprGetFrame_consts src propAccess = Ok consts
        /\ consts !! i = Some Float32.nan)
  /\ selectGetFrame_propGet src clip name = Ok Float32.zero
  /\ propExprGetFrame_propGet src clip name = Ok Float32.zero
  /\ Float32.to_bits Float32.nan = 2143289344
  /\ (forall libm n width height ops what,
         frame_interpret libm n width height src ops <> Throw (runtime_error what)).
Proof.
  assert (Hget : frame_propGet src clip name = Ok Float32.zero).
  { unfold frame_propGet. destruct (Z.ltb_spec clip 0); [lia|].
    rewrite Hm. by rewrite read_frame_prop_unreadable. }
  split; [|split; [|split; [|split]]]; try exact Hget; try reflexivity.
  - intros propAccess i Hall Hi.
    destruct (exprGetFrame_consts_lookup src propAccess Hall) as (consts & Heq & _ & Hl).
    exists consts. split; [exact Heq|].
    rewrite (Hl i (clip, name) m Hi Hm). cbn [snd].
    by rewrite read_frame_prop_unreadable.
  - intros libm n width height ops what. unfold frame_interpret, catch_runtime_error.
    destruct (interpret _ _ _ _ _ _ _ _ _) as [v|[]]; discriminate.
Qed.

Lemma missing_property_substitution_witness :
  exprGetFrame_consts example_props [(0, "absent"%string); (0, "_Node"%string)]
  = Ok [Float32.nan; Float32.nan]
  /\ selectGetFrame_propGet example_props 0 "absent" = Ok Float32.zero.
Proof.
  assert (Hm : example_props !! Z.to_nat 0 = Some
                 ({[ "_Sel"%string := PInt [1]; "_Node"%string := POther 1 ]}
                    : gmap string VSProp)) by reflexivity.
  assert (Hun : prop_unreadable
                  ({[ "_Sel"%string := PInt [1]; "_Node"%string := POther 1 ]}
                     : gmap string VSProp) "absent").
  { left. vm_compute. reflexivity. }
  destruct (missing_property_substitution example_props _ 0 "absent"
              ltac:(lia) Hm Hun) as (_ & H & _).
  split; [|exact H].
  vm_compute. reflexivity.
Defined.

(** ** PropExpr at frame time *)

Lemma propExpr_write_lookup n map kv v map' :
  propExpr_write n map kv v = Ok map' ->
  exists ops,
    ops_at_frame n (snd kv) = Ok ops
    /\ map' !! fst kv = propExpr_written ops v
    /\ forall k, k <> fst kv -> map' !! k = map !! k.
Proof.
  unfold propExpr_write, propExpr_written, propDeleteKey.
  destruct (ops_at_frame n (snd kv)) as [ops|e]; cbn [mbind result_bind]; [|discriminate].
  intros H. exists ops. split; [reflexivity|].
  destruct (0 <? length ops)%nat.
  - destruct (Float32.eqb v _); inversion H; subst; clear H;
      unfold propSetInt_append, propSetFloat_append;
      rewrite lookup_delete_eq; (split; [by rewrite lookup_insert_eq|]);
      intros k Hk; by rewrite lookup_insert_ne, lookup_delete_ne.
  - inversion H; subst. split; [by rewrite lookup_delete_eq|].
    intros k Hk. by rewrite lookup_delete_ne.
Qed.

Lemma propExpr_writes_lookup n d_ops : forall vals map map',
  NoDup (d_ops.*1) ->
  propExpr_writes n map d_ops vals = Ok map' ->
  (forall k, k ∉ d_ops.*1 -> map' !! k = map !! k)
  /\ (forall i kv v,
        d_ops !! i = Some kv -> vals !! i = Some v ->
        exists ops, ops_at_frame n (snd kv) = Ok ops
                    /\ map' !! fst kv = propExpr_written ops v).
Proof.
  induction d_ops as [|kv d_ops IH]; intros vals map map' Hnd Hw.
  - cbn in Hw. inversion Hw; subst. split; [reflexivity|].
    intros i kv v Hi. rewrite lookup_nil in Hi. discriminate.
  - destruct vals as [|v vals]; [discriminate|].
    cbn [propExpr_writes] in Hw.
    destruct (propExpr_write n map kv v) as [map1|e] eqn:H1;
      cbn [mbind result_bind] in Hw; [|discriminate].
    apply propExpr_write_lookup in H1 as (ops & Hops & Hkey & Hother).
    rewrite fmap_cons in Hnd. apply NoDup_cons in Hnd as [Hnotin Hnd].
    destruct (IH vals map1 map' Hnd Hw) as [IHo IHi].
    split.
    + intros k Hk. rewrite fmap_cons in Hk. apply not_elem_of_cons in Hk as [Hk1 Hk2].
      rewrite IHo by assumption. by apply Hother.
    + intros [|i] kv' v' Hi Hv; cbn in Hi, Hv.
      * inversion Hi; inversion Hv; subst. exists ops. split; [assumption|].
        rewrite IHo by assumption. assumption.
      * eapply IHi; eassumption.
Qed.

Lemma propExpr_vals_lookup libm n width height props d_ops : forall vals,
  propExpr_vals libm n width height props d_ops = Ok vals ->
  length vals = length d_ops
  /\ forall i kv,
       d_ops !! i = Some kv ->
       exists ops v,
         ops_at_frame n (snd kv) = Ok ops
         /\ frame_interpret libm n width height props ops = Ok v
         /\ vals !! i = Some v.
Proof.
  unfold propExpr_vals.
  induction d_ops as [|kv d_ops IH]; intros vals Hv.
  - cbn in Hv. inversion Hv; subst. split; [reflexivity|].
    intros i kv Hi. rewrite lookup_nil in Hi. discriminate.
  - cbn [mapM] in Hv.
    destruct (ops_at_frame n (snd kv)) as [ops|e] eqn:Hops;
      cbn [mbind result_bind] in Hv; [|discriminate].
    destruct (frame_interpret libm n width height props ops) as [v|e] eqn:Hf;
      cbn [mbind result_bind] in Hv; [|discriminate].
    destruct (mapM _ d_ops) as [vs|e] eqn:Hvs;
      cbn [mbind result_bind mret result_ret] in Hv; [|discriminate].
    inversion Hv; subst. destruct (IH vs eq_refl) as [Hlen Hall].
    split; [cbn; congruence|].
    intros [|i] kv' Hi; cbn in Hi.
    + inversion Hi; subst. exists ops, v. auto.
    + destruct (Hall i kv' Hi) as (ops' & v' & ? & ? & ?). exists ops', v'. auto.
Qed.

Lemma propExpr_writes_total n d_ops : forall vals map,
  length vals = length d_ops ->
  (forall i kv, d_ops !! i = Some kv -> exists ops, ops_at_frame n (snd kv) = Ok ops) ->
  exists map', propExpr_writes n map d_ops vals = Ok map'.
Proof.
  induction d_ops as [|kv d_ops IH]; intros vals map Hlen Hops.
  - eexists. reflexivity.
  - destruct vals as [|v vals]; [discriminate|].
    destruct (Hops O kv eq_refl) as [ops Ho].
    cbn [propExpr_writes]. unfold propExpr_write at 1. rewrite Ho.
    cbn [mbind result_bind].
    assert (Hrest : forall m, exists map', propExpr_writes n m d_ops vals = Ok map').
    { intros m. apply IH; [cbn in Hlen; lia|].
      intros i kv' Hi. apply (Hops (S i) kv' Hi). }
    destruct (0 <? length ops)%nat; [destruct (Float32.eqb v _)|]; apply Hrest.
Qed.

Lemma ops_at_frame_index n opss ops :
  0 <= n < 2 ^ 63 ->
  ops_at_frame n opss = Ok ops ->
  opss <> [] /\ opss !! Z.to_nat (n mod Z.of_nat (length opss)) = Some ops.
Proof.
  intros Hn. unfold ops_at_frame.
  destruct opss as [|o opss]; [discriminate|].
  rewrite (Z.mod_small n (2 ^ 64)) by lia.
  destruct (_ !! _) as [ops'|] eqn:E; [|discriminate].
  intros H; inversion H; subst. split; [discriminate | reflexivity].
Qed.

Lemma decode_all_length stof extended fix_bc tokens ops :
  decode_all stof extended fix_bc tokens = Ok ops -> length ops = length tokens.
Proof.
  revert ops. induction tokens as [|tok tokens IH]; intros ops H; cbn in H.
  - inversion H. reflexivity.
  - destruct (decodeToken stof tok extended); cbn [mbind result_bind] in H; [|discriminate].
    destruct (decode_all stof extended fix_bc tokens); cbn [mbind result_bind] in H;
      [|discriminate].
    inversion H; subst. cbn. f_equal. by apply IH.
Qed.

(** A dictionary entry is stored as an empty operation list exactly when
    its expression is the empty string. *)
Lemma propExprCreate_ops_empty stof libm key numInputs width height expr ops :
  propExprCreate_ops stof libm key numInputs width height expr = Ok ops ->
  (ops = [] <-> expr = EmptyString).
Proof.
  unfold propExprCreate_ops.
  destruct expr as [|c expr].
  - cbn. intros H; inversion H. tauto.
  - cbn [str_len String.length Nat.eqb negb].
    destruct (decode_all _ _ _ _) as [ops'|e] eqn:Hd; cbn [mbind result_bind]; [|discriminate].
    destruct (interpret _ _ _ _ _ _ _ _ ops') as [v|e] eqn:Hi;
      cbn [mbind result_bind]; [|discriminate].
    intros H; inversion H; subst. split; [|discriminate].
    intros ->. cbn in Hi. discriminate.
Qed.

(** C6.  At frame [n], [propExprGetFrame] takes for every dictionary
    key the operation list at index [n mod L] of its array of length [L],
    evaluates it, deletes the property and then, unless the list is
    empty, writes the value [v]: as a one-element integer property when
    [v == (float)(int64_t)v], as a one-element float property otherwise.
    For an empty list the key is left deleted.  Keys outside the
    dictionary keep the value copied from the first input frame, and an
    operation list is empty exactly when the expression string was. *)
Theorem propExpr_frame_update
    (libm : HostMath) (n width height : Z)
    (dst : gmap string VSProp) (others : list (gmap string VSProp))
    (d_ops : list (string * list (list ExprOp))) (vals : list float)
    (Hn : 0 <= n < 2 ^ 31)
    (Hnd : NoDup (d_ops.*1))
    (Hvals : propExpr_vals libm n width height (dst :: others) d_ops = Ok vals) :
  exists map',
    propExprGetFrame libm n width height (dst :: others) d_ops = Ok map'
    /\ (forall i name opss,
          d_ops !! i = Some (name, opss) ->
          exists ops v,
            opss !! Z.to_nat (n mod Z.of_nat (length opss)) = Some ops
            /\ frame_interpret libm n width height (dst :: others) ops = Ok v
            /\ map' !! name =
                 if decide (ops = []) then None
                 else if Float32.eqb v (Float32.of_Z (Float32.to_int64 v))
                      then Some (PInt [Float32.to_int64 v])
                      else Some (PFloat [double_of_float v]))
    /\ (forall k, k ∉ d_ops.*1 -> map' !! k = dst !! k)
    /\ (forall stof key numInputs expr ops,
          propExprCreate_ops stof libm key numInputs width height expr = Ok ops ->
          (ops = [] <-> expr = EmptyString)).
Proof.
  destruct (propExpr_vals_lookup _ _ _ _ _ _ _ Hvals) as [Hlen Hev].
  destruct (propExpr_writes_total n d_ops vals dst Hlen) as [map' Hw].
  { intros i kv Hi. destruct (Hev i kv Hi) as (ops & _ & Ho & _). eauto. }
  exists map'.
  destruct (propExpr_writes_lookup n d_ops vals dst map' Hnd Hw) as [Hother Hkeys].
  split; [|split; [|split]].
  - unfold propExprGetFrame. rewrite Hvals. exact Hw.
  - intros i name opss Hi.
    destruct (Hev i _ Hi) as (ops & v & Ho & Hf & Hv).
    destruct (Hkeys i _ v Hi Hv) as (ops' & Ho' & Hm).
    cbn [fst snd] in *. rewrite Ho in Ho'. inversion Ho'; subst ops'.
    apply ops_at_frame_index in Ho as [_ Hidx]; [|lia].
    exists ops, v. split; [exact Hidx|]. split; [exact Hf|].
    rewrite Hm. unfold propExpr_written.
    destruct ops; reflexivity.
  - exact Hother.
  - intros stof key numInputs expr ops. apply propExprCreate_ops_empty.
Qed.

Lemma propExpr_frame_update_witness :
  exists map',
    propExprGetFrame example_libm 3 4 3 example_props example_d_ops = Ok map'
    /\ map' !! "K"%string = Some (PInt [6])
    /\ map' !! "_Sel"%string = Some (PInt [1]).
Proof.
  assert (Hn : 0 <= 3 < 2 ^ 31) by lia.
  assert (Hnd : NoDup (example_d_ops.*1)) by (apply NoDup_singleton).
  assert (Hvals : propExpr_vals example_libm 3 4 3
                    ({[ "_Sel"%string := PInt [1]; "_Node"%string := POther 1 ]} :: [])
                    example_d_ops = Ok [Float32.of_Z 6])
    by (vm_compute; reflexivity).
  destruct (propExpr_frame_update example_libm 3 4 3 _ [] example_d_ops _ Hn Hnd Hvals)
    as (map' & Heq & Hkeys & Hother & _).
  exists map'. split; [exact Heq|]. split.
  - destruct (Hkeys O "K"%string _ eq_refl) as (ops & v & Hops & Hv & Hm).
    vm_compute in Hops. inversion Hops; subst ops; clear Hops.
    vm_compute in Hv. inversion Hv; subst v; clear Hv.
    rewrite Hm. vm_compute. reflexivity.
  - rewrite Hother.
    + vm_compute. reflexivity.
    + intros Hin. apply list_elem_of_singleton in Hin. discriminate.
Defined.

(** ** The code generator: clip references *)

Lemma build_step_Ok_MEM_LOAD rr helpers ctx env tok op st st' :
  build_step rr helpers ctx env tok op st = Ok st' ->
  op_type op = MEM_LOAD -> union_i (op_imm op) < ctx_numInputs ctx.
Proof.
  unfold build_step, check_validity. intros H Hk. rewrite Hk in H.
  rewrite bool_decide_eq_true_2 in H by reflexivity. cbn [andb] in H.
  destruct (Z.leb_spec (ctx_numInputs ctx) (union_i (op_imm op))); [discriminate | lia].
Qed.

(** What the check at the head of the loop does achieve: in a program
    that [buildOneIter] accepts, every [MEM_LOAD] names a clip below
    [numInputs]. *)
Lemma build_loop_Ok_MEM_LOAD rr helpers ctx env ops : forall toks st st',
  build_loop rr helpers ctx env toks ops st = Ok st' ->
  Forall (fun op => op_type op = MEM_LOAD -> union_i (op_imm op) < ctx_numInputs ctx) ops.
Proof.
  induction ops as [|op ops IH]; intros toks st st' H; [constructor|].
  cbn [build_loop] in H.
  destruct (build_step rr helpers ctx env (hd ""%string toks) op st) as [st1|e] eqn:Hs;
    cbn [mbind result_bind] in H; [|discriminate].
  constructor; [|eauto].
  intros Hk. eapply build_step_Ok_MEM_LOAD; eassumption.
Qed.

(** C2 (defect).  The clip-index check of [buildOneIter] tests
    [MEM_LOAD] only.  With one input clip, ["src5"] is refused with
    "reference to undefined clip", but ["0 0 src5[]"], whose
    [MEM_LOAD_VAR] names clip 5, passes every check and goes on to index
    [ctx.vi] and [state.wptrs] past their end: no undefined-clip error is
    raised.  Whatever its clip index, the only thing the checks can hold
    against a [MEM_LOAD_VAR] is a stack of fewer than two values. *)
Theorem undefined_clip_check_misses_MEM_LOAD_VAR :
  forall (rr : Reactor) (helpers : Helper) (env : Env),
    (ctx ← Context_new no_stof "src5" fmt_u8 [fmt_u8] 1 0 0;
     compile rr helpers ctx env)
    = Throw (runtime_error "reference to undefined clip: src5")
    /\ Context_new no_stof "0 0 src5[]" fmt_u8 [fmt_u8] 1 0 0
       = Ok (mkContext "0 0 src5[]" ["0"; "0"; "src5[]"]%string
               [mkExprOp CONSTANTI 0 "" 0 0 Clamped;
                mkExprOp CONSTANTI 0 "" 0 0 Clamped;
                mkExprOp MEM_LOAD_VAR 5 "" 0 0 Clamped]
               fmt_u8 [fmt_u8] 1 0 false)
    /\ (forall (ctx : Context) (tok : string) (op : ExprOp) (size : nat),
           op_type op = MEM_LOAD_VAR ->
           check_validity ctx tok op size
           = if (size <? 2)%nat then Throw (insufficient tok) else Ok ())
    /\ (ctx ← Context_new no_stof "0 0 src5[]" fmt_u8 [fmt_u8] 1 0 0;
        compile rr helpers ctx env)
       = Throw undefined_behaviour.
Proof.
  intros rr helpers env.
  split; [|split; [|split]].
  - vm_compute. reflexivity.
  - vm_compute. reflexivity.
  - intros ctx tok op size Hk. unfold check_validity. rewrite Hk. reflexivity.
  - vm_compute. reflexivity.
Qed.

(** ** The sorting network *)

Lemma sort_t_loop_log2_up (n : Z) : forall (fuel : nat) (t : Z),
  0 <= t -> (t = 0 \/ 2 ^ (t - 1) < n) -> n <= 2 ^ (t + Z.of_nat fuel) ->
  sort_t_loop fuel n t = Z.log2_up n.
Proof.
  assert (Hdone : forall t, 0 <= t -> (t = 0 \/ 2 ^ (t - 1) < n) -> n <= 2 ^ t ->
                            t = Z.log2_up n).
  { intros t Ht Hlo Hhi. destruct (Z.eq_dec t 0) as [-> | Hnz].
    - symmetry. apply Z.log2_up_eqn0. simpl in Hhi. lia.
    - symmetry. apply Z.log2_up_unique; lia. }
  induction fuel as [|fuel IH]; intros t Ht Hlo Hhi; cbn [sort_t_loop].
  - apply Hdone; auto. by rewrite Z.add_0_r in Hhi.
  - rewrite Z.shiftl_1_l.
    destruct (Z.ltb_spec (2 ^ t) n) as [Hlt|Hge].
    + apply IH; [lia | right; by replace (t + 1 - 1) with t by lia |].
      replace (t + 1 + Z.of_nat fuel) with (t + Z.of_nat (S fuel)) by lia. exact Hhi.
    + apply Hdone; auto.
Qed.

Lemma sort_i_loop_spec (n p r d : Z) : sort_i_loop n p r d = spec_emit n p r d.
Proof.
  unfold sort_i_loop, spec_emit.
  induction (map Z.of_nat (seq 0 (Z.to_nat (n - d)))) as [|i l IH]; [reflexivity|].
  cbn [flat_map]. rewrite IH, filter_cons.
  destruct (Z.eqb_spec (Z.land i p) r) as [He|Hne].
  - rewrite decide_True by exact He. reflexivity.
  - rewrite decide_False by exact Hne. reflexivity.
Qed.

Lemma sort_d_loop_spec (n p : Z) : forall (fuel : nat) (q r d : Z) (sn : SortingNetwork),
  sort_d_loop fuel n p q r d sn = sn ++ spec_while_d fuel n p q r d.
Proof.
  induction fuel as [|fuel IH]; intros q r d sn; cbn [sort_d_loop spec_while_d].
  - by rewrite app_nil_r.
  - destruct (Z.ltb_spec 0 d) as [Hd|Hd].
    + rewrite decide_True by lia.
      rewrite IH, sort_i_loop_spec, Z.shiftr_div_pow2 by lia.
      change (2 ^ 1) with 2. by rewrite app_assoc.
    + rewrite decide_False by lia. by rewrite app_nil_r.
Qed.

Lemma pow2_succ_half (e : Z) : 0 <= e -> 2 ^ (e + 1) / 2 = 2 ^ e.
Proof.
  intros He. rewrite Z.pow_add_r by lia. change (2 ^ 1) with 2.
  apply Z.div_mul. lia.
Qed.

Lemma spec_while_d_stop (rounds : nat) (n p q r d : Z) :
  d <= 0 -> spec_while_d rounds n p q r d = [].
Proof.
  intros Hd. destruct rounds; [reflexivity|]. cbn [spec_while_d].
  by rewrite decide_False by lia.
Qed.

(** With [p = 2^j] and [q = 2^(j+k)] the inner loop stops by its own
    condition after at most [k + 1] rounds. *)
Lemma spec_while_d_rounds (n j : Z) : forall (k f1 f2 : nat) (r d : Z),
  0 <= j -> (k + 1 <= f1)%nat -> (k + 1 <= f2)%nat ->
  spec_while_d f1 n (2 ^ j) (2 ^ (j + Z.of_nat k)) r d
  = spec_while_d f2 n (2 ^ j) (2 ^ (j + Z.of_nat k)) r d.
Proof.
  induction k as [|k IH]; intros f1 f2 r d Hj H1 H2;
    (destruct f1 as [|f1]; [lia|]); (destruct f2 as [|f2]; [lia|]);
    cbn [spec_while_d]; destruct (decide (d > 0)); try reflexivity; f_equal.
  - rewrite Z.add_0_r, Z.sub_diag. by rewrite !spec_while_d_stop by lia.
  - replace (j + Z.of_nat (S k)) with (j + Z.of_nat k + 1) by lia.
    rewrite pow2_succ_half by lia. apply IH; lia.
Qed.

Lemma spec_while_p_stop (rounds : nat) (n t p : Z) :
  p <= 0 -> spec_while_p rounds n t p = [].
Proof.
  intros Hp. destruct rounds; [reflexivity|]. cbn [spec_while_p].
  by rewrite decide_False by lia.
Qed.

Lemma pow2_half (j : nat) : 2 ^ Z.of_nat (S j) / 2 = 2 ^ Z.of_nat j.
Proof.
  replace (Z.of_nat (S j)) with (Z.of_nat j + 1) by lia.
  apply pow2_succ_half. lia.
Qed.

Lemma pow2_pos (j : nat) : 0 < 2 ^ Z.of_nat j.
Proof. apply Z.pow_pos_nonneg; lia. Qed.

Lemma sort_p_loop_step (n t : Z) (j fuel : nat) (sn : SortingNetwork) :
  Z.of_nat j < t -> t <= 32 ->
  sort_p_loop (S fuel) n t (2 ^ Z.of_nat j) sn
  = sort_p_loop fuel n t (2 ^ Z.of_nat j / 2)
      (sn ++ spec_while_d (Z.to_nat t) n (2 ^ Z.of_nat j) (2 ^ (t - 1)) 0 (2 ^ Z.of_nat j)).
Proof.
  intros Hj Ht. cbn [sort_p_loop].
  pose proof (pow2_pos j) as Hp.
  destruct (Z.ltb_spec 0 (2 ^ Z.of_nat j)) as [_|?]; [|lia].
  rewrite sort_d_loop_spec, Z.shiftl_1_l, Z.shiftr_div_pow2 by lia.
  change (2 ^ 1) with 2. do 2 f_equal.
  replace (t - 1) with (Z.of_nat j + Z.of_nat (Z.to_nat (t - 1 - Z.of_nat j))) by lia.
  apply spec_while_d_rounds; lia.
Qed.

Lemma spec_while_p_step (n t : Z) (j rounds : nat) :
  spec_while_p (S rounds) n t (2 ^ Z.of_nat j)
  = spec_while_d (Z.to_nat t) n (2 ^ Z.of_nat j) (2 ^ (t - 1)) 0 (2 ^ Z.of_nat j)
      ++ spec_while_p rounds n t (2 ^ Z.of_nat j / 2).
Proof.
  cbn [spec_while_p]. pose proof (pow2_pos j). by rewrite decide_True by lia.
Qed.

Lemma sort_p_loop_stop (fuel : nat) (n t p : Z) (sn : SortingNetwork) :
  p <= 0 -> sort_p_loop fuel n t p sn = sn.
Proof.
  intros Hp. destruct fuel; [reflexivity|]. cbn [sort_p_loop].
  destruct (Z.ltb_spec 0 p); [lia | reflexivity].
Qed.

(** The outer loop of the source, started at [p = 2^j] with [j < t <= 32],
    is the outer loop of the specification: the bound of 32 rounds is
    never what stops either loop. *)
Lemma sort_p_loop_spec (n t : Z) : forall (j fuel : nat) (sn : SortingNetwork),
  Z.of_nat j < t -> t <= 32 -> (j + 1 <= fuel)%nat ->
  sort_p_loop fuel n t (2 ^ Z.of_nat j) sn
  = sn ++ spec_while_p (j + 1) n t (2 ^ Z.of_nat j).
Proof.
  induction j as [|j IH]; intros fuel sn Hj Ht Hf;
    (destruct fuel as [|fuel]; [lia|]);
    rewrite sort_p_loop_step by assumption.
  - change (0 + 1)%nat with 1%nat. rewrite spec_while_p_step.
    change (2 ^ Z.of_nat 0 / 2) with 0.
    rewrite sort_p_loop_stop, spec_while_p_stop by lia.
    by rewrite app_nil_r.
  - replace (S j + 1)%nat with (S (j + 1)) by lia. rewrite spec_while_p_step.
    rewrite pow2_half, IH by lia.
    by rewrite <- app_assoc.
Qed.

(** The source and the specification generate the same network. *)
Lemma buildSortNet_spec (n : Z) :
  0 <= n <= 2 ^ 30 -> buildSortNet n = spec_sort_schedule n.
Proof.
  intros Hn. unfold buildSortNet, spec_sort_schedule.
  rewrite (sort_t_loop_log2_up n 32 0) by (cbn; lia).
  pose proof (Z.log2_up_nonneg n) as Ht0.
  assert (Ht : Z.log2_up n <= 30).
  { destruct (Z.le_gt_cases n 1) as [H1|H1].
    - rewrite Z.log2_up_eqn0 by lia. lia.
    - change 30 with (Z.log2_up (2 ^ 30)). apply Z.log2_up_le_mono. lia. }
  destruct (Z.eq_dec (Z.log2_up n) 0) as [E|E].
  - rewrite E. reflexivity.
  - rewrite Z.shiftl_1_l.
    replace (Z.log2_up n - 1) with (Z.of_nat (Z.to_nat (Z.log2_up n - 1))) by lia.
    rewrite sort_p_loop_spec by lia. cbn [app].
    f_equal. lia.
Qed.

Lemma sort_i_loop_in_range (n p r d : Z) :
  0 < d -> Forall (cmp_in_range n) (sort_i_loop n p r d).
Proof.
  intros Hd. unfold sort_i_loop. apply Forall_forall. intros [a b] Hin.
  apply list_elem_of_In, in_flat_map in Hin as (i & Hi & Hab).
  apply in_map_iff in Hi as (k & <- & Hk). apply in_seq in Hk.
  destruct (Z.land (Z.of_nat k) p =? r); [|destruct Hab].
  destruct Hab as [Hab|[]]. inversion Hab; subst.
  unfold cmp_in_range. cbn [fst snd]. lia.
Qed.

Lemma sort_d_loop_in_range (n p : Z) : forall (fuel : nat) (q r d : Z) sn,
  Forall (cmp_in_range n) sn -> Forall (cmp_in_range n) (sort_d_loop fuel n p q r d sn).
Proof.
  induction fuel as [|fuel IH]; intros q r d sn Hsn; cbn [sort_d_loop]; [exact Hsn|].
  destruct (Z.ltb_spec 0 d); [|exact Hsn].
  apply IH, Forall_app. split; [exact Hsn | by apply sort_i_loop_in_range].
Qed.

Lemma sort_p_loop_in_range (n t : Z) : forall (fuel : nat) (p : Z) sn,
  Forall (cmp_in_range n) sn -> Forall (cmp_in_range n) (sort_p_loop fuel n t p sn).
Proof.
  induction fuel as [|fuel IH]; intros p sn Hsn; cbn [sort_p_loop]; [exact Hsn|].
  destruct (Z.ltb_spec 0 p); [|exact Hsn].
  by apply IH, sort_d_loop_in_range.
Qed.

Lemma buildSortNet_in_range (n : Z) : Forall (cmp_in_range n) (buildSortNet n).
Proof. unfold buildSortNet. apply sort_p_loop_in_range. constructor. Qed.

(** *** Lowering of one comparator *)

Lemma stack_top_index_lt {A : Type} (stack : list A) (i : Z) :
  0 <= i < Z.of_nat (length stack) -> (stack_top_index stack i < length stack)%nat.
Proof. unfold stack_top_index. lia. Qed.

Lemma stack_top_index_inj {A : Type} (stack : list A) (i k : Z) :
  0 <= i < Z.of_nat (length stack) -> 0 <= k < Z.of_nat (length stack) ->
  stack_top_index stack i = stack_top_index stack k -> i = k.
Proof. unfold stack_top_index. lia. Qed.

Lemma stack_at_Ok (stack : list Value) (i : Z) (v : Value) :
  stack_at stack i = Ok v <->
  0 <= i < Z.of_nat (length stack) /\ stack !! stack_top_index stack i = Some v.
Proof.
  unfold stack_at.
  destruct (Z.leb_spec 0 i), (Z.ltb_spec i (Z.of_nat (length stack))); cbn [andb];
    try (split; [discriminate | lia]).
  destruct (stack !! stack_top_index stack i) as [w|] eqn:E.
  - split; [intros H'; inversion H'; subst; auto | intros [_ H']; congruence].
  - split; [discriminate | intros [_ H']; discriminate].
Qed.

Lemma stack_at_insert_eq (stack : list Value) (i k : Z) (v : Value) :
  0 <= i < Z.of_nat (length stack) ->
  stack_at (<[stack_top_index stack k := v]> stack) i
  = if decide (stack_top_index stack i = stack_top_index stack k)
    then Ok v else stack_at stack i.
Proof.
  intros Hi. unfold stack_at. rewrite length_insert.
  destruct (Z.leb_spec 0 i), (Z.ltb_spec i (Z.of_nat (length stack))); try lia.
  cbn [andb].
  assert (Hidx : stack_top_index (<[stack_top_index stack k := v]> stack) i
                 = stack_top_index stack i).
  { unfold stack_top_index. by rewrite length_insert. }
  rewrite Hidx. destruct (decide _) as [E|E].
  - rewrite E, list_lookup_insert_eq; [reflexivity|].
    rewrite <- E. by apply stack_top_index_lt.
  - by rewrite list_lookup_insert_ne by congruence.
Qed.

(** A comparator [(a, b)] reads slots [a] and [b] (counted from the top),
    and writes [Min] to slot [a] and [Max] to slot [b]; every other slot
    keeps its value. *)
Lemma sort_cmp_lowering rr (stack : list Value) (a b : Z) (va vb mn mx : Value) :
  0 <= a < b -> b < Z.of_nat (length stack) ->
  stack_at stack a = Ok va -> stack_at stack b = Ok vb ->
  Value_Min rr va vb = Ok mn -> Value_Max rr va vb = Ok mx ->
  exists stack',
    sort_cmp rr stack (a, b) = Ok stack'
    /\ length stack' = length stack
    /\ stack_at stack' a = Ok mn
    /\ stack_at stack' b = Ok mx
    /\ forall k, k <> a -> k <> b -> stack_at stack' k = stack_at stack k.
Proof.
  intros Hab Hb Ha Hvb Hmn Hmx.
  unfold sort_cmp. cbn [fst snd]. rewrite Ha, Hvb. cbn [mbind result_bind].
  rewrite Hmn, Hmx. cbn [mbind result_bind].
  eexists. split; [reflexivity|].
  set (s1 := <[stack_top_index stack a := mn]> stack).
  assert (Hl1 : length s1 = length stack) by apply length_insert.
  assert (Hidx : forall k, stack_top_index s1 k = stack_top_index stack k).
  { intros k. unfold stack_top_index. by rewrite Hl1. }
  replace (<[stack_top_index stack b := mx]> s1)
    with (<[stack_top_index s1 b := mx]> s1) by (by rewrite Hidx).
  split; [by rewrite length_insert|].
  split; [|split].
  - rewrite stack_at_insert_eq by lia. rewrite !Hidx.
    destruct (decide _) as [E|_].
    { apply stack_top_index_inj in E; lia. }
    unfold s1. rewrite stack_at_insert_eq by lia.
    by rewrite decide_True.
  - rewrite stack_at_insert_eq by lia. by rewrite decide_True.
  - intros k Hka Hkb.
    destruct (decide (0 <= k < Z.of_nat (length stack))) as [Hk|Hk].
    + rewrite stack_at_insert_eq by lia. rewrite !Hidx.
      destruct (decide _) as [E|_].
      { apply stack_top_index_inj in E; lia. }
      unfold s1. rewrite stack_at_insert_eq by lia.
      destruct (decide _) as [E|_]; [|reflexivity].
      apply stack_top_index_inj in E; lia.
    + unfold stack_at. rewrite length_insert, Hl1.
      destruct (Z.leb_spec 0 k), (Z.ltb_spec k (Z.of_nat (length stack)));
        try lia; reflexivity.
Qed.

(** Operands of the same kind always have a [Min] and a [Max]. *)
Lemma Value_Min_Max_same_kind rr (va vb : Value) :
  isFloat va = isFloat vb ->
  exists mn mx,
    Value_Min rr va vb = Ok mn /\ Value_Max rr va vb = Ok mx
    /\ isFloat mn = isFloat va /\ isFloat mx = isFloat va
    /\ (forall x cx y cy, va = VInt x cx -> vb = VInt y cy ->
          mn = VInt (Z.min x y) false /\ mx = VInt (Z.max x y) false)
    /\ (forall x cx y cy, va = VFloat x cx -> vb = VFloat y cy ->
          mn = VFloat (rr_FMin rr x y) false /\ mx = VFloat (rr_FMax rr x y) false).
Proof.
  destruct va as [x cx|x cx], vb as [y cy|y cy]; cbn; try discriminate; intros _;
    eexists _, _; (split; [reflexivity|]); (split; [reflexivity|]);
    (split; [reflexivity|]); (split; [reflexivity|]);
    split; intros ? ? ? ? H1 H2; inversion H1; inversion H2; subst; split; reflexivity.
Qed.

Lemma stack_at_top (stack : list Value) (v : Value) : stack_at (stack ++ [v]) 0 = Ok v.
Proof.
  apply stack_at_Ok. rewrite length_app. cbn [length]. split; [lia|].
  unfold stack_top_index. rewrite length_app. cbn [length].
  replace (length stack + 1 - 1 - Z.to_nat 0)%nat with (length stack) by lia.
  by rewrite lookup_app_r, Nat.sub_diag by lia.
Qed.

(** The loop over the network, comparator after comparator. *)
Lemma sort_apply_foldl rr (sn : SortingNetwork) (stack : list Value) :
  sort_apply rr sn stack
  = foldl (fun r cmp => s ← r; sort_cmp rr s cmp) (Ok stack) sn.
Proof.
  revert stack. induction sn as [|cmp sn IH]; intros stack; [reflexivity|].
  cbn [sort_apply foldl mbind result_bind].
  destruct (sort_cmp rr stack cmp) as [s1|e]; cbn [mbind result_bind]; [apply IH|].
  clear IH. induction sn as [|c sn IH]; [reflexivity|exact IH].
Qed.

(** C4.  For a count [n] in the range where the source's [int]
    arithmetic is exact, [buildSortNet n] is, pair for pair and in the
    same order, the network the specification's schedule produces
    ([t = ceil(log2 n)], then the p/q/r/d loops).  Every comparator is a
    pair [(a, b)] with [0 <= a < b < n], and the [SORT] case lowers it
    by reading slots [a] and [b], counted from the top of the stack (slot
    0 is the top), and writing [Min] of the two to slot [a] and [Max] to
    slot [b], leaving all other slots alone.  For two integer values
    these are the integer minimum and maximum, for two float values the
    back end's float minimum and maximum.  The [SORT] case itself runs
    through the network of its count from the first comparator to the
    last, each one applied to the stack the one before it left, and
    stops at the first comparator that fails. *)
Theorem sort_network_schedule_and_lowering (n : Z) (Hn : 0 <= n <= 2 ^ 30) :
  buildSortNet n = spec_sort_schedule n
  /\ Forall (fun cmp => 0 <= fst cmp < snd cmp /\ snd cmp < n) (buildSortNet n)
  /\ (forall (stack : list Value) (v : Value), stack_at (stack ++ [v]) 0 = Ok v)
  /\ (forall (rr : Reactor) (stack : list Value) (a b : Z) (va vb mn mx : Value),
         (a, b) ∈ buildSortNet n -> n <= Z.of_nat (length stack) ->
         stack_at stack a = Ok va -> stack_at stack b = Ok vb ->
         Value_Min rr va vb = Ok mn -> Value_Max rr va vb = Ok mx ->
         exists stack',
           sort_cmp rr stack (a, b) = Ok stack'
           /\ length stack' = length stack
           /\ stack_at stack' a = Ok mn
           /\ stack_at stack' b = Ok mx
           /\ forall k, k <> a -> k <> b -> stack_at stack' k = stack_at stack k)
  /\ (forall (rr : Reactor) (x y : Z) (cx cy : bool),
         Value_Min rr (VInt x cx) (VInt y cy) = Ok (VInt (Z.min x y) false)
         /\ Value_Max rr (VInt x cx) (VInt y cy) = Ok (VInt (Z.max x y) false))
  /\ (forall (rr : Reactor) (x y : float) (cx cy : bool),
         Value_Min rr (VFloat x cx) (VFloat y cy) = Ok (VFloat (rr_FMin rr x y) false)
         /\ Value_Max rr (VFloat x cx) (VFloat y cy) = Ok (VFloat (rr_FMax rr x y) false))
  /\ (forall (rr : Reactor) (helpers : Helper) (ctx : Context) (env : Env)
             (op : ExprOp) (stack variables : list Value),
         op_type op = SORT -> union_i (op_imm op) = n ->
         emit_op rr helpers ctx env op (stack, variables)
         = (stack' ← foldl (fun r cmp => s ← r; sort_cmp rr s cmp) (Ok stack)
                           (spec_sort_schedule n);
            Ok (stack', variables))).
Proof.
  split; [by apply buildSortNet_spec|].
  split; [exact (buildSortNet_in_range n)|].
  split; [exact stack_at_top|].
  split; [|split; [|split]; try (intros; split; reflexivity)].
  - intros rr stack a b va vb mn mx Hin Hlen Ha Hb Hmn Hmx.
    pose proof (buildSortNet_in_range n) as Hall.
    rewrite Forall_forall in Hall. specialize (Hall _ Hin).
    unfold cmp_in_range in Hall. cbn [fst snd] in Hall.
    eapply sort_cmp_lowering; eauto; lia.
  - intros rr helpers ctx env op stack variables Ht Hi.
    unfold emit_op. rewrite Ht, Hi, sort_apply_foldl, (buildSortNet_spec n Hn).
    reflexivity.
Qed.

Lemma sort_network_schedule_and_lowering_witness :
  buildSortNet 8 = spec_sort_schedule 8
  /\ buildSortNet 8 =
       [(0, 4); (1, 5); (2, 6); (3, 7); (0, 2); (1, 3); (4, 6); (5, 7); (2, 4); (3, 5);
        (0, 1); (2, 3); (4, 5); (6, 7); (1, 4); (3, 6); (1, 2); (3, 4); (5, 6)].
Proof.
  split.
  - apply (sort_network_schedule_and_lowering 8). lia.
  - vm_compute. reflexivity.
Defined.

(** ** Sort *)

(** *** The sorting network on integer values *)

Lemma stack_top_index_app {A : Type} (below top : list A) (i : Z) :
  0 <= i < Z.of_nat (length top) ->
  stack_top_index (below ++ top) i = (length below + stack_top_index top i)%nat.
Proof. unfold stack_top_index. rewrite length_app. lia. Qed.

Lemma stack_at_app (below top : list Value) (i : Z) :
  0 <= i < Z.of_nat (length top) ->
  stack_at (below ++ top) i = stack_at top i.
Proof.
  intros Hi. unfold stack_at.
  rewrite stack_top_index_app by assumption.
  rewrite lookup_app_r by lia.
  replace (length below + stack_top_index top i - length below)%nat
    with (stack_top_index top i) by lia.
  rewrite length_app.
  destruct (Z.leb_spec 0 i), (Z.ltb_spec i (Z.of_nat (length top))),
           (Z.ltb_spec i (Z.of_nat (length below + length top))); try lia.
  reflexivity.
Qed.

Lemma sort_cmp_app rr (below top : list Value) (cmp : Z * Z) :
  cmp_in_range (Z.of_nat (length top)) cmp ->
  sort_cmp rr (below ++ top) cmp
  = (top' ← sort_cmp rr top cmp; Ok (below ++ top')).
Proof.
  intros [Ha Hb]. unfold sort_cmp.
  rewrite !stack_at_app by lia.
  destruct (stack_at top (fst cmp)) as [va|e]; [|reflexivity].
  destruct (stack_at top (snd cmp)) as [vb|e]; [|reflexivity].
  cbn [mbind result_bind].
  destruct (Value_Min rr va vb) as [mn|e]; [|reflexivity].
  destruct (Value_Max rr va vb) as [mx|e]; [|reflexivity].
  cbn [mbind result_bind].
  rewrite !stack_top_index_app by lia.
  rewrite (insert_app_r_alt below top) by lia.
  rewrite (insert_app_r_alt below) by lia.
  repeat f_equal; lia.
Qed.

Lemma sort_cmp_ints rr (top : list Value) (cmp : Z * Z) :
  Forall (fun v => isFloat v = false) top ->
  cmp_in_range (Z.of_nat (length top)) cmp ->
  exists top',
    sort_cmp rr top cmp = Ok top'
    /\ Forall (fun v => isFloat v = false) top'
    /\ length top' = length top
    /\ int_val <$> top' = cmp_ints (int_val <$> top) cmp.
Proof.
  intros Hint [Ha Hb].
  destruct (lookup_lt_is_Some_2 top (stack_top_index top (fst cmp))) as [va Hva];
    [apply stack_top_index_lt; lia|].
  destruct (lookup_lt_is_Some_2 top (stack_top_index top (snd cmp))) as [vb Hvb];
    [apply stack_top_index_lt; lia|].
  assert (Hfa : isFloat va = false)
    by (eapply (proj1 (Forall_lookup _ _) Hint); exact Hva).
  assert (Hfb : isFloat vb = false)
    by (eapply (proj1 (Forall_lookup _ _) Hint); exact Hvb).
  destruct va as [x cx|? ?]; [|discriminate].
  destruct vb as [y cy|? ?]; [|discriminate].
  unfold sort_cmp.
  rewrite (proj2 (stack_at_Ok top (fst cmp) (VInt x cx))) by (split; [lia | exact Hva]).
  rewrite (proj2 (stack_at_Ok top (snd cmp) (VInt y cy))) by (split; [lia | exact Hvb]).
  cbn. eexists. split; [reflexivity|].
  split; [|split].
  - apply Forall_insert; [apply Forall_insert|]; auto.
  - rewrite !length_insert. reflexivity.
  - unfold cmp_ints, stack_top_index in *. rewrite !list_fmap_insert.
    rewrite !length_fmap, !list_lookup_fmap, Hva, Hvb. reflexivity.
Qed.

Lemma sort_apply_ints rr (sn : SortingNetwork) : forall below top : list Value,
  Forall (fun v => isFloat v = false) top ->
  Forall (cmp_in_range (Z.of_nat (length top))) sn ->
  exists top',
    sort_apply rr sn (below ++ top) = Ok (below ++ top')
    /\ Forall (fun v => isFloat v = false) top'
    /\ length top' = length top
    /\ int_val <$> top' = net_ints sn (int_val <$> top).
Proof.
  induction sn as [|cmp sn IH]; intros below top Hint Hsn.
  - exists top. repeat split; auto.
  - inversion Hsn as [|? ? Hc Hr]; subst.
    destruct (sort_cmp_ints rr top cmp Hint Hc) as (top1 & E1 & Hint1 & Hlen1 & Hv1).
    destruct (IH below top1 Hint1) as (top' & E & Hint' & Hlen' & Hv');
      [rewrite Hlen1; exact Hr|].
    exists top'. cbn [sort_apply].
    rewrite sort_cmp_app, E1 by exact Hc. cbn [mbind result_bind].
    repeat split; [exact E | exact Hint' | congruence |].
    rewrite Hv'. unfold net_ints. cbn [foldl]. rewrite Hv1. reflexivity.
Qed.

Lemma cmp_ints_length (s : list Z) (cmp : Z * Z) : length (cmp_ints s cmp) = length s.
Proof. unfold cmp_ints. rewrite !length_insert. reflexivity. Qed.

Lemma net_ints_length (sn : SortingNetwork) : forall s, length (net_ints sn s) = length s.
Proof.
  induction sn as [|cmp sn IH]; intros s; [reflexivity|].
  unfold net_ints in *. cbn [foldl]. rewrite IH. apply cmp_ints_length.
Qed.

(** A comparator leaves the two values in place or exchanges them. *)
Lemma cmp_ints_Permutation (s : list Z) (cmp : Z * Z) :
  cmp_in_range (Z.of_nat (length s)) cmp -> cmp_ints s cmp ≡ₚ s.
Proof.
  intros [Ha Hb]. unfold cmp_ints.
  destruct (lookup_lt_is_Some_2 s (stack_top_index s (fst cmp))) as [x Hx];
    [apply stack_top_index_lt; lia|].
  destruct (lookup_lt_is_Some_2 s (stack_top_index s (snd cmp))) as [y Hy];
    [apply stack_top_index_lt; lia|].
  rewrite Hx, Hy. cbn [default from_option id].
  destruct (Z.le_ge_cases x y).
  - rewrite Z.min_l, Z.max_r by lia.
    rewrite (list_insert_id s _ x) by exact Hx.
    rewrite (list_insert_id s _ y) by exact Hy. reflexivity.
  - rewrite Z.min_r, Z.max_l by lia.
    apply Permutation_insert_swap; assumption.
Qed.

Lemma net_ints_Permutation (sn : SortingNetwork) : forall s,
  Forall (cmp_in_range (Z.of_nat (length s))) sn -> net_ints sn s ≡ₚ s.
Proof.
  induction sn as [|cmp sn IH]; intros s Hsn; [reflexivity|].
  inversion Hsn as [|? ? Hc Hr]; subst.
  unfold net_ints in *. cbn [foldl].
  rewrite IH by (rewrite cmp_ints_length; exact Hr).
  apply cmp_ints_Permutation, Hc.
Qed.

(** Comparators commute with every map that keeps the order. *)
Lemma cmp_ints_monotone (f : Z -> Z) (s : list Z) (cmp : Z * Z) :
  (forall x y, x <= y -> f x <= f y) ->
  cmp_in_range (Z.of_nat (length s)) cmp ->
  cmp_ints (f <$> s) cmp = f <$> cmp_ints s cmp.
Proof.
  intros Hf [Ha Hb]. unfold cmp_ints, stack_top_index.
  destruct (lookup_lt_is_Some_2 s (stack_top_index s (fst cmp))) as [x Hx];
    [apply stack_top_index_lt; lia|].
  destruct (lookup_lt_is_Some_2 s (stack_top_index s (snd cmp))) as [y Hy];
    [apply stack_top_index_lt; lia|].
  unfold stack_top_index in Hx, Hy.
  rewrite !list_fmap_insert, !length_fmap, !list_lookup_fmap, Hx, Hy.
  cbn [fmap option_fmap option_map default from_option id].
  destruct (Z.le_ge_cases x y) as [Hxy|Hxy].
  - pose proof (Hf x y Hxy). rewrite !Z.min_l, !Z.max_r by lia. reflexivity.
  - pose proof (Hf y x Hxy). rewrite !Z.min_r, !Z.max_l by lia. reflexivity.
Qed.

Lemma net_ints_monotone (f : Z -> Z) (sn : SortingNetwork) : forall s,
  (forall x y, x <= y -> f x <= f y) ->
  Forall (cmp_in_range (Z.of_nat (length s))) sn ->
  net_ints sn (f <$> s) = f <$> net_ints sn s.
Proof.
  induction sn as [|cmp sn IH]; intros s Hf Hsn; [reflexivity|].
  inversion Hsn as [|? ? Hc Hr]; subst.
  unfold net_ints in *. cbn [foldl].
  rewrite cmp_ints_monotone by assumption.
  apply IH; [exact Hf | rewrite cmp_ints_length; exact Hr].
Qed.

Lemma threshold_monotone (t x y : Z) : x <= y -> threshold t x <= threshold t y.
Proof.
  unfold threshold. intros H.
  destruct (Z.leb_spec t x), (Z.leb_spec t y); lia.
Qed.

Lemma threshold_zero_one (t : Z) (s : list Z) :
  In (threshold t <$> s) (zero_one_stacks (length s)).
Proof.
  induction s as [|x s IH]; cbn; [left; reflexivity|].
  apply in_flat_map. exists (threshold t <$> s). split; [exact IH|].
  unfold threshold at 1. destruct (t <=? x); cbn; auto.
Qed.

(** A stack that is out of order is sent to a stack of zeros and ones
    that is out of order by one of the thresholds. *)
Lemma descending_threshold (l : list Z) :
  descending l = false -> exists t, descending (threshold t <$> l) = false.
Proof.
  induction l as [|x [|y r] IH]; cbn [descending]; try discriminate.
  intros H. apply andb_false_iff in H as [H|H].
  - exists y. cbn. unfold threshold.
    apply Z.leb_gt in H.
    destruct (Z.leb_spec y x); [lia|]. rewrite Z.leb_refl. reflexivity.
  - destruct (IH H) as [t Ht]. exists t.
    change (threshold t <$> x :: y :: r)
      with (threshold t x :: (threshold t <$> y :: r)).
    cbn [descending fmap list_fmap] in *. rewrite Ht. apply andb_false_r.
Qed.

(** The zero-one principle for the networks of [buildSortNet]. *)
Lemma net_ints_descending (n : nat) (s : list Z) :
  sorts_zero_one_stacks n = true -> length s = n ->
  descending (net_ints (buildSortNet (Z.of_nat n)) s) = true.
Proof.
  intros Hcheck Hlen.
  destruct (descending (net_ints (buildSortNet (Z.of_nat n)) s)) eqn:E; [reflexivity|].
  apply descending_threshold in E as [t Ht].
  rewrite <- net_ints_monotone in Ht;
    [| apply threshold_monotone | rewrite Hlen; apply buildSortNet_in_range].
  unfold sorts_zero_one_stacks in Hcheck.
  rewrite forallb_forall in Hcheck.
  rewrite Hcheck in Ht; [discriminate|].
  rewrite <- Hlen. apply threshold_zero_one.
Qed.

Lemma checked_heights_sorted :
  forallb sorts_zero_one_stacks checked_heights = true.
Proof. vm_compute. reflexivity. Qed.

(** X16.  The lowering of [SORT n] on a compile-time stack whose top [n]
    values are integers, for every [n] up to 12: the values below stay,
    the top [n] become integer values that are a rearrangement of the
    old ones, and none is followed by a greater one, so the greatest is
    at the deepest slot and the least on top. *)
Lemma sort_lowering_sorts_ints rr (n : nat) (below top : list Value) :
  (n <= 12)%nat -> length top = n ->
  Forall (fun v => isFloat v = false) top ->
  exists top',
    sort_apply rr (buildSortNet (Z.of_nat n)) (below ++ top) = Ok (below ++ top')
    /\ Forall (fun v => isFloat v = false) top'
    /\ int_val <$> top' ≡ₚ int_val <$> top
    /\ descending (int_val <$> top') = true.
Proof.
  intros Hn Hlen Hint.
  destruct (sort_apply_ints rr (buildSortNet (Z.of_nat n)) below top Hint)
    as (top' & E & Hint' & Hlen' & Hv).
  { rewrite Hlen. apply buildSortNet_in_range. }
  exists top'. split; [exact E|]. split; [exact Hint'|].
  rewrite Hv. split.
  - apply net_ints_Permutation. rewrite length_fmap, Hlen.
    apply buildSortNet_in_range.
  - apply net_ints_descending; [|rewrite length_fmap; exact Hlen].
    pose proof checked_heights_sorted as Hall.
    rewrite forallb_forall in Hall. apply Hall.
    unfold checked_heights. apply in_seq. lia.
Qed.

(** *** The interpreter's [std::sort] *)




(** *** [std::sort] and [std::stable_sort] rearrange *)

Section StdAlgoPerm.

Context {A : Type}.
Variable comp : A -> A -> bool.

Lemma linear_insert_rev_Permutation (val : A) (rpre : list A) :
  Permutation (val :: rpre) (linear_insert_rev comp val rpre).
Proof.
  induction rpre as [|next rpre IH]; cbn [linear_insert_rev]; [reflexivity|].
  destruct (comp val next); [|reflexivity].
  rewrite perm_swap. apply perm_skip, IH.
Qed.

Lemma unguarded_linear_insert_Permutation (pre : list A) (val : A) :
  Permutation (val :: pre) (unguarded_linear_insert comp pre val).
Proof.
  unfold unguarded_linear_insert.
  rewrite <- Permutation_rev, <- linear_insert_rev_Permutation.
  apply perm_skip, Permutation_rev.
Qed.

Lemma insertion_step_Permutation (pre : list A) (val : A) :
  Permutation (val :: pre) (insertion_step comp pre val).
Proof.
  unfold insertion_step. destruct pre as [|first pre']; [reflexivity|].
  destruct (comp val first); [reflexivity|].
  apply unguarded_linear_insert_Permutation.
Qed.

Lemma foldl_Permutation (step : list A -> A -> list A) :
  (forall pre val, Permutation (val :: pre) (step pre val)) ->
  forall l acc, Permutation (acc ++ l) (foldl step acc l).
Proof.
  intros Hstep. induction l as [|x l IH]; intros acc; cbn [foldl].
  - rewrite app_nil_r. reflexivity.
  - rewrite <- IH, <- Hstep.
    change (acc ++ x :: l) with (acc ++ [x] ++ l).
    rewrite app_assoc. apply Permutation_app_tail.
    rewrite Permutation_app_comm. reflexivity.
Qed.

Lemma insertion_sort_Permutation (l : list A) :
  Permutation l (insertion_sort comp l).
Proof. apply (foldl_Permutation _ (insertion_step_Permutation) l []). Qed.

Lemma final_insertion_sort_Permutation (l : list A) :
  Permutation l (final_insertion_sort comp l).
Proof.
  unfold final_insertion_sort. destruct (S_threshold <? length l)%nat.
  - rewrite <- (foldl_Permutation _ (unguarded_linear_insert_Permutation)).
    rewrite <- insertion_sort_Permutation, take_drop. reflexivity.
  - apply insertion_sort_Permutation.
Qed.

(** Filling a place with the value of another and the other with a
    new value moves the new value between the two places. *)
Lemma insert_head_Permutation (l : list A) :
  forall (j : nat) (b x : A),
    l !! j = Some b -> Permutation (x :: l) (b :: <[j := x]> l).
Proof.
  induction l as [|y l IH]; intros [|j] b x Hj; try discriminate; cbn in Hj |- *.
  - inversion Hj; subst. apply perm_swap.
  - rewrite (perm_swap y x), (perm_swap y b). apply perm_skip, IH, Hj.
Qed.

Lemma iter_swap_places_Permutation (l : list A) :
  forall (i j : nat) (a b : A),
    l !! i = Some a -> l !! j = Some b ->
    Permutation l (<[j := a]> (<[i := b]> l)).
Proof.
  induction l as [|y l IH]; intros [|i] [|j] a b Hi Hj; try discriminate;
    cbn in Hi, Hj |- *.
  - inversion Hi; inversion Hj; subst. reflexivity.
  - inversion Hi; subst. apply insert_head_Permutation, Hj.
  - inversion Hj; subst. apply insert_head_Permutation, Hi.
  - apply perm_skip, IH; assumption.
Qed.

Lemma iter_swap_Permutation (i j : nat) (l : list A) :
  Permutation l (iter_swap i j l).
Proof.
  unfold iter_swap.
  destruct (l !! i) as [a|] eqn:Hi; [|reflexivity].
  destruct (l !! j) as [b|] eqn:Hj; [|reflexivity].
  apply iter_swap_places_Permutation; assumption.
Qed.

Lemma move_median_to_first_Permutation (result a b c : nat) (l : list A) :
  Permutation l (move_median_to_first comp result a b c l).
Proof.
  unfold move_median_to_first.
  repeat match goal with |- context [if ?x then _ else _] => destruct x end;
    apply iter_swap_Permutation.
Qed.

Lemma unguarded_partition_Permutation (fuel : nat) :
  forall (l : list A) (first last : nat),
    Permutation l (unguarded_partition comp fuel l first last).2.
Proof.
  induction fuel as [|fuel IH]; intros l first last; cbn [unguarded_partition].
  - reflexivity.
  - destruct (l !! O) as [pivot|]; [|reflexivity].
    cbv zeta. destruct (negb _); [reflexivity|].
    rewrite <- IH. apply iter_swap_Permutation.
Qed.

Lemma unguarded_partition_pivot_Permutation (l : list A) :
  Permutation l (unguarded_partition_pivot comp l).2.
Proof.
  unfold unguarded_partition_pivot.
  rewrite <- unguarded_partition_Permutation.
  apply move_median_to_first_Permutation.
Qed.

(** The heap routines move a hole; with the hole filled by the value
    that is held back, every step exchanges two places. *)
Lemma move_hole_Permutation (l : list A) (h c : nat) (v vc : A) :
  (h < length l)%nat -> l !! c = Some vc ->
  Permutation (<[h := v]> l) (<[c := v]> (<[h := vc]> l)).
Proof.
  intros Hh Hc. destruct (decide (c = h)) as [->|Hne].
  - rewrite list_insert_insert_eq. reflexivity.
  - rewrite <- (list_insert_insert_eq l h vc v).
    apply iter_swap_places_Permutation.
    + apply list_lookup_insert_eq. exact Hh.
    + rewrite list_lookup_insert_ne by congruence. exact Hc.
Qed.

Lemma push_heap_Permutation (fuel : nat) :
  forall (l : list A) (holeIndex topIndex : nat) (value : A),
    (holeIndex < length l)%nat ->
    Permutation (<[holeIndex := value]> l) (push_heap comp fuel l holeIndex topIndex value).
Proof.
  induction fuel as [|fuel IH]; intros l holeIndex topIndex value Hh;
    cbn [push_heap]; [reflexivity|].
  destruct (l !! ((holeIndex - 1) / 2)%nat) as [p|] eqn:Hp; [|reflexivity].
  destruct (_ && _); [|reflexivity].
  rewrite <- IH by (rewrite length_insert; eapply lookup_lt_Some; exact Hp).
  apply move_hole_Permutation; assumption.
Qed.

Lemma adjust_heap_sink_Permutation (fuel : nat) :
  forall (l : list A) (len secondChild : nat),
    (secondChild < length l)%nat ->
    let r := adjust_heap_sink comp fuel l len secondChild in
    (r.1 < length r.2)%nat
    /\ forall v, Permutation (<[secondChild := v]> l) (<[r.1 := v]> r.2).
Proof.
  induction fuel as [|fuel IH]; intros l len secondChild Hs; cbn [adjust_heap_sink];
    [split; [exact Hs|reflexivity]|].
  destruct (secondChild <? (len - 1) / 2)%nat; [|split; [exact Hs|reflexivity]].
  cbv zeta.
  match goal with |- context [l !! ?c] => destruct (l !! c) as [vc|] eqn:Hc end;
    [|split; [exact Hs|reflexivity]].
  match type of Hc with l !! ?c = _ =>
    destruct (IH (<[secondChild := vc]> l) len c) as [Hlt Hperm] end.
  { rewrite length_insert. eapply lookup_lt_Some. exact Hc. }
  split; [exact Hlt|]. intros v. rewrite <- Hperm.
  apply move_hole_Permutation; assumption.
Qed.

Lemma adjust_heap_Permutation (l : list A) (holeIndex len : nat) (value : A) :
  (holeIndex < length l)%nat ->
  Permutation (<[holeIndex := value]> l) (adjust_heap comp l holeIndex len value).
Proof.
  intros Hh. unfold adjust_heap.
  destruct (adjust_heap_sink_Permutation len l len holeIndex Hh) as [Hlt Hperm].
  destruct (adjust_heap_sink comp len l len holeIndex) as [secondChild l1].
  cbn [fst snd] in Hlt, Hperm.
  rewrite (Hperm value).
  destruct (Nat.even len && (secondChild =? (len - 2) / 2)%nat).
  - destruct (l1 !! (2 * (secondChild + 1) - 1)%nat) as [c|] eqn:Hc.
    + rewrite <- push_heap_Permutation
        by (rewrite length_insert; eapply lookup_lt_Some; exact Hc).
      apply move_hole_Permutation; assumption.
    + apply push_heap_Permutation. exact Hlt.
  - apply push_heap_Permutation. exact Hlt.
Qed.

Lemma make_heap_from_Permutation (parent len : nat) :
  forall l : list A, Permutation l (make_heap_from comp parent len l).
Proof.
  assert (Hstep : forall (l : list A) p,
             Permutation l match l !! p with
                           | Some value => adjust_heap comp l p len value
                           | None => l
                           end).
  { intros l p. destruct (l !! p) as [value|] eqn:Hp; [|reflexivity].
    rewrite <- adjust_heap_Permutation by (eapply lookup_lt_Some; exact Hp).
    rewrite list_insert_id by exact Hp. reflexivity. }
  induction parent as [|parent IH]; intros l; cbn [make_heap_from].
  - apply Hstep.
  - rewrite <- IH. apply Hstep.
Qed.

Lemma make_heap_Permutation (l : list A) : Permutation l (make_heap comp l).
Proof.
  unfold make_heap. destruct (length l <? 2)%nat; [reflexivity|].
  apply make_heap_from_Permutation.
Qed.

Lemma pop_heap_Permutation (len : nat) (l : list A) :
  Permutation l (pop_heap comp len l).
Proof.
  unfold pop_heap.
  destruct (l !! len) as [value|] eqn:Hv; [|reflexivity].
  destruct (l !! O) as [top|] eqn:Ht; [|reflexivity].
  rewrite <- adjust_heap_Permutation
    by (rewrite length_insert; eapply lookup_lt_Some; exact Ht).
  apply iter_swap_places_Permutation; assumption.
Qed.

Lemma sort_heap_Permutation (len : nat) :
  forall l : list A, Permutation l (sort_heap comp len l).
Proof.
  induction len as [|len IH]; intros l; cbn [sort_heap]; [reflexivity|].
  destruct (1 <? S len)%nat; [|reflexivity].
  rewrite <- IH. apply pop_heap_Permutation.
Qed.

Lemma partial_sort_Permutation (l : list A) : Permutation l (partial_sort comp l).
Proof.
  unfold partial_sort. rewrite <- sort_heap_Permutation. apply make_heap_Permutation.
Qed.

Lemma introsort_loop_Permutation (depth_limit : nat) :
  forall l : list A, Permutation l (introsort_loop comp depth_limit l).
Proof.
  induction depth_limit as [|d IH]; intros l; cbn [introsort_loop];
    destruct (S_threshold <? length l)%nat; try reflexivity.
  - apply partial_sort_Permutation.
  - pose proof (unguarded_partition_pivot_Permutation l) as Hp.
    destruct (unguarded_partition_pivot comp l) as [cut l']. cbn [snd] in Hp.
    rewrite <- !IH, take_drop. exact Hp.
Qed.

Lemma std_sort_Permutation (l : list A) : Permutation l (std_sort comp l).
Proof.
  unfold std_sort. destruct l as [|x l]; [reflexivity|].
  rewrite <- final_insertion_sort_Permutation. apply introsort_loop_Permutation.
Qed.

Lemma std_sort_length (l : list A) : length (std_sort comp l) = length l.
Proof. symmetry. apply Permutation_length, std_sort_Permutation. Qed.

(** The merges. *)
Lemma move_merge_Permutation (l1 : list A) :
  forall l2, Permutation (l1 ++ l2) (move_merge comp l1 l2).
Proof.
  induction l1 as [|x1 l1 IH1]; intros l2.
  - destruct l2; reflexivity.
  - induction l2 as [|x2 l2 IH2].
    + rewrite app_nil_r. reflexivity.
    + cbn [move_merge]. destruct (comp x2 x1).
      * cbn [move_merge] in IH2. rewrite <- IH2.
        rewrite <- Permutation_middle. reflexivity.
      * rewrite <- IH1. reflexivity.
Qed.

Lemma move_merge_backward_rev_Permutation (r1 : list A) :
  forall r2, Permutation (r1 ++ r2) (move_merge_backward_rev comp r1 r2).
Proof.
  induction r1 as [|x1 r1 IH1]; intros r2.
  - destruct r2; reflexivity.
  - induction r2 as [|x2 r2 IH2].
    + rewrite app_nil_r. reflexivity.
    + cbn [move_merge_backward_rev]. destruct (comp x2 x1).
      * rewrite <- IH1. reflexivity.
      * cbn [move_merge_backward_rev] in IH2. rewrite <- IH2.
        rewrite <- Permutation_middle. reflexivity.
Qed.

Lemma move_merge_adaptive_backward_Permutation (l1 l2 : list A) :
  Permutation (l1 ++ l2) (move_merge_adaptive_backward comp l1 l2).
Proof.
  unfold move_merge_adaptive_backward.
  rewrite <- Permutation_rev, <- move_merge_backward_rev_Permutation.
  rewrite <- !Permutation_rev. reflexivity.
Qed.

Lemma merge_adaptive_Permutation (l1 l2 : list A) :
  Permutation (l1 ++ l2) (merge_adaptive comp l1 l2).
Proof.
  unfold merge_adaptive. destruct (length l1 <=? length l2)%nat.
  - apply move_merge_Permutation.
  - apply move_merge_adaptive_backward_Permutation.
Qed.

Lemma merge_sort_loop_Permutation (fuel step_size : nat) :
  forall l : list A, Permutation l (merge_sort_loop comp fuel step_size l).
Proof.
  induction fuel as [|fuel IH]; intros l; cbn [merge_sort_loop]; [reflexivity|].
  destruct (2 * step_size <=? length l)%nat.
  - rewrite <- IH, <- move_merge_Permutation.
    rewrite <- (take_drop step_size l) at 1.
    rewrite <- app_assoc. apply Permutation_app_head.
    rewrite <- (take_drop step_size (drop step_size l)) at 1.
    rewrite drop_drop.
    replace (step_size + step_size)%nat with (2 * step_size)%nat by lia.
    reflexivity.
  - cbv zeta. rewrite <- move_merge_Permutation, take_drop. reflexivity.
Qed.

Lemma chunk_insertion_sort_Permutation (fuel chunk_size : nat) :
  forall l : list A, Permutation l (chunk_insertion_sort comp fuel chunk_size l).
Proof.
  induction fuel as [|fuel IH]; intros l; cbn [chunk_insertion_sort];
    [apply insertion_sort_Permutation|].
  destruct (chunk_size <=? length l)%nat; [|apply insertion_sort_Permutation].
  rewrite <- IH, <- insertion_sort_Permutation, take_drop. reflexivity.
Qed.

Lemma merge_sort_passes_Permutation (fuel : nat) :
  forall (step_size : nat) (l : list A),
    Permutation l (merge_sort_passes comp fuel step_size l).
Proof.
  induction fuel as [|fuel IH]; intros step_size l; cbn [merge_sort_passes];
    [reflexivity|].
  destruct (step_size <? length l)%nat; [|reflexivity].
  cbv zeta. rewrite <- IH, <- !merge_sort_loop_Permutation. reflexivity.
Qed.

Lemma merge_sort_with_buffer_Permutation (l : list A) :
  Permutation l (merge_sort_with_buffer comp l).
Proof.
  unfold merge_sort_with_buffer.
  rewrite <- merge_sort_passes_Permutation. apply chunk_insertion_sort_Permutation.
Qed.

Lemma std_stable_sort_Permutation (l : list A) :
  Permutation l (std_stable_sort comp l).
Proof.
  unfold std_stable_sort. destruct l as [|x l]; [reflexivity|].
  cbv zeta. rewrite <- merge_adaptive_Permutation, <- !merge_sort_with_buffer_Permutation.
  rewrite take_drop. reflexivity.
Qed.

Lemma std_stable_sort_length (l : list A) : length (std_stable_sort comp l) = length l.
Proof. symmetry. apply Permutation_length, std_stable_sort_Permutation. Qed.

End StdAlgoPerm.

(** *** What they return on values the comparator orders *)


Section StdSortSorted.

Context {A : Type}.
Variable comp : A -> A -> bool.
Variable P : A -> Prop.
Hypothesis comp_asym : forall a b, comp a b = true -> comp b a = false.
Hypothesis comp_neg_trans :
  forall a b c, P a -> P b -> P c ->
                comp a b = false -> comp b c = false -> comp a c = false.









End StdSortSorted.


Section StableSortSeq.

Variable comp : nat -> nat -> bool.
Hypothesis comp_asym : forall a b, comp a b = true -> comp b a = false.
Hypothesis comp_neg_trans :
  forall a b c, comp a b = false -> comp b c = false -> comp a c = false.






















End StableSortSeq.


(** C3 (defect).  [Value::Min] and [Value::Max] call [f()] on both
    operands as soon as one of them is a float, so a comparator between an
    integer and a float value throws [std::bad_variant_access] instead of
    promoting the integer.  With the default options ["x 1 sort2"] over an
    8-bit clip is such a program: the sample is loaded as a float, the
    literal is an integer constant, and compilation never reaches the
    store.  The [MAX] case, on the same two operands, does promote.  On
    operands of one kind the lowering works: the worked example
    ["3 7 1 2 0 4 6 5 sort8"] leaves 7 at the deepest slot and 0 on top,
    in the generated code and in the interpreter alike. *)
Theorem sort_of_mixed_kinds_throws :
  forall (rr : Reactor) (helpers : Helper) (env : Env),
    (ctx ← Context_new no_stof "x 1 sort2" fmt_u8 [fmt_u8] 1 0 0;
     compile rr helpers ctx env)
    = Throw bad_variant_access
    /\ (forall a b : Value,
           isFloat a <> isFloat b ->
           Value_Min rr a b = Throw bad_variant_access
           /\ Value_Max rr a b = Throw bad_variant_access)
    /\ (forall (ctx : Context) (x : float) (variables : list Value),
           emit_op rr helpers ctx env (Op2 SORT (ExprUnion_i 2))
                   ([VFloat x false; VInt 1 true], variables)
           = Throw bad_variant_access
           /\ emit_op rr helpers ctx env (Op1 MAX)
                      ([VFloat x false; VInt 1 true], variables)
              = Ok ([VFloat (rr_FMax rr x (FloatV_of_IntV 1)) false], variables))
    /\ (forall ctx : Context,
           (ops ← decode_all no_stof false (fun op => op)
                    (tokenize "3 7 1 2 0 4 6 5 sort8");
            build_loop rr helpers ctx env [] ops ([], []))
           = Ok ([VInt 7 false; VInt 6 false; VInt 5 false; VInt 4 false;
                  VInt 3 false; VInt 2 false; VInt 1 false; VInt 0 false], []))
    /\ (forall (libm : HostMath) pixelGet propGet,
           (ops ← decode_all no_stof false (fun op => op)
                    (tokenize "3 7 1 2 0 4 6 5 sort8");
            interp_loop libm 0 0 0 0 0 pixelGet propGet ops ([], ∅))
           = Ok (map Float32.of_Z [7; 6; 5; 4; 3; 2; 1; 0], ∅)).
Proof.
  intros rr helpers env.
  split; [|split; [|split; [|split]]].
  - vm_compute. reflexivity.
  - intros [x cx|x cx] [y cy|y cy] Hk; cbn in Hk; try congruence; split; reflexivity.
  - intros ctx x variables. split; reflexivity.
  - intros ctx. vm_compute. reflexivity.
  - intros libm pixelGet propGet. vm_compute. reflexivity.
Qed.

(** ** The interpreter against the generated code *)


(** Integer operands are multiplied as wrapping 32-bit integers by the
    generated code and as floats by the interpreter. *)
Lemma int_mul_disagrees :
  exists ctx,
    Context_new no_stof "65536 65536 *" fmt_f32 [fmt_f32] 1 0 0 = Ok ctx
    /\ compile example_rr example_helpers ctx example_env
       = Ok (StoredFloat (Float32.of_Z 0), [])
    /\ interpret example_libm 7 4 3 1 2 no_pixels no_props (ctx_ops ctx)
       = Ok (Float32.of_Z (2 ^ 32)).
Proof.
  eexists. repeat split; vm_compute; reflexivity.
Qed.

(** Integer operands are compared as integers by the generated code and
    after rounding to [float] by the interpreter. *)
Lemma int_cmp_disagrees :
  exists ctx,
    Context_new no_stof "16777217 16777216 =" fmt_f32 [fmt_f32] 1 0 0 = Ok ctx
    /\ compile example_rr example_helpers ctx example_env
       = Ok (StoredFloat (Float32.of_Z 0), [])
    /\ interpret example_libm 7 4 3 1 2 no_pixels no_props (ctx_ops ctx)
       = Ok (Float32.of_Z 1).
Proof.
  eexists. repeat split; vm_compute; reflexivity.
Qed.






Lemma dup_n_length {A : Type} (n : Z) (l l' : list A) :
  dup_n n l = Ok l' -> length l' = S (length l).
Proof.
  unfold dup_n. destruct (_ <=? _); [discriminate|].
  destruct (l !! _); [|discriminate]. intros H; inversion H; subst.
  rewrite length_app. cbn. lia.
Qed.

Lemma swap_n_length {A : Type} (n : Z) (l l' : list A) :
  swap_n n l = Ok l' -> length l' = length l.
Proof.
  unfold swap_n. destruct (_ <=? _); [discriminate|].
  destruct (l !! _); [|discriminate]. destruct (l !! _); [|discriminate].
  intros H; inversion H; subst. by rewrite !length_insert.
Qed.


Section Simulation.

Variable rr : Reactor.
Variable helpers : Helper.
Variable libm : HostMath.
Variable ctx : Context.
Variable env : Env.
Variable pixelGet : ExprOp -> Z -> Z -> result float.
Variable propGet : Z -> string -> result float.





End Simulation.






(** * Further properties of the code *)

(** ** The lexer *)

Lemma append_cons (a : ascii) (s t : string) :
  String.append (String a s) t = String a (String.append s t).
Proof. reflexivity. Qed.

Lemma append_nil_l (t : string) : String.append EmptyString t = t.
Proof. reflexivity. Qed.

Lemma append_String_assoc (s : string) (c : ascii) (t : string) :
  String.append (String.append s (String c EmptyString)) t
  = String.append s (String c t).
Proof.
  induction s as [|a s IH]; [reflexivity|].
  rewrite !append_cons, IH. reflexivity.
Qed.

Lemma append_nil_r (s : string) : String.append s EmptyString = s.
Proof.
  induction s as [|a s IH]; [reflexivity|]. rewrite append_cons, IH. reflexivity.
Qed.

Lemma list_ascii_of_append (s t : string) :
  list_ascii_of_string (String.append s t)
  = list_ascii_of_string s ++ list_ascii_of_string t.
Proof.
  induction s as [|a s IH]; [reflexivity|].
  rewrite append_cons. cbn [list_ascii_of_string app]. rewrite IH. reflexivity.
Qed.

Lemma append_snoc_nonempty (s : string) (c : ascii) :
  String.append s (String c EmptyString) <> EmptyString.
Proof. destruct s; [rewrite append_nil_l | rewrite append_cons]; discriminate. Qed.

(** White space ends the token being read and starts from scratch. *)
Lemma tokenize_from_app_space (s1 s2 : string) (c : ascii) :
  isspace c = true ->
  forall cur,
    tokenize_from (String.append s1 (String c s2)) cur
    = tokenize_from s1 cur ++ tokenize s2.
Proof.
  intros Hc. induction s1 as [|a s1 IH]; intros cur;
    rewrite ?append_nil_l, ?append_cons; cbn [tokenize_from].
  - rewrite Hc. destruct cur; reflexivity.
  - destruct (isspace a).
    + destruct cur; rewrite IH; reflexivity.
    + apply IH.
Qed.

(** A stretch without white space is added to the token being read. *)
Lemma tokenize_from_no_space (s : string) :
  Forall (fun c => isspace c = false) (list_ascii_of_string s) ->
  forall cur,
    tokenize_from s cur
    = match String.append cur s with EmptyString => [] | tok => [tok] end.
Proof.
  induction s as [|a s IH]; intros Hs cur; cbn [tokenize_from list_ascii_of_string] in *.
  - rewrite append_nil_r. destruct cur; reflexivity.
  - inversion Hs as [|? ? Ha Hs']; subst. rewrite Ha.
    rewrite IH by assumption. rewrite append_String_assoc. reflexivity.
Qed.

Lemma tokenize_from_clean (expr : string) : forall cur : string,
  Forall (fun c => isspace c = false) (list_ascii_of_string cur) ->
  Forall clean_token (tokenize_from expr cur).
Proof.
  induction expr as [|c expr IH]; intros cur Hcur; cbn [tokenize_from].
  - destruct cur; [constructor|].
    constructor; [split; [discriminate | assumption] | constructor].
  - destruct (isspace c) eqn:Hc.
    + destruct cur as [|a cur].
      * apply IH. constructor.
      * constructor; [split; [discriminate | assumption]|]. apply IH. constructor.
    + apply IH. rewrite list_ascii_of_append. apply Forall_app. split; [assumption|].
      cbn. repeat constructor. exact Hc.
Qed.

(** X1.  Every token [tokenize] returns is non-empty and holds no
    white-space character, whatever the expression. *)
Theorem tokenize_tokens_clean (expr : string) :
  Forall clean_token (tokenize expr).
Proof. apply tokenize_from_clean. constructor. Qed.

(** X2.  Tokenizing two expressions joined by a white-space character
    gives the tokens of the first followed by the tokens of the second:
    a token never spans white space, and what comes before it has no
    influence on what comes after. *)
Theorem tokenize_app_space (s1 s2 : string) (c : ascii) :
  isspace c = true ->
  tokenize (String.append s1 (String c s2)) = tokenize s1 ++ tokenize s2.
Proof. intros Hc. apply tokenize_from_app_space, Hc. Qed.

Lemma tokenize_app_space_witness :
  tokenize "x 2 *" = tokenize "x 2" ++ tokenize "*".
Proof. apply (tokenize_app_space "x 2" "*" " "). reflexivity. Defined.

(** X3.  Joining tokens with single spaces and tokenizing the result
    gives the tokens back, as long as each of them is a token in the
    first place (non-empty, free of white space). *)
Theorem tokenize_concat (toks : list string) :
  Forall clean_token toks ->
  tokenize (String.concat " " toks) = toks.
Proof.
  induction toks as [|t toks IH]; intros H; [reflexivity|].
  inversion H as [|? ? [Hne Hsp] Hr]; subst.
  destruct toks as [|t' toks].
  - cbn [String.concat]. unfold tokenize.
    rewrite tokenize_from_no_space by assumption.
    rewrite append_nil_l. destruct t; [contradiction | reflexivity].
  - change (String.concat " " (t :: t' :: toks))
      with (String.append t (String.append " " (String.concat " " (t' :: toks)))).
    rewrite append_cons, append_nil_l. unfold tokenize at 1.
    rewrite tokenize_from_app_space by reflexivity.
    rewrite IH by assumption.
    rewrite tokenize_from_no_space by assumption.
    rewrite append_nil_l. destruct t; [contradiction | reflexivity].
Qed.

Lemma tokenize_concat_witness :
  tokenize (String.concat " " ["x"; "y[1,-1]:m"; "+"; "a!"])
  = ["x"; "y[1,-1]:m"; "+"; "a!"]%string.
Proof.
  apply tokenize_concat.
  repeat constructor; discriminate.
Defined.

(** ** The token decoder: counted forms and variables *)

Lemma Z_of_char_range (c : ascii) : 0 <= Z_of_char c < 256.
Proof.
  unfold Z_of_char. pose proof (N_ascii_bounded c) as H. lia.
Qed.

Lemma isdigit_value (c : ascii) :
  isdigit c = true -> digit_in 10 c = Some (Z_of_char c - 48) /\ 0 <= Z_of_char c - 48 <= 9.
Proof.
  unfold isdigit, digit_in, digit_value. intros H. rewrite H.
  unfold char_between in H. apply andb_true_iff in H as [H1 H2].
  apply Z.leb_le in H1, H2.
  change (Z_of_char "0") with 48 in H1. change (Z_of_char "9") with 57 in H2.
  destruct (Z.ltb_spec (Z_of_char c - 48) 10); [split; [reflexivity | lia] | lia].
Qed.

Lemma isdigit_not_space (c : ascii) : isdigit c = true -> isspace c = false.
Proof.
  intros H. destruct (isdigit_value c H) as [_ Hr]. unfold isspace.
  destruct (Z.eqb_spec (Z_of_char c) 32); [lia|].
  destruct (Z.leb_spec 9 (Z_of_char c)), (Z.leb_spec (Z_of_char c) 13); try reflexivity; lia.
Qed.

Lemma isdigit_not_char (c d : ascii) :
  isdigit c = true -> isdigit d = false -> Ascii.eqb c d = false.
Proof.
  intros Hc Hd. destruct (Ascii.eqb_spec c d); [subst; congruence | reflexivity].
Qed.

(** [read_digits] on a numeral reads all of it. *)
Lemma read_digits_numeral (s : string) :
  Forall (fun c => isdigit c = true) (list_ascii_of_string s) ->
  forall acc, read_digits 10 s acc = (decimal_acc acc s, String.length s).
Proof.
  induction s as [|c s IH]; intros Hs acc; cbn [read_digits decimal_acc]; [reflexivity|].
  cbn [list_ascii_of_string] in Hs. inversion Hs as [|? ? Hc Hr]; subst.
  destruct (isdigit_value c Hc) as [-> _].
  rewrite IH by assumption. reflexivity.
Qed.

Lemma decimal_acc_nonneg (s : string) :
  Forall (fun c => isdigit c = true) (list_ascii_of_string s) ->
  forall acc, 0 <= acc -> 0 <= decimal_acc acc s.
Proof.
  induction s as [|c s IH]; intros Hs acc Hacc; cbn [decimal_acc]; [assumption|].
  cbn [list_ascii_of_string] in Hs. inversion Hs as [|? ? Hc Hr]; subst.
  destruct (isdigit_value c Hc) as [_ Hb].
  apply IH; [assumption | lia].
Qed.

(** [strtol] in base 10 on a numeral: its value, all characters read. *)
Lemma strto_numeral (s : string) :
  is_numeral s -> strto 10 s = Some (decimal_value s, String.length s).
Proof.
  intros [Hne Hs]. destruct s as [|c s]; [contradiction|].
  cbn [list_ascii_of_string] in Hs. inversion Hs as [|? ? Hc Hr]; subst.
  unfold strto. cbn [skip_space]. rewrite (isdigit_not_space c Hc).
  assert (Hsign : read_sign (String c s) = (false, O, String c s)).
  { unfold read_sign.
    pose proof (isdigit_not_char c "-" Hc eq_refl) as Hm.
    pose proof (isdigit_not_char c "+" Hc eq_refl) as Hp.
    destruct (Ascii.eqb_spec c "-"); [discriminate|].
    destruct (Ascii.eqb_spec c "+"); [discriminate|].
    destruct c as [[] [] [] [] [] [] [] []]; try reflexivity; congruence. }
  rewrite Hsign. cbn [Z.eqb].
  rewrite read_digits_numeral by (constructor; assumption).
  reflexivity.
Qed.

Lemma stoi_numeral (s : string) :
  is_numeral s ->
  stoi s = if decimal_value s <=? INT_MAX then Some (decimal_value s, String.length s) else None.
Proof.
  intros Hs. unfold stoi. rewrite strto_numeral by assumption.
  destruct Hs as [_ Hd].
  pose proof (decimal_acc_nonneg s Hd 0 ltac:(lia)) as Hnn.
  fold (decimal_value s) in Hnn.
  unfold in_i32, INT_MIN.
  destruct (Z.leb_spec (- 2 ^ 31) (decimal_value s)); [|lia].
  reflexivity.
Qed.

Lemma str_back_cons (a b : ascii) (s : string) :
  str_back (String a (String b s)) = str_back (String b s).
Proof.
  unfold str_back, str_at, str_len. cbn [String.length Nat.sub String.get].
  rewrite Nat.sub_0_r. reflexivity.
Qed.

Lemma str_back_numeral (s : string) :
  is_numeral s -> isdigit (str_back s) = true.
Proof.
  intros [Hne Hs]. induction s as [|a s IH]; [contradiction|].
  cbn [list_ascii_of_string] in Hs. inversion Hs as [|? ? Ha Hr]; subst.
  destruct s as [|b s]; [exact Ha|].
  rewrite str_back_cons. apply IH; [discriminate | assumption].
Qed.

Lemma str_back_app (p s : string) :
  s <> EmptyString -> str_back (String.append p s) = str_back s.
Proof.
  intros Hs. induction p as [|a p IH]; [reflexivity|].
  rewrite append_cons.
  destruct (String.append p s) as [|b r] eqn:E.
  - destruct p; [rewrite append_nil_l in E; contradiction | rewrite append_cons in E; discriminate].
  - rewrite str_back_cons. exact IH.
Qed.

Lemma numeral_tail_not_mark (p s : string) :
  is_numeral s ->
  Ascii.eqb (str_back (String.append p s)) "@" || Ascii.eqb (str_back (String.append p s)) "!"
  = false.
Proof.
  intros Hs. rewrite str_back_app by (destruct Hs; assumption).
  pose proof (str_back_numeral s Hs) as Hd.
  rewrite (isdigit_not_char _ "@" Hd eq_refl), (isdigit_not_char _ "!" Hd eq_refl).
  reflexivity.
Qed.

Lemma str_len_app (p s : string) :
  str_len (String.append p s) = (str_len p + str_len s)%nat.
Proof.
  unfold str_len. induction p as [|a p IH]; [reflexivity|].
  rewrite append_cons. cbn [String.length]. rewrite IH. reflexivity.
Qed.

Ltac eval_islower :=
  repeat match goal with
         | |- context [islower ?c] =>
             let b := eval vm_compute in (islower c) in change (islower c) with b
         end.

(** The counted forms after the common part of [decodeToken]: the
    numeral is read by [std::stoi] and has to fit an [int]. *)
Ltac decode_counted prefix s Hs :=
  unfold decodeToken;
  rewrite (numeral_tail_not_mark prefix s Hs), andb_false_r;
  let Hne := fresh "Hne" in
  let Hd := fresh "Hd" in
  let c := fresh "c" in
  let Hstoi := fresh "Hstoi" in
  let Hnn := fresh "Hnn" in
  pose proof (stoi_numeral s Hs) as Hstoi;
  destruct Hs as [Hne Hd];
  pose proof (decimal_acc_nonneg s Hd 0 ltac:(lia)) as Hnn;
  fold (decimal_value s) in Hnn;
  destruct s as [|c s]; [contradiction|];
  rewrite !append_cons, append_nil_l;
  cbn -[stoi decimal_value]; eval_islower; cbn -[stoi decimal_value];
  unfold stoi_guarded; rewrite Hstoi;
  destruct (Z.leb_spec (decimal_value (String c s)) INT_MAX);
  [ destruct (Z.ltb_spec (decimal_value (String c s)) 0); [lia|];
    cbn [String.length]; rewrite Nat.eqb_refl; reflexivity
  | reflexivity ].

(** X4.  A stack token with a count, [dupN], [swapN], [dropN] or
    [sortN] with [N] a decimal numeral, decodes to the operation with
    that count when [N] fits an [int], and is refused as an illegal
    token when it does not. *)
Theorem counted_stack_tokens (stof : string -> option (float * nat))
    (s : string) (extended : bool) :
  is_numeral s ->
  let n := decimal_value s in
  let decoded (name : string) (t : ExprOpType) :=
    decodeToken stof (String.append name s) extended
    = if n <=? INT_MAX then Ok (Op2 t (ExprUnion_i n))
      else Throw (runtime_error ("illegal token: " ++ String.append name s)) in
  decoded "dup"%string DUP /\ decoded "swap"%string SWAP
  /\ decoded "drop"%string DROP /\ decoded "sort"%string SORT.
Proof.
  intros Hs n decoded. subst n decoded. cbv beta.
  split; [|split; [|split]].
  - decode_counted "dup"%string s Hs.
  - decode_counted "swap"%string s Hs.
  - decode_counted "drop"%string s Hs.
  - decode_counted "sort"%string s Hs.
Qed.

Lemma counted_stack_tokens_witness :
  decodeToken no_stof "sort8" false = Ok (Op2 SORT (ExprUnion_i 8))
  /\ decodeToken no_stof "dup4294967296" false
     = Throw (runtime_error "illegal token: dup4294967296").
Proof.
  assert (H8 : is_numeral "8") by (split; [discriminate | repeat constructor]).
  assert (Hbig : is_numeral "4294967296") by (split; [discriminate | repeat constructor]).
  split.
  - destruct (counted_stack_tokens no_stof "8" false H8) as (_ & _ & _ & H). exact H.
  - destruct (counted_stack_tokens no_stof "4294967296" false Hbig) as (H & _). exact H.
Defined.

(** X5.  In extended mode (Select and PropExpr) [argminN], [argmaxN] and
    [argsortN] decode in the same way: to the operation with count [N]
    when the numeral fits an [int], to an illegal-token error otherwise. *)
Theorem counted_arg_tokens (stof : string -> option (float * nat)) (s : string) :
  is_numeral s ->
  let n := decimal_value s in
  let decoded (name : string) (t : ExprOpType) :=
    decodeToken stof (String.append name s) true
    = if n <=? INT_MAX then Ok (Op2 t (ExprUnion_i n))
      else Throw (runtime_error ("illegal token: " ++ String.append name s)) in
  decoded "argmin"%string ARGMIN /\ decoded "argmax"%string ARGMAX
  /\ decoded "argsort"%string ARGSORT.
Proof.
  intros Hs n decoded. subst n decoded. cbv beta.
  split; [|split].
  - decode_counted "argmin"%string s Hs.
  - decode_counted "argmax"%string s Hs.
  - decode_counted "argsort"%string s Hs.
Qed.

Lemma counted_arg_tokens_witness :
  decodeToken no_stof "argsort3" true = Ok (Op2 ARGSORT (ExprUnion_i 3)).
Proof.
  assert (H3 : is_numeral "3") by (split; [discriminate | repeat constructor]).
  destruct (counted_arg_tokens no_stof "3" H3) as (_ & _ & H). exact H.
Defined.

(** *** Prefixes and suffixes of strings *)

Lemma append_assoc (a b c : string) :
  String.append (String.append a b) c = String.append a (String.append b c).
Proof.
  induction a as [|x a IH]; [reflexivity|].
  rewrite !append_cons, IH. reflexivity.
Qed.

Lemma str_take_0 (s : string) : str_take 0 s = EmptyString.
Proof. destruct s; reflexivity. Qed.

Lemma str_take_S (n : nat) (c : ascii) (s : string) :
  str_take (S n) (String c s) = String c (str_take n s).
Proof. reflexivity. Qed.

Lemma str_take_drop (n : nat) : forall s : string,
  String.append (str_take n s) (str_drop n s) = s.
Proof.
  induction n as [|n IH]; intros s.
  - rewrite str_take_0. reflexivity.
  - destruct s as [|c s]; [reflexivity|].
    rewrite str_take_S, append_cons. cbn [str_drop]. rewrite IH. reflexivity.
Qed.

Lemma str_take_app_len (p s : string) : str_take (str_len p) (String.append p s) = p.
Proof.
  induction p as [|a p IH].
  - rewrite append_nil_l. apply str_take_0.
  - rewrite append_cons. unfold str_len in *. cbn [String.length].
    rewrite str_take_S, IH. reflexivity.
Qed.

Lemma str_drop_app_len (p s : string) : str_drop (str_len p) (String.append p s) = s.
Proof.
  induction p as [|a p IH]; [reflexivity|].
  rewrite append_cons. unfold str_len in *. cbn [String.length str_drop]. exact IH.
Qed.

Lemma str_take_app_le (n : nat) (p : string) : forall s : string,
  str_take (str_len p + n) (String.append p s) = String.append p (str_take n s).
Proof.
  induction p as [|a p IH]; intros s.
  - rewrite !append_nil_l. reflexivity.
  - rewrite !append_cons. unfold str_len in *. cbn [String.length Nat.add].
    rewrite str_take_S, IH. reflexivity.
Qed.

Lemma str_drop_app_le (n : nat) (p : string) : forall s : string,
  str_drop (str_len p + n) (String.append p s) = str_drop n s.
Proof.
  induction p as [|a p IH]; intros s; [reflexivity|].
  rewrite append_cons. unfold str_len in *. cbn [String.length Nat.add str_drop]. apply IH.
Qed.

Lemma count_digits_take (k : nat) : forall s : string,
  (k <= count_digits s)%nat ->
  Forall (fun c => isdigit c = true) (list_ascii_of_string (str_take k s))
  /\ str_len (str_take k s) = k.
Proof.
  induction k as [|k IH]; intros s Hk.
  - rewrite str_take_0. split; [constructor | reflexivity].
  - destruct s as [|c s]; cbn [count_digits] in Hk; [lia|].
    destruct (isdigit c) eqn:Hc; [|lia].
    destruct (IH s ltac:(lia)) as [Hd Hl].
    rewrite str_take_S. cbn [list_ascii_of_string]. split.
    + constructor; assumption.
    + unfold str_len in *. cbn [String.length]. rewrite Hl. reflexivity.
Qed.

Lemma count_digits_numeral (s : string) :
  Forall (fun c => isdigit c = true) (list_ascii_of_string s) ->
  forall rest,
    (match rest with String c _ => isdigit c = false | EmptyString => True end) ->
    count_digits (String.append s rest) = str_len s.
Proof.
  induction s as [|c s IH]; intros Hs rest Hrest.
  - rewrite append_nil_l. destruct rest as [|c r]; [reflexivity|].
    cbn [count_digits]. rewrite Hrest. reflexivity.
  - cbn [list_ascii_of_string] in Hs. inversion Hs as [|? ? Hc Hr]; subst.
    rewrite append_cons. cbn [count_digits]. rewrite Hc.
    rewrite IH by assumption. reflexivity.
Qed.

(** *** The clip-name prefix of the regular expressions *)

Lemma first_match_Some {A B : Type} (k : A -> option B) (l : list A) (b : B) :
  first_match k l = Some b -> exists a, In a l /\ k a = Some b.
Proof.
  induction l as [|a l IH]; cbn [first_match]; [discriminate|].
  destruct (k a) as [b'|] eqn:E.
  - intros H; inversion H; subst. exists a. split; [left; reflexivity | exact E].
  - intros H. destruct (IH H) as (a' & Hin & Hk). exists a'. split; [right|]; assumption.
Qed.

Lemma string_eqb_eq (a b : string) : String.eqb a b = true -> a = b.
Proof. apply String.eqb_eq. Qed.

(** Every way the prefix can match splits the input into a clip name
    and what follows it. *)
Lemma clip_prefix_splits_sound (s clip rest : string) :
  In (clip, rest) (clip_prefix_splits s) ->
  is_clip_name clip /\ s = String.append clip rest.
Proof.
  unfold clip_prefix_splits. intros H. apply in_app_or in H as [H|H].
  - destruct s as [|c r]; [contradiction|].
    destruct (islower c) eqn:Hc; [|contradiction].
    destruct H as [H|[]]. inversion H; subst.
    split; [left; exists c; auto | reflexivity].
  - destruct (String.eqb (str_take 3 s) clipNamePrefix) eqn:Hp; [|contradiction].
    apply string_eqb_eq in Hp.
    apply in_map_iff in H as (k & Hk & Hin).
    apply pair_equal_spec in Hk as [<- <-].
    apply in_rev, in_seq in Hin.
    pose proof (str_take_drop 3 s) as Hs. rewrite Hp in Hs.
    set (s' := str_drop 3 s) in *.
    rewrite <- Hs.
    change (3 + k)%nat with (str_len clipNamePrefix + k)%nat.
    rewrite str_take_app_le, str_drop_app_le.
    destruct (count_digits_take k s' ltac:(lia)) as [Hd Hl].
    split.
    + right. exists (str_take k s'). split; [|reflexivity].
      split; [|exact Hd].
      intros E. rewrite E in Hl. cbn in Hl. lia.
    + rewrite append_assoc, str_take_drop. reflexivity.
Qed.

Lemma islower_range (c : ascii) : islower c = true -> 97 <= Z_of_char c <= 122.
Proof.
  unfold islower, char_between. intros H. apply andb_true_iff in H as [H1 H2].
  apply Z.leb_le in H1, H2.
  change (Z_of_char "a") with 97 in H1. change (Z_of_char "z") with 122 in H2. lia.
Qed.

Lemma isdigit_range (c : ascii) : isdigit c = true -> 48 <= Z_of_char c <= 57.
Proof. intros H. destruct (isdigit_value c H) as [_ Hr]. lia. Qed.

(** The last character of a clip name is a lower-case letter or a
    digit. *)
Lemma clip_name_back (clip : string) :
  is_clip_name clip -> islower (str_back clip) = true \/ isdigit (str_back clip) = true.
Proof.
  intros [(c & Hc & ->)|(ds & Hds & ->)].
  - left. exact Hc.
  - right. rewrite str_back_app by (destruct Hds; assumption).
    apply str_back_numeral, Hds.
Qed.

Lemma match_clipNameRe_Some (token clip : string) :
  match_clipNameRe token = Some clip -> is_clip_name token.
Proof.
  unfold match_clipNameRe. intros H.
  apply first_match_Some in H as ([c rest] & Hin & Hk).
  destruct (String.eqb rest "") eqn:E; [|discriminate].
  apply string_eqb_eq in E. subst rest.
  apply clip_prefix_splits_sound in Hin as [Hc Hs].
  rewrite append_nil_r in Hs. subst c. exact Hc.
Qed.

Lemma simple_find_Some (tbl : list (string * ExprOp)) (token : string) (op : ExprOp) :
  simple_find tbl token = Some op -> In (token, op) tbl.
Proof.
  induction tbl as [|[k o] tbl IH]; cbn [simple_find]; [discriminate|].
  destruct (String.eqb k token) eqn:E.
  - apply string_eqb_eq in E. intros H; inversion H; subst. left. reflexivity.
  - intros H. right. apply IH, H.
Qed.

(** No name of the [simple] table satisfies [P]: a token that does is
    not in the table. *)
Lemma simple_find_None (P : string -> bool) (token : string) :
  forallb (fun kv => negb (P (fst kv))) simple = true ->
  P token = true ->
  simple_find simple token = None.
Proof.
  intros Hall HP. destruct (simple_find simple token) as [op|] eqn:E; [|reflexivity].
  apply simple_find_Some in E.
  rewrite forallb_forall in Hall. specialize (Hall _ E). cbn [fst] in Hall.
  rewrite HP in Hall. discriminate.
Qed.

(** *** Variables *)

Lemma str_back_snoc (name : string) (c : ascii) :
  str_back (String.append name (String c EmptyString)) = c.
Proof. rewrite str_back_app by discriminate. reflexivity. Qed.

Lemma mark_not_clip_name (token : string) :
  Ascii.eqb (str_back token) "@" || Ascii.eqb (str_back token) "!" = true ->
  match_clipNameRe token = None.
Proof.
  intros Hm. destruct (match_clipNameRe token) as [clip|] eqn:E; [|reflexivity].
  apply match_clipNameRe_Some, clip_name_back in E.
  apply orb_true_iff in Hm as [Hm|Hm]; apply Ascii.eqb_eq in Hm; rewrite Hm in E;
    destruct E as [E|E]; vm_compute in E; discriminate.
Qed.

(** X6.  A token that ends in [@] or [!] and has a character before it
    is a variable access, whatever that name is made of: [name@] loads
    the variable [name], [name!] stores to it, and the operation carries
    the name exactly as written. *)
Theorem variable_tokens (stof : string -> option (float * nat))
    (name : string) (extended : bool) :
  name <> EmptyString ->
  decodeToken stof (String.append name "@") extended
  = Ok (Op3 VAR_LOAD (ExprUnion_i (-1)) name)
  /\ decodeToken stof (String.append name "!") extended
     = Ok (Op3 VAR_STORE (ExprUnion_i (-1)) name).
Proof.
  intros Hne.
  assert (Hlen : forall m, (2 <=? str_len (String.append name m))%nat = true
                           \/ str_len m = O).
  { intros m. rewrite str_len_app. destruct name; [contradiction|].
    destruct m; [right; reflexivity|]. left. apply Nat.leb_le.
    unfold str_len. cbn [String.length]. lia. }
  split.
  - unfold decodeToken.
    rewrite (simple_find_None (fun s => Ascii.eqb (str_back s) "@"))
      by (try (vm_compute; reflexivity); rewrite str_back_snoc; reflexivity).
    rewrite mark_not_clip_name by (rewrite str_back_snoc; reflexivity).
    destruct (Hlen "@"%string) as [->|H]; [|discriminate].
    rewrite str_back_snoc. cbn [andb orb Ascii.eqb Bool.eqb].
    rewrite str_len_app. change (str_len "@") with 1%nat.
    rewrite Nat.add_sub, str_take_app_len. reflexivity.
  - unfold decodeToken.
    rewrite (simple_find_None (fun s => Ascii.eqb (str_back s) "!"))
      by (try (vm_compute; reflexivity); rewrite str_back_snoc; reflexivity).
    rewrite mark_not_clip_name by (rewrite str_back_snoc; reflexivity).
    destruct (Hlen "!"%string) as [->|H]; [|discriminate].
    rewrite str_back_snoc. cbn [andb orb Ascii.eqb Bool.eqb].
    rewrite str_len_app. change (str_len "!") with 1%nat.
    rewrite Nat.add_sub, str_take_app_len. reflexivity.
Qed.

Lemma variable_tokens_witness :
  decodeToken no_stof "x.peak@" false = Ok (Op3 VAR_LOAD (ExprUnion_i (-1)) "x.peak")
  /\ decodeToken no_stof "dup!" true = Ok (Op3 VAR_STORE (ExprUnion_i (-1)) "dup").
Proof.
  split.
  - destruct (variable_tokens no_stof "x.peak" false ltac:(discriminate)) as [H _]. exact H.
  - destruct (variable_tokens no_stof "dup" true ltac:(discriminate)) as [_ H]. exact H.
Defined.

(** *** Clip names *)

Lemma rev_seq_S (start len : nat) :
  rev (seq start (S len)) = (start + len)%nat :: rev (seq start len).
Proof. rewrite seq_S, rev_app_distr. reflexivity. Qed.

Lemma str_len_take_le (n : nat) : forall s, (n <= str_len s)%nat -> str_len (str_take n s) = n.
Proof.
  unfold str_len. induction n as [|n IH]; intros s Hn.
  - rewrite str_take_0. reflexivity.
  - destruct s as [|c s]; cbn [String.length] in Hn; [lia|].
    rewrite str_take_S. cbn [String.length]. rewrite IH by lia. reflexivity.
Qed.

(** The splits of [src<numeral><rest>] when [rest] does not go on with
    a digit: the letter [s] alone, then the whole clip name, then the
    shorter numerals. *)
Lemma clip_prefix_splits_src (ds rest : string) :
  is_numeral ds ->
  (match rest with String c _ => isdigit c = false | EmptyString => True end) ->
  exists others,
    clip_prefix_splits (String.append clipNamePrefix (String.append ds rest))
    = ("s"%string, String.append "rc" (String.append ds rest))
      :: (String.append clipNamePrefix ds, rest) :: others.
Proof.
  intros [Hne Hd] Hrest. unfold clip_prefix_splits.
  change (String.append clipNamePrefix (String.append ds rest))
    with (String "s" (String "r" (String "c" (String.append ds rest)))).
  replace (islower "s") with true by (vm_compute; reflexivity).
  change (str_take 3 (String "s" (String "r" (String "c" (String.append ds rest)))))
    with (String "s" (String "r" (String "c" (str_take 0 (String.append ds rest))))).
  rewrite str_take_0.
  change (String.eqb "src" clipNamePrefix) with true. cbv iota.
  change (str_drop 3 (String "s" (String "r" (String "c" (String.append ds rest)))))
    with (String.append ds rest).
  rewrite count_digits_numeral by assumption.
  assert (Hlen : exists m, str_len ds = S m).
  { destruct ds; [contradiction|]. eexists. reflexivity. }
  destruct Hlen as [m Hm]. rewrite Hm, rev_seq_S. cbn [map app].
  eexists. f_equal. f_equal.
  change (String "s" (String "r" (String "c" (String.append ds rest))))
    with (String.append clipNamePrefix (String.append ds rest)).
  replace (3 + (1 + m))%nat with (str_len clipNamePrefix + str_len ds)%nat
    by (rewrite Hm; reflexivity).
  rewrite str_take_app_le, str_drop_app_le, str_take_app_len, str_drop_app_len.
  reflexivity.
Qed.

(** The splits of a letter followed by something that is not [rc]: the
    letter alone. *)
Lemma clip_prefix_splits_letter (c : ascii) (rest : string) :
  islower c = true ->
  (match rest with String d _ => Ascii.eqb d "r" = false | EmptyString => True end) ->
  clip_prefix_splits (String c rest) = [(String c EmptyString, rest)].
Proof.
  intros Hc Hrest. unfold clip_prefix_splits. rewrite Hc.
  assert (Hp : String.eqb (str_take 3 (String c rest)) clipNamePrefix = false).
  { destruct rest as [|d rest]; [cbn; destruct (Ascii.eqb c "s"); reflexivity|].
    rewrite !str_take_S. unfold clipNamePrefix. cbn [String.eqb].
    rewrite Hrest. destruct (Ascii.eqb c "s"); reflexivity. }
  rewrite Hp. reflexivity.
Qed.

(** [clipNameRe] accepts every clip name. *)
Lemma match_clipNameRe_clip_name (token : string) :
  is_clip_name token -> exists clip, match_clipNameRe token = Some clip.
Proof.
  intros [(c & Hc & ->)|(ds & Hds & ->)]; unfold match_clipNameRe.
  - rewrite clip_prefix_splits_letter by (exact Hc || exact I).
    cbn. eexists. reflexivity.
  - destruct (clip_prefix_splits_src ds EmptyString Hds I) as [others Ho].
    rewrite !append_nil_r in Ho. rewrite Ho.
    cbn [first_match]. destruct Hds as [Hne _]. destruct ds; [contradiction|].
    cbn. eexists. reflexivity.
Qed.

Lemma src_not_simple (s : string) :
  simple_find simple (String.append clipNamePrefix s) = None.
Proof.
  apply (simple_find_None (fun t => String.eqb (str_take 3 t) clipNamePrefix)).
  - vm_compute. reflexivity.
  - change 3%nat with (str_len clipNamePrefix + 0)%nat.
    rewrite str_take_app_le, str_take_0. reflexivity.
Qed.

Lemma extractClipId_src (ds : string) :
  is_numeral ds ->
  extractClipId (String.append clipNamePrefix ds)
  = if decimal_value ds <=? INT_MAX then Ok (decimal_value ds)
    else Throw (runtime_error ("invalid clip name: " ++ String.append clipNamePrefix ds)).
Proof.
  intros Hds. unfold extractClipId.
  rewrite str_len_app, str_drop_app_len, stoi_numeral by assumption.
  destruct Hds as [Hne _]. destruct ds; [contradiction|].
  cbn [str_len String.length Nat.add Nat.eqb clipNamePrefix].
  destruct (_ <=? INT_MAX); reflexivity.
Qed.

(** X7.  [src] followed by a numeral [N] names clip [N]: the token
    decodes to a load of the current pixel of that clip when [N] fits an
    [int] and is refused as an invalid clip name when it does not.  The
    letter at position [i] of [xyzabc...w] names clip [i], so every
    lower-case letter is a clip name, [x], [y] and [z] are the first
    three clips and [a] is the fourth. *)
Theorem clip_name_tokens (stof : string -> option (float * nat))
    (ds : string) (extended : bool) :
  is_numeral ds ->
  decodeToken stof (String.append clipNamePrefix ds) extended
  = (if decimal_value ds <=? INT_MAX
     then Ok (Op2 MEM_LOAD (ExprUnion_i (decimal_value ds)))
     else Throw (runtime_error ("invalid clip name: "
                                  ++ String.append clipNamePrefix ds)))
  /\ (forall (i : nat) (c : ascii),
        String.get i clip_letters = Some c ->
        decodeToken stof (String c EmptyString) extended
        = Ok (Op2 MEM_LOAD (ExprUnion_i (Z.of_nat i))))
  /\ (forall c : ascii,
        islower c = true -> exists i, String.get i clip_letters = Some c).
Proof.
  intros Hds. split; [|split].
  - unfold decodeToken. rewrite src_not_simple.
    destruct (match_clipNameRe_clip_name (String.append clipNamePrefix ds)) as [clip ->].
    { right. exists ds. split; [assumption | reflexivity]. }
    rewrite extractClipId_src by assumption.
    destruct (_ <=? INT_MAX); reflexivity.
  - intros i c Hi.
    do 26 (destruct i as [|i];
           [cbn in Hi; inversion Hi; subst c; vm_compute; reflexivity|]).
    cbn in Hi. discriminate.
  - intros c Hc. apply islower_range in Hc.
    assert (Hn : exists k, (k < 26)%nat /\ c = ascii_of_nat (97 + k)).
    { exists (Z.to_nat (Z_of_char c - 97)). split; [lia|].
      unfold Z_of_char in *. rewrite <- (ascii_N_embedding c) at 1.
      unfold ascii_of_nat. f_equal. lia. }
    destruct Hn as (k & Hk & ->).
    do 26 (destruct k as [|k];
           [match goal with
            | |- exists i, String.get i clip_letters = Some ?c =>
                let i := eval vm_compute in (index 0 (String c EmptyString) clip_letters) in
                match i with Some ?j => exists j; vm_compute; reflexivity end
            end|]).
    lia.
Qed.

Lemma clip_name_tokens_witness :
  decodeToken no_stof "src26" false = Ok (Op2 MEM_LOAD (ExprUnion_i 26))
  /\ decodeToken no_stof "a" false = Ok (Op2 MEM_LOAD (ExprUnion_i 3)).
Proof.
  assert (H26 : is_numeral "26") by (split; [discriminate | repeat constructor]).
  destruct (clip_name_tokens no_stof "26" false H26) as (Hsrc & Hletter & _).
  split; [exact Hsrc | exact (Hletter 3%nat "a"%char eq_refl)].
Defined.

(** *** Frame properties *)

Lemma has_char_app (c : ascii) (s t : string) :
  has_char c (String.append s t) = has_char c s || has_char c t.
Proof. unfold has_char. rewrite list_ascii_of_append. apply existsb_app. Qed.

Lemma has_char_numeral (c : ascii) (s : string) :
  Forall (fun d => isdigit d = true) (list_ascii_of_string s) ->
  isdigit c = false -> has_char c s = false.
Proof.
  unfold has_char. induction s as [|d s IH]; intros Hs Hc; [reflexivity|].
  cbn [list_ascii_of_string existsb] in *. inversion Hs as [|? ? Hd Hr]; subst.
  rewrite IH by assumption. rewrite Ascii.eqb_sym, (isdigit_not_char d c Hd Hc).
  reflexivity.
Qed.

(** A clip name holds lower-case letters and digits only. *)
Lemma clip_name_has_char (c : ascii) (clip : string) :
  is_clip_name clip -> islower c = false -> isdigit c = false ->
  has_char c clip = false.
Proof.
  intros [(l & Hl & ->)|(ds & [_ Hds] & ->)] Hlow Hdig.
  - unfold has_char. cbn. destruct (Ascii.eqb_spec c l); [subst; congruence | reflexivity].
  - rewrite has_char_app, (has_char_numeral c ds Hds Hdig), orb_false_r.
    unfold has_char. cbn.
    destruct (Ascii.eqb_spec c "s"); [subst; discriminate|].
    destruct (Ascii.eqb_spec c "r"); [subst; discriminate|].
    destruct (Ascii.eqb_spec c "c"); [subst; discriminate|].
    reflexivity.
Qed.

Lemma has_char_not_clip_name (c : ascii) (token : string) :
  islower c = false -> isdigit c = false -> has_char c token = true ->
  match_clipNameRe token = None.
Proof.
  intros Hlow Hdig Hc. destruct (match_clipNameRe token) as [clip|] eqn:E; [|reflexivity].
  apply match_clipNameRe_Some in E.
  rewrite (clip_name_has_char c token E Hlow Hdig) in Hc. discriminate.
Qed.

Lemma str_back_after (p : string) (c : ascii) (s : string) :
  str_back (String.append p (String c s))
  = match s with EmptyString => c | _ => str_back s end.
Proof.
  rewrite str_back_app by discriminate.
  destruct s as [|d s]; [reflexivity|]. apply str_back_cons.
Qed.

Lemma ends_with_mark_after (p : string) (c : ascii) (s : string) :
  Ascii.eqb c "@" || Ascii.eqb c "!" = false ->
  ends_with_mark s = false ->
  ends_with_mark (String.append p (String c s)) = false.
Proof.
  intros Hc Hs. unfold ends_with_mark in *. rewrite str_back_after.
  destruct s; assumption.
Qed.

(** A clip name followed by a character that no counted form has in
    that place is not taken for a counted form. *)
Lemma clip_then_not_counted (clip : string) (c : ascii) (rest : string) :
  is_clip_name clip ->
  islower c = false ->
  let token := String.append clip (String c rest) in
  is_counted_stack_token token = false /\ is_counted_arg_token token = false.
Proof.
  intros [(l & Hl & ->)|(ds & [Hne Hds] & ->)] Hc token; subst token.
  - rewrite append_cons, append_nil_l.
    unfold is_counted_stack_token, is_counted_arg_token.
    rewrite !str_take_S. cbn [String.eqb].
    assert (Hu : Ascii.eqb c "u" = false)
      by (destruct (Ascii.eqb_spec c "u"); [subst; discriminate | reflexivity]).
    assert (Hw : Ascii.eqb c "w" = false)
      by (destruct (Ascii.eqb_spec c "w"); [subst; discriminate | reflexivity]).
    assert (Hr : Ascii.eqb c "r" = false)
      by (destruct (Ascii.eqb_spec c "r"); [subst; discriminate | reflexivity]).
    assert (Ho : Ascii.eqb c "o" = false)
      by (destruct (Ascii.eqb_spec c "o"); [subst; discriminate | reflexivity]).
    rewrite Hu, Hw, Hr, Ho. cbn [andb].
    destruct (Ascii.eqb l "d"), (Ascii.eqb l "s"), (Ascii.eqb l "a"); split; reflexivity.
  - destruct ds as [|d ds]; [contradiction|].
    unfold is_counted_stack_token, is_counted_arg_token, clipNamePrefix.
    rewrite !append_cons, append_nil_l, !str_take_S. cbn [String.eqb].
    replace (Ascii.eqb "s" "d") with false by reflexivity.
    replace (Ascii.eqb "s" "a") with false by reflexivity.
    replace (Ascii.eqb "r" "w") with false by reflexivity.
    replace (Ascii.eqb "r" "o") with false by reflexivity.
    cbn [andb orb]. rewrite ?andb_false_r. split; reflexivity.
Qed.

Lemma match_framePropRe_clip (clip name : string) :
  is_clip_name clip -> no_bracket name = true ->
  match_framePropRe (String.append clip (String "." name)) = Some (clip, name).
Proof.
  intros Hclip Hname. unfold match_framePropRe.
  destruct Hclip as [(l & Hl & ->)|(ds & Hds & ->)].
  - rewrite append_cons, append_nil_l.
    rewrite clip_prefix_splits_letter by (exact Hl || reflexivity).
    cbn [first_match]. rewrite Hname. reflexivity.
  - rewrite append_assoc.
    destruct (clip_prefix_splits_src ds (String "." name) Hds eq_refl) as [others ->].
    cbn [first_match String.append]. rewrite Hname. reflexivity.
Qed.

(** X8.  A clip name, a dot and a property name decode to a read of
    that frame property of that clip: the operation is a [CONST_LOAD]
    whose immediate is [LoadConstType::LAST] plus the clip index and
    whose name is the property name as written.  The property name may
    hold any characters other than square brackets and may be empty; it
    must not end in [@] or [!], which would make the token a variable
    access.  A [src] clip whose number does not fit an [int] is refused
    as an invalid clip name. *)
Theorem frame_property_tokens (stof : string -> option (float * nat))
    (clip name : string) (extended : bool) :
  is_clip_name clip ->
  no_bracket name = true ->
  ends_with_mark name = false ->
  decodeToken stof (String.append clip (String "." name)) extended
  = (id ← extractClipId clip;
     Ok (mkExprOp CONST_LOAD (ExprUnion_i (LoadConstType.LAST + id)) name 0 0 Unspecified)).
Proof.
  intros Hclip Hname Hmark. unfold decodeToken.
  rewrite (simple_find_None (has_char "."))
    by (try (vm_compute; reflexivity); rewrite has_char_app; apply orb_true_r).
  rewrite (has_char_not_clip_name ".")
    by (try reflexivity; rewrite has_char_app; apply orb_true_r).
  pose proof (ends_with_mark_after clip "." name eq_refl Hmark) as Hm.
  unfold ends_with_mark in Hm. rewrite Hm, andb_false_r.
  destruct (clip_then_not_counted clip "." name Hclip eq_refl) as [-> ->].
  rewrite andb_false_r.
  rewrite match_framePropRe_clip by assumption.
  reflexivity.
Qed.

Lemma frame_property_tokens_witness :
  decodeToken no_stof "y._Matrix" false
  = Ok (mkExprOp CONST_LOAD (ExprUnion_i 6) "_Matrix" 0 0 Unspecified).
Proof.
  assert (Hy : is_clip_name "y")
    by (left; exists "y"%char; split; reflexivity).
  apply (frame_property_tokens no_stof "y" "_Matrix" false Hy); reflexivity.
Defined.

(** ** The token decoder: what every decoded operation satisfies *)

Lemma union_i_ExprUnion_i_wrap (z : Z) : union_i (ExprUnion_i z) = wrap_i32 z.
Proof.
  unfold union_i, ExprUnion_i, wrap_i32, wrap_u32.
  rewrite Z.add_mod_idemp_l by lia. reflexivity.
Qed.

Lemma wrap_i32_sub_idemp (a b : Z) : wrap_i32 (wrap_i32 a - b) = wrap_i32 (a - b).
Proof.
  unfold wrap_i32.
  replace ((a + 2 ^ 31) mod 2 ^ 32 - 2 ^ 31 - b + 2 ^ 31)
    with ((a + 2 ^ 31) mod 2 ^ 32 + (- b)) by lia.
  rewrite Z.add_mod_idemp_l by lia.
  f_equal. f_equal. lia.
Qed.

Lemma strto_sign_range (s : string) (v : Z) (n : nat) :
  stoi s = Some (v, n) -> INT_MIN <= v <= INT_MAX.
Proof.
  unfold stoi. destruct (strto 10 s) as [[v' n']|]; [|discriminate].
  destruct (in_i32 v') eqn:E; [|discriminate].
  intros H; inversion H; subst.
  unfold in_i32 in E. apply andb_true_iff in E as [E1 E2].
  apply Z.leb_le in E1, E2. lia.
Qed.

Lemma stoi_guarded_range (s : string) :
  INT_MIN <= fst (stoi_guarded s) <= INT_MAX.
Proof.
  unfold stoi_guarded. destruct (stoi s) as [[v n]|] eqn:E.
  - apply strto_sign_range in E. exact E.
  - cbn. unfold INT_MIN, INT_MAX. lia.
Qed.

(** The clip index of a clip name. *)
Lemma extractClipId_range (clip : string) (id : Z) :
  is_clip_name clip -> extractClipId clip = Ok id -> 0 <= id <= INT_MAX.
Proof.
  intros [(c & Hc & ->)|(ds & Hds & ->)].
  - unfold extractClipId. cbn [str_len String.length Nat.eqb str_at String.get].
    apply islower_range in Hc.
    change (Z_of_char "x") with 120. change (Z_of_char "a") with 97.
    intros H; inversion H; subst; clear H. unfold INT_MAX.
    destruct (Z.leb_spec 120 (Z_of_char c)); lia.
  - rewrite extractClipId_src by assumption.
    destruct Hds as [_ Hd].
    pose proof (decimal_acc_nonneg ds Hd 0 ltac:(lia)) as Hnn.
    fold (decimal_value ds) in Hnn.
    destruct (Z.leb_spec (decimal_value ds) INT_MAX) as [Hle|Hgt]; [|discriminate].
    intros Heq; inversion Heq; subst. lia.
Qed.

Lemma match_framePropRe_Some (token clip name : string) :
  match_framePropRe token = Some (clip, name) -> is_clip_name clip.
Proof.
  unfold match_framePropRe. intros H.
  apply first_match_Some in H as ([c rest] & Hin & Hk).
  apply clip_prefix_splits_sound in Hin as [Hc _].
  destruct rest as [|d name']; [discriminate|].
  destruct (Ascii.eqb_spec d "."); [subst d|].
  - destruct (no_bracket name'); [|discriminate]. inversion Hk; subst. exact Hc.
  - destruct d as [[] [] [] [] [] [] [] []]; try discriminate. contradiction.
Qed.

Lemma match_abspixelRe_Some (token clip : string) :
  match_abspixelRe token = Some clip -> is_clip_name clip.
Proof.
  unfold match_abspixelRe. intros H.
  apply first_match_Some in H as ([c rest] & Hin & Hk).
  apply clip_prefix_splits_sound in Hin as [Hc _].
  destruct (String.eqb rest "[]"); [|discriminate]. inversion Hk; subst. exact Hc.
Qed.

Lemma match_relpixelRe_Some (token clip sx sy flag : string) :
  match_relpixelRe token = Some (clip, sx, sy, flag) -> is_clip_name clip.
Proof.
  unfold match_relpixelRe. intros H.
  apply first_match_Some in H as ([c rest] & Hin & Hk).
  apply clip_prefix_splits_sound in Hin as [Hc _].
  destruct rest as [|d r1]; [discriminate|].
  destruct (Ascii.eqb_spec d "["); [subst d|].
  - destruct (read_signed r1) as [[sx' r2]|]; [|discriminate].
    destruct r2 as [|d2 r2]; [discriminate|].
    destruct (Ascii.eqb_spec d2 ","); [subst d2|].
    + destruct (read_signed r2) as [[sy' r3]|]; [|discriminate].
      destruct r3 as [|d3 r3]; [discriminate|].
      destruct (Ascii.eqb_spec d3 "]"); [subst d3|].
      * destruct (String.eqb r3 "");
          [inversion Hk; subst; exact Hc|].
        destruct (String.eqb r3 ":c" || String.eqb r3 ":m"); [|discriminate].
        inversion Hk; subst; exact Hc.
      * destruct d3 as [[] [] [] [] [] [] [] []]; try discriminate. contradiction.
    + destruct d2 as [[] [] [] [] [] [] [] []]; try discriminate. contradiction.
  - destruct d as [[] [] [] [] [] [] [] []]; try discriminate. contradiction.
Qed.

Lemma str_take_nonempty (n : nat) (s : string) :
  (1 <= n)%nat -> (1 <= str_len s)%nat -> str_take n s <> EmptyString.
Proof.
  intros Hn Hs. destruct n as [|n]; [lia|].
  destruct s as [|c s]; [cbn in Hs; lia|]. rewrite str_take_S. discriminate.
Qed.

Lemma decoded_ok_index (extended : bool) (t : ExprOpType) (id : Z) :
  0 <= id <= INT_MAX ->
  match t with
  | MEM_LOAD | MEM_LOAD_VAR | DUP | SWAP | DROP | SORT => True
  | ARGMIN | ARGMAX | ARGSORT => extended = true
  | _ => False
  end ->
  forall name x y bc,
    decoded_ok extended (mkExprOp t (ExprUnion_i id) name x y bc) = true.
Proof.
  intros Hid Ht name x y bc. unfold decoded_ok. cbn [op_type op_imm].
  rewrite union_i_ExprUnion_i_wrap, wrap_i32_small by (unfold INT_MIN, INT_MAX in *; lia).
  destruct t; try contradiction; try (apply Z.leb_le; lia);
    rewrite Ht; apply Z.leb_le; lia.
Qed.

Lemma decode_number_ok (stof : string -> option (float * nat)) (token : string)
    (extended : bool) (op : ExprOp) :
  decode_number stof token = Ok op -> decoded_ok extended op = true.
Proof.
  unfold decode_number.
  destruct (stoll token 0) as [[l pos]|].
  - destruct (pos =? str_len token)%nat.
    + destruct (wrap_i32 l =? l); [intros H; inversion H; reflexivity|].
      destruct (wrap_u32 l =? l); intros H; inversion H; reflexivity.
    + destruct (stof token) as [[f p]|].
      * destruct (p =? str_len token)%nat; [intros H; inversion H; reflexivity|].
        destruct (0 <? p)%nat; discriminate.
      * destruct (0 =? str_len token)%nat; [intros H; inversion H; reflexivity|].
        cbn. discriminate.
  - destruct (0 =? str_len token)%nat.
    + destruct (wrap_i32 0 =? 0); [intros H; inversion H; reflexivity|].
      destruct (wrap_u32 0 =? 0); intros H; inversion H; reflexivity.
    + destruct (stof token) as [[f p]|].
      * destruct (p =? str_len token)%nat; [intros H; inversion H; reflexivity|].
        destruct (0 <? p)%nat; discriminate.
      * destruct (0 =? str_len token)%nat; [intros H; inversion H; reflexivity|].
        cbn. discriminate.
Qed.

Lemma simple_table_ok (extended : bool) :
  forallb (fun kv => decoded_ok extended (snd kv)) simple = true.
Proof. destruct extended; vm_compute; reflexivity. Qed.

(** Every branch of [decodeToken] in turn. *)
Lemma decodeToken_decoded_ok (stof : string -> option (float * nat))
    (token : string) (extended : bool) (op : ExprOp) :
  decodeToken stof token extended = Ok op -> decoded_ok extended op = true.
Proof.
  unfold decodeToken.
  destruct (simple_find simple token) as [op'|] eqn:Hs.
  { intros H; inversion H; subst op'. apply simple_find_Some in Hs.
    pose proof (simple_table_ok extended) as Hall.
    rewrite forallb_forall in Hall. exact (Hall _ Hs). }
  destruct (match_clipNameRe token) as [clip|] eqn:Hclip.
  { apply match_clipNameRe_Some in Hclip.
    destruct (extractClipId token) as [id|e] eqn:Hid; [|discriminate].
    intros H; inversion H; subst op.
    apply decoded_ok_index; [eapply extractClipId_range; eassumption | exact I]. }
  destruct ((2 <=? str_len token)%nat
            && (Ascii.eqb (str_back token) "@" || Ascii.eqb (str_back token) "!")) eqn:Hvar.
  { intros H; inversion H; subst op; clear H.
    apply andb_true_iff in Hvar as [Hlen _]. apply Nat.leb_le in Hlen.
    unfold decoded_ok, Op3. cbn [op_type op_name].
    assert (Hn : str_take (str_len token - 1) token <> EmptyString)
      by (apply str_take_nonempty; lia).
    destruct (String.eqb_spec (str_take (str_len token - 1) token) "");
      [contradiction|].
    destruct (Ascii.eqb (str_back token) "@"); reflexivity. }
  destruct (is_counted_stack_token token).
  { match goal with
    | |- context [stoi_guarded ?s] =>
        pose proof (stoi_guarded_range s) as Hr; destruct (stoi_guarded s) as [idx count]
    end.
    cbn [fst] in Hr.
    destruct (Z.ltb_spec idx 0) as [Hlt|Hge]; cbn [orb]; [discriminate|].
    destruct (negb _); [discriminate|].
    destruct (Ascii.eqb (str_at token 1) "u");
      [|destruct (Ascii.eqb (str_at token 1) "w");
        [|destruct (Ascii.eqb (str_at token 1) "r")]];
      intros Heq; inversion Heq; subst op; apply decoded_ok_index; try exact I; lia. }
  destruct (extended && is_counted_arg_token token) eqn:Hext.
  { apply andb_true_iff in Hext as [-> _].
    match goal with
    | |- context [stoi_guarded ?s] =>
        pose proof (stoi_guarded_range s) as Hr; destruct (stoi_guarded s) as [idx count]
    end.
    cbn [fst] in Hr.
    destruct (Z.ltb_spec idx 0) as [Hlt|Hge]; cbn [orb]; [discriminate|].
    destruct (negb _); [discriminate|].
    destruct (Ascii.eqb (str_at token 3) "s");
      [|destruct (Ascii.eqb (str_at token 4) "i")];
      intros Heq; inversion Heq; subst op; apply decoded_ok_index; try reflexivity; lia. }
  destruct (match_framePropRe token) as [[clip name]|] eqn:Hprop.
  { apply match_framePropRe_Some in Hprop.
    destruct (extractClipId clip) as [id|e] eqn:Hid; [|discriminate].
    intros H; inversion H; subst op; clear H.
    pose proof (extractClipId_range clip id Hprop Hid) as Hr.
    unfold decoded_ok. cbn [op_type op_imm].
    rewrite union_i_ExprUnion_i_wrap, wrap_i32_sub_idemp.
    replace (LoadConstType.LAST + id - LoadConstType.LAST) with id by lia.
    rewrite (wrap_i32_small id) by (unfold INT_MIN, INT_MAX in *; lia).
    apply orb_true_iff. right. apply Z.leb_le. lia. }
  destruct (match_relpixelRe token) as [[[[clip sx] sy] flag]|] eqn:Hrel.
  { apply match_relpixelRe_Some in Hrel.
    destruct (extractClipId clip) as [id|e] eqn:Hid; [|discriminate].
    intros H; inversion H; subst op.
    apply decoded_ok_index; [eapply extractClipId_range; eassumption | exact I]. }
  destruct (match_abspixelRe token) as [clip|] eqn:Habs.
  { apply match_abspixelRe_Some in Habs.
    destruct (extractClipId clip) as [id|e] eqn:Hid; [|discriminate].
    intros H; inversion H; subst op.
    apply decoded_ok_index; [eapply extractClipId_range; eassumption | exact I]. }
  apply decode_number_ok.
Qed.

(** X9.  Whatever the token, an operation that [decodeToken] returns
    is well formed: a pixel load names a clip index between 0 and
    [INT_MAX]; a [CONST_LOAD] is one of the five built-in constants or a
    frame-property access whose clip index is not negative; a
    comparison carries one of the six comparison codes; [DUP], [SWAP],
    [DROP] and [SORT] carry a count that is not negative; a variable
    access has a non-empty name; and [ARGMIN], [ARGMAX] and [ARGSORT]
    are produced in extended mode only. *)
Theorem decodeToken_ok (stof : string -> option (float * nat))
    (token : string) (extended : bool) (op : ExprOp) :
  decodeToken stof token extended = Ok op -> decoded_ok extended op = true.
Proof. apply decodeToken_decoded_ok. Qed.

Lemma decodeToken_ok_witness :
  decoded_ok false (mkExprOp MEM_LOAD (ExprUnion_i 25) "" (-1) 2 Mirrored) = true.
Proof.
  apply (decodeToken_ok no_stof "w[-1,2]:m" false). vm_compute. reflexivity.
Defined.

(** ** The interpreter: success depends on the shape of the state only *)

Lemma check_stack_length (s1 s2 : list float) (n : Z) :
  length s1 = length s2 -> check_stack s1 n = check_stack s2 n.
Proof. intros H. unfold check_stack. rewrite H. reflexivity. Qed.

Lemma LOAD1_Ok {A : Type} (s r : list A) (x : A) :
  LOAD1 s = Ok (x, r) <-> s = r ++ [x].
Proof.
  unfold LOAD1. split.
  - destruct (rev s) as [|y rest] eqn:E; [discriminate|].
    intros H; inversion H; subst.
    rewrite <- (rev_involutive s), E. reflexivity.
  - intros ->. rewrite rev_app_distr. cbn. rewrite rev_involutive. reflexivity.
Qed.

Lemma LOAD1_shape {A : Type} (s1 s2 r1 : list A) (x1 : A) :
  length s1 = length s2 -> LOAD1 s1 = Ok (x1, r1) ->
  exists x2 r2, LOAD1 s2 = Ok (x2, r2) /\ length r1 = length r2.
Proof.
  intros Hlen H. apply LOAD1_Ok in H. subst s1.
  destruct s2 as [|y s2] using rev_ind.
  - rewrite length_app in Hlen. cbn in Hlen. lia.
  - exists y, s2. split; [apply LOAD1_Ok; reflexivity|].
    rewrite !length_app in Hlen. cbn in Hlen. lia.
Qed.

Lemma LOAD2_shape {A : Type} (s1 s2 r1 : list A) (l1 x1 : A) :
  length s1 = length s2 -> LOAD2 s1 = Ok (l1, x1, r1) ->
  exists l2 x2 r2, LOAD2 s2 = Ok (l2, x2, r2) /\ length r1 = length r2.
Proof.
  intros Hlen. unfold LOAD2.
  destruct (LOAD1 s1) as [[a ra]|e] eqn:E1; [|discriminate].
  cbn [mbind result_bind].
  destruct (LOAD1 ra) as [[b rb]|e] eqn:E2; [|discriminate].
  cbn [mbind result_bind]. intros H; inversion H; subst.
  destruct (LOAD1_shape s1 s2 ra x1 Hlen E1) as (a2 & ra2 & -> & Hl1).
  destruct (LOAD1_shape ra ra2 r1 l1 Hl1 E2) as (b2 & rb2 & Hb & Hl2).
  cbn [mbind result_bind]. rewrite Hb. cbn [mbind result_bind].
  exists b2, a2, rb2. split; [reflexivity | assumption].
Qed.

Lemma dup_n_shape {A : Type} (n : Z) (s1 s2 s1' : list A) :
  length s1 = length s2 -> dup_n n s1 = Ok s1' ->
  exists s2', dup_n n s2 = Ok s2' /\ length s1' = length s2'.
Proof.
  intros Hlen H. pose proof (dup_n_length n s1 s1' H) as Hl.
  unfold dup_n, stack_top_index in *. rewrite <- Hlen.
  destruct (Z.leb_spec (Z.of_nat (length s1)) n); [discriminate|].
  destruct (s1 !! _) as [x|] eqn:Ex; [|discriminate].
  apply lookup_lt_Some in Ex.
  destruct (lookup_lt_is_Some_2 s2 (length s1 - 1 - Z.to_nat n)) as [v Hv]; [lia|].
  rewrite Hv. eexists. split; [reflexivity|]. rewrite length_app. cbn. lia.
Qed.

Lemma swap_n_shape {A : Type} (n : Z) (s1 s2 s1' : list A) :
  length s1 = length s2 -> swap_n n s1 = Ok s1' ->
  exists s2', swap_n n s2 = Ok s2' /\ length s1' = length s2'.
Proof.
  intros Hlen H. pose proof (swap_n_length n s1 s1' H) as Hl.
  unfold swap_n, stack_top_index in *. rewrite <- Hlen.
  destruct (Z.leb_spec (Z.of_nat (length s1)) n); [discriminate|].
  destruct (s1 !! (length s1 - 1 - Z.to_nat 0)%nat) as [x|] eqn:Ex; [|discriminate].
  destruct (s1 !! (length s1 - 1 - Z.to_nat n)%nat) as [y|] eqn:Ey; [|discriminate].
  apply lookup_lt_Some in Ex, Ey.
  destruct (lookup_lt_is_Some_2 s2 (length s1 - 1 - Z.to_nat 0)) as [a Ha]; [lia|].
  destruct (lookup_lt_is_Some_2 s2 (length s1 - 1 - Z.to_nat n)) as [b Hb]; [lia|].
  rewrite Ha, Hb. eexists. split; [reflexivity|]. rewrite !length_insert. lia.
Qed.

Lemma pop_n_shape {A : Type} (n : Z) (s1 s2 s1' : list A) :
  length s1 = length s2 -> pop_n n s1 = Ok s1' ->
  exists s2', pop_n n s2 = Ok s2' /\ length s1' = length s2'.
Proof.
  intros Hlen H. unfold pop_n in *. rewrite <- Hlen.
  destruct (Z.ltb_spec (Z.of_nat (length s1)) n); [discriminate|].
  inversion H; subst. eexists. split; [reflexivity|].
  rewrite !length_take. lia.
Qed.

Lemma same_shape_push (s1 s2 : list float) (v1 v2 : gmap string float) (x1 x2 : float) :
  length s1 = length s2 -> (forall k, is_Some (v1 !! k) <-> is_Some (v2 !! k)) ->
  same_shape (s1 ++ [x1], v1) (s2 ++ [x2], v2).
Proof.
  intros Hl Hv. split; [|exact Hv]. cbn [fst]. rewrite !length_app, Hl. reflexivity.
Qed.

Section Shape.

Variable libm : HostMath.
Variables N1 N2 width height Y1 X1 Y2 X2 : Z.
Variables pixelGet1 pixelGet2 : ExprOp -> Z -> Z -> result float.
Variables propGet1 propGet2 : Z -> string -> result float.

(** The second environment answers wherever the first one does. *)
Hypothesis pixels_answer : forall op v,
  pixelGet1 op Y1 X1 = Ok v -> exists w, pixelGet2 op Y2 X2 = Ok w.
Hypothesis props_answer : forall idx name v,
  0 <= idx -> propGet1 idx name = Ok v -> exists w, propGet2 idx name = Ok w.

Let run1 := interp_op libm N1 width height Y1 X1 pixelGet1 propGet1.
Let run2 := interp_op libm N2 width height Y2 X2 pixelGet2 propGet2.

Lemma I_BINARYOP_shape (f g : float -> float -> float) (a b a' : ISt) :
  same_shape a b -> I_BINARYOP f a = Ok a' ->
  exists b', I_BINARYOP g b = Ok b' /\ same_shape a' b'.
Proof.
  intros [Hl Hv]. unfold I_BINARYOP.
  rewrite (check_stack_length _ _ 2 Hl).
  destruct (check_stack (fst b) 2); [|discriminate]. cbn [mbind result_bind].
  destruct (LOAD2 (fst a)) as [[[l r] s]|e] eqn:E; [|discriminate].
  cbn [mbind result_bind]. intros H; inversion H; subst.
  destruct (LOAD2_shape _ _ _ _ _ Hl E) as (l2 & r2 & s2 & -> & Hs).
  cbn [mbind result_bind]. eexists. split; [reflexivity|].
  apply same_shape_push; assumption.
Qed.

Lemma I_UNARYOP_shape (f g : float -> float) (a b a' : ISt) :
  same_shape a b -> I_UNARYOP f a = Ok a' ->
  exists b', I_UNARYOP g b = Ok b' /\ same_shape a' b'.
Proof.
  intros [Hl Hv]. unfold I_UNARYOP.
  rewrite (check_stack_length _ _ 1 Hl).
  destruct (check_stack (fst b) 1); [|discriminate]. cbn [mbind result_bind].
  destruct (LOAD1 (fst a)) as [[x s]|e] eqn:E; [|discriminate].
  cbn [mbind result_bind]. intros H; inversion H; subst.
  destruct (LOAD1_shape _ _ _ _ Hl E) as (x2 & s2 & -> & Hs).
  cbn [mbind result_bind]. eexists. split; [reflexivity|].
  apply same_shape_push; assumption.
Qed.

(** One operation: if it succeeds in the first environment it succeeds
    in the second, from any state of the same shape, and leaves states
    of the same shape. *)
Lemma interp_op_shape (op : ExprOp) (a b a' : ISt) :
  decoded_ok true op = true ->
  same_shape a b -> run1 op a = Ok a' ->
  exists b', run2 op b = Ok b' /\ same_shape a' b'.
Proof.
  intros Hok Hsh. subst run1 run2.
  pose proof Hsh as [Hl Hv].
  destruct a as [s1 v1], b as [s2 v2]. cbn [fst snd] in Hl, Hv.
  unfold interp_op, decoded_ok in *.
  destruct (op_type op) eqn:Ht;
    try (apply I_BINARYOP_shape; exact Hsh);
    try (apply I_UNARYOP_shape; exact Hsh);
    try (unfold I_LOGICOP; apply I_BINARYOP_shape; exact Hsh);
    try (unfold I_BITWISEOP; apply I_BINARYOP_shape; exact Hsh).
  - (* MEM_LOAD *)
    destruct (pixelGet1 op Y1 X1) as [v|e] eqn:E; [|discriminate].
    cbn [mbind result_bind]. intros H; inversion H; subst.
    destruct (pixels_answer op v E) as [w ->]. cbn [mbind result_bind].
    eexists. split; [reflexivity|]. apply same_shape_push; assumption.
  - (* MEM_LOAD_VAR *)
    destruct (pixelGet1 op Y1 X1) as [v|e] eqn:E; [|discriminate].
    cbn [mbind result_bind]. intros H; inversion H; subst.
    destruct (pixels_answer op v E) as [w ->]. cbn [mbind result_bind].
    eexists. split; [reflexivity|]. apply same_shape_push; assumption.
  - (* CONSTANTI *)
    intros H; inversion H; subst. eexists. split; [reflexivity|].
    apply same_shape_push; assumption.
  - (* CONSTANTF *)
    intros H; inversion H; subst. eexists. split; [reflexivity|].
    apply same_shape_push; assumption.
  - (* CONST_LOAD *)
    set (c := union_i (op_imm op)) in *.
    destruct (c =? LoadConstType.N) eqn:E0;
      [intros H; inversion H; subst; eexists; split; [reflexivity|];
       apply same_shape_push; assumption|].
    destruct (c =? LoadConstType.Y) eqn:E2;
      [intros H; inversion H; subst; eexists; split; [reflexivity|];
       apply same_shape_push; assumption|].
    destruct (c =? LoadConstType.X) eqn:E1;
      [intros H; inversion H; subst; eexists; split; [reflexivity|];
       apply same_shape_push; assumption|].
    destruct (c =? LoadConstType.Width) eqn:E3;
      [intros H; inversion H; subst; eexists; split; [reflexivity|];
       apply same_shape_push; assumption|].
    destruct (c =? LoadConstType.Height) eqn:E4;
      [intros H; inversion H; subst; eexists; split; [reflexivity|];
       apply same_shape_push; assumption|].
    assert (Hidx : 0 <= wrap_i32 (c - LoadConstType.LAST)).
    { apply orb_true_iff in Hok as [Hb|Hb]; [|apply Z.leb_le; exact Hb].
      apply andb_true_iff in Hb as [Hb1 Hb2].
      apply Z.leb_le in Hb1. apply Z.ltb_lt in Hb2.
      apply Z.eqb_neq in E0, E1, E2, E3, E4.
      unfold LoadConstType.N, LoadConstType.X, LoadConstType.Y, LoadConstType.Width,
        LoadConstType.Height, LoadConstType.LAST in *. lia. }
    destruct (propGet1 _ (op_name op)) as [v|e] eqn:E; [|discriminate].
    cbn [mbind result_bind]. intros H; inversion H; subst.
    destruct (props_answer _ _ v Hidx E) as [w ->]. cbn [mbind result_bind].
    eexists. split; [reflexivity|]. apply same_shape_push; assumption.
  - (* VAR_LOAD *)
    destruct (v1 !! op_name op) as [x|] eqn:E; [|discriminate].
    intros H; inversion H; subst.
    destruct (proj1 (Hv (op_name op)) (ex_intro _ x E)) as [y ->].
    eexists. split; [reflexivity|]. apply same_shape_push; assumption.
  - (* VAR_STORE *)
    destruct (LOAD1 s1) as [[x s]|e] eqn:E; [|discriminate].
    cbn [mbind result_bind]. intros H; inversion H; subst.
    destruct (LOAD1_shape _ _ _ _ Hl E) as (x2 & r2 & -> & Hs).
    cbn [mbind result_bind]. eexists. split; [reflexivity|].
    split; [exact Hs|]. cbn [snd]. intros k.
    destruct (decide (op_name op = k)) as [->|Hne].
    + rewrite !lookup_insert_eq. split; eauto.
    + rewrite !lookup_insert_ne by assumption. apply Hv.
  - (* CLAMP *)
    rewrite (check_stack_length _ _ 3 Hl).
    destruct (check_stack s2 3); [|discriminate]. cbn [mbind result_bind].
    destruct (LOAD2 s1) as [[[mn mx] s]|e] eqn:E; [|discriminate].
    cbn [mbind result_bind].
    destruct (LOAD1 s) as [[x s']|e] eqn:E'; [|discriminate].
    cbn [mbind result_bind]. intros H; inversion H; subst.
    destruct (LOAD2_shape _ _ _ _ _ Hl E) as (l2 & r2 & t2 & -> & Hs).
    cbn [mbind result_bind].
    destruct (LOAD1_shape _ _ _ _ Hs E') as (x2 & t2' & -> & Hs').
    cbn [mbind result_bind]. eexists. split; [reflexivity|].
    apply same_shape_push; assumption.
  - (* CMP *)
    rewrite (check_stack_length _ _ 2 Hl).
    destruct (check_stack s2 2); [|discriminate]. cbn [mbind result_bind].
    destruct (LOAD2 s1) as [[[l r] s]|e] eqn:E; [|discriminate].
    cbn [mbind result_bind].
    destruct (LOAD2_shape _ _ _ _ _ Hl E) as (l2 & r2 & t2 & -> & Hs).
    cbn [mbind result_bind].
    unfold I_CMP.
    repeat match goal with
           | |- context [if ?c =? ?k then _ else _] => destruct (c =? k)
           end;
      cbn [mbind result_bind]; try discriminate;
      intros H; inversion H; subst; eexists; (split; [reflexivity|]);
      apply same_shape_push; assumption.
  - (* TERNARY *)
    rewrite (check_stack_length _ _ 3 Hl).
    destruct (check_stack s2 3); [|discriminate]. cbn [mbind result_bind].
    destruct (LOAD2 s1) as [[[t f] s]|e] eqn:E; [|discriminate].
    cbn [mbind result_bind].
    destruct (LOAD1 s) as [[x s']|e] eqn:E'; [|discriminate].
    cbn [mbind result_bind]. intros H; inversion H; subst.
    destruct (LOAD2_shape _ _ _ _ _ Hl E) as (l2 & r2 & t2 & -> & Hs).
    cbn [mbind result_bind].
    destruct (LOAD1_shape _ _ _ _ Hs E') as (x2 & t2' & -> & Hs').
    cbn [mbind result_bind]. eexists. split; [reflexivity|].
    apply same_shape_push; assumption.
  - (* SORT *)
    rewrite (check_stack_length _ _ _ Hl).
    destruct (check_stack s2 _); [|discriminate]. cbn [mbind result_bind].
    rewrite <- Hl.
    destruct (Z.ltb_spec (Z.of_nat (length s1)) (union_u (op_imm op))) as [Hlt|Hge]; [discriminate|].
    intros H; inversion H; subst. eexists. split; [reflexivity|].
    split; [|exact Hv]. cbn [fst].
    rewrite !length_app, !std_sort_length, !length_take, !length_drop. lia.
  - (* DUP *)
    rewrite (check_stack_length _ _ _ Hl).
    destruct (check_stack s2 _); [|discriminate]. cbn [mbind result_bind].
    destruct (dup_n _ s1) as [s1'|e] eqn:E; [|discriminate].
    cbn [mbind result_bind]. intros H; inversion H; subst.
    destruct (dup_n_shape _ _ _ _ Hl E) as (s2' & -> & Hs).
    cbn [mbind result_bind]. eexists. split; [reflexivity|]. split; assumption.
  - (* SWAP *)
    rewrite (check_stack_length _ _ _ Hl).
    destruct (check_stack s2 _); [|discriminate]. cbn [mbind result_bind].
    destruct (swap_n _ s1) as [s1'|e] eqn:E; [|discriminate].
    cbn [mbind result_bind]. intros H; inversion H; subst.
    destruct (swap_n_shape _ _ _ _ Hl E) as (s2' & -> & Hs).
    cbn [mbind result_bind]. eexists. split; [reflexivity|]. split; assumption.
  - (* DROP *)
    rewrite (check_stack_length _ _ _ Hl).
    destruct (check_stack s2 _); [|discriminate]. cbn [mbind result_bind].
    destruct (pop_n _ s1) as [s1'|e] eqn:E; [|discriminate].
    cbn [mbind result_bind]. intros H; inversion H; subst.
    destruct (pop_n_shape _ _ _ _ Hl E) as (s2' & -> & Hs).
    cbn [mbind result_bind]. eexists. split; [reflexivity|]. split; assumption.
  - (* ARGMIN *)
    rewrite (check_stack_length _ _ _ Hl).
    destruct (check_stack s2 _); [|discriminate]. cbn [mbind result_bind].
    rewrite <- Hl.
    destruct ((Z.of_nat (length s1) <? union_u (op_imm op)) || (union_u (op_imm op) =? 0))
      eqn:Ec; [discriminate|].
    apply orb_false_iff in Ec as [Ec1 Ec2].
    apply Z.ltb_ge in Ec1. apply Z.eqb_neq in Ec2.
    assert (Hu : 0 <= union_u (op_imm op))
      by (unfold union_u, wrap_u32; apply Z.mod_pos_bound; lia).
    destruct (drop _ s1) as [|c1 xs1] eqn:E1; [discriminate|].
    intros H; inversion H; subst.
    destruct (drop (length s1 - Z.to_nat (union_u (op_imm op))) s2) as [|c2 xs2] eqn:E2.
    { apply (f_equal length) in E2. rewrite length_drop in E2. cbn in E2. lia. }
    eexists. split; [reflexivity|]. split; [|exact Hv]. cbn [fst].
    rewrite !length_app, !length_take. cbn. lia.
  - (* ARGMAX *)
    rewrite (check_stack_length _ _ _ Hl).
    destruct (check_stack s2 _); [|discriminate]. cbn [mbind result_bind].
    rewrite <- Hl.
    destruct ((Z.of_nat (length s1) <? union_u (op_imm op)) || (union_u (op_imm op) =? 0))
      eqn:Ec; [discriminate|].
    apply orb_false_iff in Ec as [Ec1 Ec2].
    apply Z.ltb_ge in Ec1. apply Z.eqb_neq in Ec2.
    assert (Hu : 0 <= union_u (op_imm op))
      by (unfold union_u, wrap_u32; apply Z.mod_pos_bound; lia).
    destruct (drop _ s1) as [|c1 xs1] eqn:E1; [discriminate|].
    intros H; inversion H; subst.
    destruct (drop (length s1 - Z.to_nat (union_u (op_imm op))) s2) as [|c2 xs2] eqn:E2.
    { apply (f_equal length) in E2. rewrite length_drop in E2. cbn in E2. lia. }
    eexists. split; [reflexivity|]. split; [|exact Hv]. cbn [fst].
    rewrite !length_app, !length_take. cbn. lia.
  - (* ARGSORT *)
    rewrite (check_stack_length _ _ _ Hl).
    destruct (check_stack s2 _); [|discriminate]. cbn [mbind result_bind].
    rewrite <- Hl.
    destruct (Z.ltb_spec (Z.of_nat (length s1)) (union_u (op_imm op))) as [Hlt|Hge]; [discriminate|].
    intros H; inversion H; subst. eexists. split; [reflexivity|].
    split; [|exact Hv]. cbn [fst].
    rewrite !length_app, !length_map, !std_stable_sort_length, !length_seq,
      !length_take, !length_drop. lia.
Qed.

Lemma interp_loop_shape (ops : list ExprOp) : forall a b a',
  Forall (fun op => decoded_ok true op = true) ops ->
  same_shape a b ->
  interp_loop libm N1 width height Y1 X1 pixelGet1 propGet1 ops a = Ok a' ->
  exists b',
    interp_loop libm N2 width height Y2 X2 pixelGet2 propGet2 ops b = Ok b'
    /\ same_shape a' b'.
Proof.
  induction ops as [|op ops IH]; intros a b a' Hok Hsh; cbn [interp_loop].
  - intros H; inversion H; subst. exists b. split; [reflexivity | assumption].
  - inversion Hok as [|? ? Hop Hrest]; subst.
    destruct (interp_op libm N1 width height Y1 X1 pixelGet1 propGet1 op a)
      as [a1|e] eqn:E; [|discriminate].
    cbn [mbind result_bind]. intros H.
    destruct (interp_op_shape op a b a1 Hop Hsh E) as (b1 & Hb & Hsh1).
    subst run1 run2. rewrite Hb. cbn [mbind result_bind].
    apply (IH a1 b1 a' Hrest Hsh1 H).
Qed.

Lemma interpret_shape (ops : list ExprOp) (v : float) :
  Forall (fun op => decoded_ok true op = true) ops ->
  interpret libm N1 width height Y1 X1 pixelGet1 propGet1 ops = Ok v ->
  exists w, interpret libm N2 width height Y2 X2 pixelGet2 propGet2 ops = Ok w.
Proof.
  intros Hok. unfold interpret.
  destruct (interp_loop libm N1 _ _ _ _ _ _ ops ([], ∅)) as [a'|e] eqn:E; [|discriminate].
  cbn [mbind result_bind].
  destruct (interp_loop_shape ops ([], ∅) ([], ∅) a' Hok) as (b' & -> & [Hl _]);
    [split; [reflexivity | tauto] | exact E |].
  cbn [mbind result_bind].
  destruct (fst a') as [|x [|y r]] eqn:Ea; try discriminate.
  intros _. destruct (fst b') as [|x2 [|y2 r2]]; cbn in Hl; try lia.
  eexists. reflexivity.
Qed.

End Shape.

(** ** Select and PropExpr: an accepted expression never fails *)

Lemma decode_all_decoded_ok (stof : string -> option (float * nat)) (extended : bool)
    (tokens : list string) : forall ops,
  decode_all stof extended (fun op => op) tokens = Ok ops ->
  Forall (fun op => decoded_ok extended op = true) ops.
Proof.
  induction tokens as [|tok tokens IH]; intros ops; cbn [decode_all].
  - intros H; inversion H; subst. constructor.
  - destruct (decodeToken stof tok extended) as [op|e] eqn:E; [|discriminate].
    cbn [mbind result_bind].
    destruct (decode_all stof extended _ tokens) as [ops'|e]; [|discriminate].
    cbn [mbind result_bind]. intros H; inversion H; subst.
    constructor; [eapply decodeToken_decoded_ok; eassumption | apply IH; reflexivity].
Qed.

(** The frame-time [propGet] answers for every clip index the
    creation-time [propGet] lets through. *)
Lemma frame_propGet_answers (props : list (gmap string VSProp)) (numInputs : Z)
    (e : exn) (idx : Z) (name : string) (v : float) :
  Z.of_nat (length props) = numInputs ->
  0 <= idx ->
  (if numInputs <=? idx then Throw e else Ok Float32.zero) = Ok v ->
  exists w, frame_propGet props idx name = Ok w.
Proof.
  intros Hlen Hidx. destruct (Z.leb_spec numInputs idx) as [Hge|Hlt]; [discriminate|].
  intros _. unfold frame_propGet.
  destruct (Z.ltb_spec idx 0) as [Hneg|_]; [lia|].
  destruct (lookup_lt_is_Some_2 props (Z.to_nat idx)) as [m ->]; [lia|].
  eexists. reflexivity.
Qed.

(** X10.  PropExpr: an expression that [propExprCreate] accepted is
    evaluated without error at every frame.  The run at creation time
    (frame number 0, no pixel access, property reads checked against the
    number of clips) stands for all later runs: at frame time, with one
    property map per clip, [interpret] returns a value, so the guard
    that replaces a failed evaluation by [0.0f] is never taken. *)
Theorem propExpr_accepted_expression_evaluates
    (stof : string -> option (float * nat)) (libm : HostMath)
    (key expr : string) (numInputs width height : Z) (ops : list ExprOp)
    (props : list (gmap string VSProp)) (n : Z) :
  propExprCreate_ops stof libm key numInputs width height expr = Ok ops ->
  expr <> EmptyString ->
  Z.of_nat (length props) = numInputs ->
  exists v,
    interpret libm n width height (-1) (-1)
              (fun _ _ _ => Ok Float32.zero) (frame_propGet props) ops = Ok v
    /\ frame_interpret libm n width height props ops = Ok v.
Proof.
  intros Hc Hne Hlen. unfold propExprCreate_ops in Hc.
  destruct expr as [|c expr]; [contradiction|].
  cbn [str_len String.length Nat.eqb negb] in Hc.
  destruct (decode_all stof true _ _) as [ops'|e] eqn:Hd; [|discriminate].
  cbn [mbind result_bind] in Hc.
  destruct (interpret libm 0 _ _ _ _ _ _ ops') as [v0|e] eqn:Hi; [|discriminate].
  cbn [mbind result_bind] in Hc. inversion Hc; subst ops'; clear Hc.
  apply decode_all_decoded_ok in Hd.
  assert (Hw : exists w,
             interpret libm n width height (-1) (-1)
                       (fun _ _ _ => Ok Float32.zero) (frame_propGet props) ops = Ok w).
  { refine (interpret_shape libm 0 n width height (-1) (-1) (-1) (-1)
              _ _ _ _ _ _ ops v0 Hd Hi).
    - intros op v H. discriminate.
    - intros idx name v Hidx H. eapply frame_propGet_answers; eassumption. }
  destruct Hw as [w Hw].
  exists w. split; [exact Hw|]. unfold frame_interpret. rewrite Hw. reflexivity.
Qed.

Lemma propExpr_accepted_expression_evaluates_witness :
  exists v,
    interpret example_libm 7 4 3 (-1) (-1)
              (fun _ _ _ => Ok Float32.zero) (frame_propGet example_props)
              [Op2 CONST_LOAD (ExprUnion_i LoadConstType.N);
               Op2 CONSTANTI (ExprUnion_i 2); Op1 MUL] = Ok v
    /\ frame_interpret example_libm 7 4 3 example_props
         [Op2 CONST_LOAD (ExprUnion_i LoadConstType.N);
          Op2 CONSTANTI (ExprUnion_i 2); Op1 MUL] = Ok v.
Proof.
  apply (propExpr_accepted_expression_evaluates no_stof example_libm "K" "N 2 *" 1 4 3).
  - vm_compute. reflexivity.
  - discriminate.
  - reflexivity.
Defined.

(** X11.  Select: an expression that [selectCreate] accepted is
    evaluated without error at every frame, and the clip it selects for
    the plane is an index into the source clips: the value is rounded,
    converted and clamped to [0 .. numSrc - 1]. *)
Theorem select_accepted_expression_selects
    (stof : string -> option (float * nat)) (libm : HostMath)
    (expr : string) (numPropInputs width height numSrc : Z) (ops : list ExprOp)
    (props : list (gmap string VSProp)) (n : Z) :
  selectCreate_ops stof libm numPropInputs width height expr = Ok ops ->
  Z.of_nat (length props) = numPropInputs ->
  1 <= numSrc ->
  exists v k,
    interpret libm n width height (-1) (-1)
              (fun _ _ _ => Ok Float32.zero) (frame_propGet props) ops = Ok v
    /\ selectedClip libm n width height props numSrc ops = Ok k
    /\ k = Z.max 0 (Z.min (Float32.to_int32 (c_round libm v)) (numSrc - 1))
    /\ 0 <= k < numSrc.
Proof.
  intros Hc Hlen Hsrc. unfold selectCreate_ops in Hc.
  destruct (decode_all stof true _ _) as [ops'|e] eqn:Hd; [|discriminate].
  cbn [mbind result_bind] in Hc.
  destruct (interpret libm 0 _ _ _ _ _ _ ops') as [v0|e] eqn:Hi; [|discriminate].
  cbn [mbind result_bind] in Hc. inversion Hc; subst ops'; clear Hc.
  apply decode_all_decoded_ok in Hd.
  assert (Hw : exists w,
             interpret libm n width height (-1) (-1)
                       (fun _ _ _ => Ok Float32.zero) (frame_propGet props) ops = Ok w).
  { refine (interpret_shape libm 0 n width height (-1) (-1) (-1) (-1)
              _ _ _ _ _ _ ops v0 Hd Hi).
    - intros op v H. discriminate.
    - intros idx name v Hidx H. eapply frame_propGet_answers; eassumption. }
  destruct Hw as [w Hw].
  exists w. eexists. split; [exact Hw|].
  unfold selectedClip, frame_interpret. rewrite Hw.
  cbn [catch_runtime_error mbind result_bind].
  split; [reflexivity|]. split; [reflexivity | lia].
Qed.

Lemma select_accepted_expression_selects_witness :
  selectedClip example_libm 7 4 3 example_props 2
    [Op2 CONST_LOAD (ExprUnion_i LoadConstType.N); Op2 CONSTANTI (ExprUnion_i 2); Op1 MUL]
  = Ok 1.
Proof.
  assert (Hc : selectCreate_ops no_stof example_libm 1 4 3 "N 2 *"
               = Ok [Op2 CONST_LOAD (ExprUnion_i LoadConstType.N);
                     Op2 CONSTANTI (ExprUnion_i 2); Op1 MUL])
    by (vm_compute; reflexivity).
  assert (Hs : 1 <= 2) by lia.
  destruct (select_accepted_expression_selects no_stof example_libm "N 2 *" 1 4 3 2
              _ example_props 7 Hc eq_refl Hs)
    as (v & k & Hv & Hk & Hkv & _).
  rewrite Hk. f_equal. subst k.
  vm_compute in Hv. inversion Hv; subst v. vm_compute. reflexivity.
Defined.

(** *** The frames Select requests *)

Lemma select_requests_spec (sel : list Z) : forall earlier,
  NoDup (select_requests earlier sel)
  /\ forall k, In k (select_requests earlier sel) <-> In k sel /\ ~ In k earlier.
Proof.
  induction sel as [|s sel IH]; intros earlier; cbn [select_requests].
  - split; [constructor|]. intros k. cbn. tauto.
  - destruct (IH (earlier ++ [s])) as [Hnd Hin].
    assert (Hex : existsb (Z.eqb s) earlier = true <-> In s earlier).
    { rewrite existsb_exists. split.
      - intros (x & Hx & E). apply Z.eqb_eq in E. subst. exact Hx.
      - intros Hs. exists s. split; [exact Hs | apply Z.eqb_refl]. }
    destruct (existsb (Z.eqb s) earlier) eqn:E.
    + split; [exact Hnd|]. intros k. rewrite Hin, in_app_iff. cbn [In].
      destruct (Z.eq_dec s k) as [->|Hne]; [|tauto].
      pose proof (proj1 Hex eq_refl). tauto.
    + assert (Hs : ~ In s earlier) by (intros Hs; apply Hex in Hs; discriminate).
      split.
      * constructor; [|exact Hnd]. rewrite list_elem_of_In, Hin, in_app_iff. cbn [In]. tauto.
      * intros k. cbn [In]. rewrite Hin, in_app_iff. cbn [In].
        destruct (Z.eq_dec s k) as [->|Hne]; tauto.
Qed.

(** X12.  Select asks for every selected clip exactly once: the
    requests made after the planes' clips are chosen hold each chosen
    clip, no other clip, and none of them twice, also when several
    planes choose the same clip. *)
Theorem select_requests_once (selectedClip : list Z) :
  NoDup (select_requests [] selectedClip)
  /\ forall k, In k (select_requests [] selectedClip) <-> In k selectedClip.
Proof.
  destruct (select_requests_spec selectedClip []) as [Hnd Hin].
  split; [exact Hnd|]. intros k. rewrite Hin. cbn [In]. tauto.
Qed.

(** ** The compiler driver: numbering of property accesses and variables *)

Lemma index_of_Some {K : Type} `{EqDecision K} (k : K) (l : list K) (i : nat) :
  index_of k l = Some i -> l !! i = Some k.
Proof.
  revert i. induction l as [|k' l IH]; intros i; cbn [index_of]; [discriminate|].
  destruct (decide (k' = k)) as [->|Hne].
  - intros H; inversion H; subst. reflexivity.
  - destruct (index_of k l) as [j|]; [|discriminate].
    cbn. intros H; inversion H; subst. cbn. apply IH. reflexivity.
Qed.

Lemma index_of_None {K : Type} `{EqDecision K} (k : K) (l : list K) :
  index_of k l = None -> k ∉ l.
Proof.
  induction l as [|k' l IH]; cbn [index_of]; intros H.
  - apply not_elem_of_nil.
  - destruct (decide (k' = k)) as [->|Hne]; [discriminate|].
    destruct (index_of k l) as [j|]; [discriminate|].
    apply not_elem_of_cons. split; [congruence | apply IH; reflexivity].
Qed.

(** [intern] finds the key or appends it: either way the number it
    returns is the key's place in the table. *)
Lemma intern_spec {K : Type} `{EqDecision K} (k : K) (tbl tbl' : list K) (idx : Z) :
  intern k tbl = (tbl', idx) ->
  exists i : nat,
    idx = Z.of_nat i
    /\ tbl' !! i = Some k
    /\ (exists new, tbl' = tbl ++ new /\ (length new <= 1)%nat)
    /\ (NoDup tbl -> NoDup tbl').
Proof.
  unfold intern. destruct (index_of k tbl) as [i|] eqn:E.
  - intros H; inversion H; subst. exists i. split; [reflexivity|].
    split; [apply index_of_Some, E|]. split; [|auto].
    exists []. rewrite app_nil_r. split; [reflexivity | cbn; lia].
  - intros H; inversion H; subst. exists (length tbl). split; [reflexivity|].
    split; [rewrite lookup_app_r by lia; rewrite Nat.sub_diag; reflexivity|].
    split; [exists [k]; split; [reflexivity | cbn; lia]|].
    intros Hnd. apply NoDup_app. split; [exact Hnd|]. split.
    + intros x Hx Hk. apply list_elem_of_singleton in Hk. subst x.
      apply index_of_None in E. contradiction.
    + apply NoDup_singleton.
Qed.

Lemma index_props_spec (numInputs : Z) (ops : list ExprOp) :
  forall toks paMap ops' pa,
    index_props numInputs toks ops paMap = Ok (ops', pa) ->
    (exists new, pa = paMap ++ new /\ (length new <= length ops)%nat)
    /\ length ops' = length ops
    /\ (NoDup paMap -> NoDup pa)
    /\ forall i op,
         ops !! i = Some op ->
         if is_prop_access op
         then exists k : nat,
                ops' !! i = Some (set_imm_i op (LoadConstType.LAST + Z.of_nat k))
                /\ pa !! k = Some (prop_access_key op)
                /\ fst (prop_access_key op) < numInputs
         else ops' !! i = Some op.
Proof.
  induction ops as [|op ops IH]; intros toks paMap ops' pa; cbn [index_props].
  - intros H; inversion H; subst. split; [exists []; rewrite app_nil_r; auto|].
    split; [reflexivity|]. split; [auto|]. intros i op Hi. discriminate.
  - destruct (negb (bool_decide (op_type op = CONST_LOAD))
              || (union_i (op_imm op) <? LoadConstType.LAST)) eqn:Hskip.
    + destruct (index_props numInputs (tl toks) ops paMap) as [[r pa0]|e] eqn:E;
        [|discriminate].
      cbn [mbind result_bind]. intros H; inversion H; subst.
      destruct (IH _ _ _ _ E) as ((new & -> & Hnew) & Hlen & Hnd & Hops).
      split; [exists new; split; [reflexivity | cbn; lia]|].
      split; [cbn; rewrite Hlen; reflexivity|]. split; [exact Hnd|].
      intros [|i] op0 Hi; cbn in Hi.
      * inversion Hi; subst op0. unfold is_prop_access.
        apply orb_true_iff in Hskip as [Hs|Hs].
        -- apply negb_true_iff in Hs. rewrite Hs. reflexivity.
        -- rewrite Hs, andb_false_r. reflexivity.
      * apply (Hops i op0 Hi).
    + apply orb_false_iff in Hskip as [Hs1 Hs2]. apply negb_false_iff in Hs1.
      set (id := wrap_i32 (union_i (op_imm op) - LoadConstType.LAST)) in *.
      destruct (Z.leb_spec numInputs id) as [Hge|Hlt]; [discriminate|].
      destruct (intern (id, op_name op) paMap) as [paMap' idx] eqn:Ei.
      destruct (index_props numInputs (tl toks) ops paMap') as [[r pa0]|e] eqn:E;
        [|discriminate].
      cbn [mbind result_bind]. intros H; inversion H; subst.
      destruct (intern_spec _ _ _ _ Ei) as (k & -> & Hk & (new1 & -> & Hn1) & Hnd1).
      destruct (IH _ _ _ _ E) as ((new & -> & Hnew) & Hlen & Hnd & Hops).
      split.
      { exists (new1 ++ new). rewrite app_assoc. split; [reflexivity|].
        rewrite length_app. cbn [length]. clear - Hn1 Hnew.
        unfold PropAccess in *. lia. }
      split; [cbn; rewrite Hlen; reflexivity|]. split; [auto|].
      intros [|i] op0 Hi; cbn in Hi.
      * inversion Hi; subst op0. unfold is_prop_access. rewrite Hs1, Hs2. cbn [andb negb].
        exists k. split; [reflexivity|]. split; [|exact Hlt].
        apply lookup_app_l_Some. exact Hk.
      * apply (Hops i op0 Hi).
Qed.

(** X13.  The first loop of [compile] numbers the frame properties an
    expression reads.  When it succeeds, the table it returns holds no
    entry twice, every operation that is not a property access is left
    as it was, and every property access is rewritten so that its
    immediate, less [LoadConstType::LAST], is the place in the table of
    the clip and property name the operation named; that clip index is
    below the number of inputs. *)
Theorem index_props_numbering (numInputs : Z) (toks : list string)
    (ops ops' : list ExprOp) (pa : list PropAccess) :
  index_props numInputs toks ops [] = Ok (ops', pa) ->
  NoDup pa
  /\ length ops' = length ops
  /\ (length pa <= length ops)%nat
  /\ forall i op,
       ops !! i = Some op ->
       if is_prop_access op
       then exists k : nat,
              ops' !! i = Some (set_imm_i op (LoadConstType.LAST + Z.of_nat k))
              /\ pa !! k = Some (prop_access_key op)
              /\ fst (prop_access_key op) < numInputs
       else ops' !! i = Some op.
Proof.
  intros H. destruct (index_props_spec _ _ _ _ _ _ H) as ((new & -> & Hnew) & Hlen & Hnd & Hops).
  split; [apply Hnd; constructor|]. split; [exact Hlen|]. split; [exact Hnew|]. exact Hops.
Qed.

Lemma index_props_numbering_witness :
  index_props 2 ["y.a"; "x.b"; "y.a"; "+"; "+"]%string
    [mkExprOp CONST_LOAD (ExprUnion_i 6) "a" 0 0 Unspecified;
     mkExprOp CONST_LOAD (ExprUnion_i 5) "b" 0 0 Unspecified;
     mkExprOp CONST_LOAD (ExprUnion_i 6) "a" 0 0 Unspecified;
     Op1 ADD; Op1 ADD] []
  = Ok ([mkExprOp CONST_LOAD (ExprUnion_i 5) "a" 0 0 Unspecified;
         mkExprOp CONST_LOAD (ExprUnion_i 6) "b" 0 0 Unspecified;
         mkExprOp CONST_LOAD (ExprUnion_i 5) "a" 0 0 Unspecified;
         Op1 ADD; Op1 ADD],
        [(1, "a"%string); (0, "b"%string)])
  /\ NoDup [(1, "a"%string); (0, "b"%string)].
Proof.
  assert (H : index_props 2 ["y.a"; "x.b"; "y.a"; "+"; "+"]%string
                [mkExprOp CONST_LOAD (ExprUnion_i 6) "a" 0 0 Unspecified;
                 mkExprOp CONST_LOAD (ExprUnion_i 5) "b" 0 0 Unspecified;
                 mkExprOp CONST_LOAD (ExprUnion_i 6) "a" 0 0 Unspecified;
                 Op1 ADD; Op1 ADD] []
              = Ok ([mkExprOp CONST_LOAD (ExprUnion_i 5) "a" 0 0 Unspecified;
                     mkExprOp CONST_LOAD (ExprUnion_i 6) "b" 0 0 Unspecified;
                     mkExprOp CONST_LOAD (ExprUnion_i 5) "a" 0 0 Unspecified;
                     Op1 ADD; Op1 ADD],
                    [(1, "a"%string); (0, "b"%string)]))
    by (vm_compute; reflexivity).
  split; [exact H|].
  exact (proj1 (index_props_numbering _ _ _ _ _ H)).
Defined.

Lemma index_vars_spec (ops : list ExprOp) :
  forall toks vm0 ops' vm,
    index_vars toks ops vm0 = Ok (ops', vm) ->
    (exists new, vm = vm0 ++ new /\ (length new <= length ops)%nat)
    /\ length ops' = length ops
    /\ (NoDup vm0 -> NoDup vm)
    /\ forall i op,
         ops !! i = Some op ->
         if is_var_access op
         then exists k : nat,
                ops' !! i = Some (set_imm_i op (Z.of_nat k))
                /\ vm !! k = Some (op_name op)
                /\ (op_type op = VAR_LOAD ->
                    op_name op ∈ vm0
                    \/ exists j opj,
                         (j < i)%nat /\ ops !! j = Some opj
                         /\ op_type opj = VAR_STORE /\ op_name opj = op_name op)
         else ops' !! i = Some op.
Proof.
  induction ops as [|op ops IH]; intros toks vm0 ops' vm; cbn [index_vars].
  - intros H; inversion H; subst. split; [exists []; rewrite app_nil_r; auto|].
    split; [reflexivity|]. split; [auto|]. intros i op Hi. discriminate.
  - destruct (negb (bool_decide (op_type op = VAR_LOAD))
              && negb (bool_decide (op_type op = VAR_STORE))) eqn:Hskip.
    + destruct (index_vars (tl toks) ops vm0) as [[r vm1]|e] eqn:E; [|discriminate].
      cbn [mbind result_bind]. intros H; inversion H; subst.
      destruct (IH _ _ _ _ E) as ((new & -> & Hnew) & Hlen & Hnd & Hops).
      split; [exists new; split; [reflexivity | cbn [length]; lia]|].
      split; [cbn [length]; rewrite Hlen; reflexivity|]. split; [exact Hnd|].
      intros [|i] op0 Hi; cbn in Hi.
      * inversion Hi; subst op0. unfold is_var_access.
        apply andb_true_iff in Hskip as [Hs1 Hs2].
        apply negb_true_iff in Hs1, Hs2. rewrite Hs1, Hs2. reflexivity.
      * specialize (Hops i op0 Hi). destruct (is_var_access op0); [|exact Hops].
        destruct Hops as (k & Hk1 & Hk2 & Hk3). exists k.
        split; [exact Hk1|]. split; [exact Hk2|].
        intros Hl. destruct (Hk3 Hl) as [Hin|(j & opj & Hj & Hoj & Hs & Hn)];
          [left; exact Hin|].
        right. exists (S j), opj. split; [lia|]. split; [exact Hoj|]. auto.
    + assert (Hva : is_var_access op = true).
      { unfold is_var_access. apply andb_false_iff in Hskip as [Hs|Hs];
          apply negb_false_iff in Hs; rewrite Hs; [reflexivity | apply orb_true_r]. }
      destruct (index_of (op_name op) vm0) as [k|] eqn:Ek.
      * destruct (index_vars (tl toks) ops vm0) as [[r vm1]|e] eqn:E; [|discriminate].
        cbn [mbind result_bind]. intros H; inversion H; subst.
        destruct (IH _ _ _ _ E) as ((new & -> & Hnew) & Hlen & Hnd & Hops).
        apply index_of_Some in Ek.
        split; [exists new; split; [reflexivity | cbn [length]; lia]|].
        split; [cbn [length]; rewrite Hlen; reflexivity|]. split; [exact Hnd|].
        intros [|i] op0 Hi; cbn in Hi.
        -- inversion Hi; subst op0. rewrite Hva. exists k.
           split; [reflexivity|]. split; [apply lookup_app_l_Some; exact Ek|].
           intros _. left. eapply list_elem_of_lookup_2. exact Ek.
        -- specialize (Hops i op0 Hi). destruct (is_var_access op0); [|exact Hops].
           destruct Hops as (k' & Hk1 & Hk2 & Hk3). exists k'.
           split; [exact Hk1|]. split; [exact Hk2|].
           intros Hl. destruct (Hk3 Hl) as [Hin|(j & opj & Hj & Hoj & Hs & Hn)];
             [left; exact Hin|].
           right. exists (S j), opj. split; [lia|]. split; [exact Hoj|]. auto.
      * destruct (bool_decide (op_type op = VAR_LOAD)) eqn:Hload; [discriminate|].
        assert (Hstore : op_type op = VAR_STORE).
        { unfold is_var_access in Hva. rewrite Hload in Hva. cbn [orb] in Hva.
          apply bool_decide_eq_true in Hva. exact Hva. }
        destruct (index_vars (tl toks) ops (vm0 ++ [op_name op])) as [[r vm1]|e] eqn:E;
          [|discriminate].
        cbn [mbind result_bind]. intros H; inversion H; subst.
        destruct (IH _ _ _ _ E) as ((new & -> & Hnew) & Hlen & Hnd & Hops).
        apply index_of_None in Ek.
        split.
        { exists ([op_name op] ++ new). rewrite app_assoc. split; [reflexivity|].
          rewrite length_app. cbn [length]. lia. }
        split; [cbn [length]; rewrite Hlen; reflexivity|].
        split.
        { intros Hnd0. apply Hnd. apply NoDup_app. split; [exact Hnd0|]. split.
          - intros x Hx Hx'. apply list_elem_of_singleton in Hx'. subst x. contradiction.
          - apply NoDup_singleton. }
        intros [|i] op0 Hi; cbn in Hi.
        -- inversion Hi; subst op0. rewrite Hva. exists (length vm0).
           split; [reflexivity|]. split.
           ++ apply lookup_app_l_Some. rewrite lookup_app_r by lia.
              rewrite Nat.sub_diag. reflexivity.
           ++ intros Hl. rewrite Hl in Hstore. discriminate.
        -- specialize (Hops i op0 Hi). destruct (is_var_access op0); [|exact Hops].
           destruct Hops as (k' & Hk1 & Hk2 & Hk3). exists k'.
           split; [exact Hk1|]. split; [exact Hk2|].
           intros Hl. destruct (Hk3 Hl) as [Hin|(j & opj & Hj & Hoj & Hs & Hn)].
           ++ apply elem_of_app in Hin as [Hin|Hin]; [left; exact Hin|].
              apply list_elem_of_singleton in Hin.
              right. exists O, op. split; [lia|]. split; [reflexivity|]. auto.
           ++ right. exists (S j), opj. split; [lia|]. split; [exact Hoj|]. auto.
Qed.

(** X14.  The second loop of [compile] numbers the variables.  When it
    succeeds, every variable access is rewritten to carry the place of
    its name in the table of variables, the table holds no name twice,
    everything else is left as it was, and every load of a variable
    comes after a store to the same variable: an expression that reads
    a variable before any store to it does not compile. *)
Theorem index_vars_numbering (toks : list string) (ops ops' : list ExprOp)
    (varMap : list string) :
  index_vars toks ops [] = Ok (ops', varMap) ->
  NoDup varMap
  /\ length ops' = length ops
  /\ (length varMap <= length ops)%nat
  /\ forall i op,
       ops !! i = Some op ->
       if is_var_access op
       then exists k : nat,
              ops' !! i = Some (set_imm_i op (Z.of_nat k))
              /\ varMap !! k = Some (op_name op)
              /\ (op_type op = VAR_LOAD ->
                  exists j opj,
                    (j < i)%nat /\ ops !! j = Some opj
                    /\ op_type opj = VAR_STORE /\ op_name opj = op_name op)
       else ops' !! i = Some op.
Proof.
  intros H. destruct (index_vars_spec _ _ _ _ _ H) as ((new & -> & Hnew) & Hlen & Hnd & Hops).
  split; [apply Hnd; constructor|]. split; [exact Hlen|]. split; [exact Hnew|].
  intros i op Hi. specialize (Hops i op Hi). destruct (is_var_access op); [|exact Hops].
  destruct Hops as (k & Hk1 & Hk2 & Hk3). exists k.
  split; [exact Hk1|]. split; [exact Hk2|].
  intros Hl. destruct (Hk3 Hl) as [Hin|Hex]; [|exact Hex].
  apply elem_of_nil in Hin. contradiction.
Qed.

Lemma index_vars_numbering_witness :
  index_vars ["x"; "a!"; "a@"; "a@"; "*"]%string
    [Op2 MEM_LOAD (ExprUnion_i 0); Op3 VAR_STORE (ExprUnion_i (-1)) "a";
     Op3 VAR_LOAD (ExprUnion_i (-1)) "a"; Op3 VAR_LOAD (ExprUnion_i (-1)) "a"; Op1 MUL] []
  = Ok ([Op2 MEM_LOAD (ExprUnion_i 0); Op3 VAR_STORE (ExprUnion_i 0) "a";
         Op3 VAR_LOAD (ExprUnion_i 0) "a"; Op3 VAR_LOAD (ExprUnion_i 0) "a"; Op1 MUL],
        ["a"%string])
  /\ NoDup ["a"%string].
Proof.
  assert (H : index_vars ["x"; "a!"; "a@"; "a@"; "*"]%string
                [Op2 MEM_LOAD (ExprUnion_i 0); Op3 VAR_STORE (ExprUnion_i (-1)) "a";
                 Op3 VAR_LOAD (ExprUnion_i (-1)) "a"; Op3 VAR_LOAD (ExprUnion_i (-1)) "a";
                 Op1 MUL] []
              = Ok ([Op2 MEM_LOAD (ExprUnion_i 0); Op3 VAR_STORE (ExprUnion_i 0) "a";
                     Op3 VAR_LOAD (ExprUnion_i 0) "a"; Op3 VAR_LOAD (ExprUnion_i 0) "a";
                     Op1 MUL],
                    ["a"%string]))
    by (vm_compute; reflexivity).
  split; [exact H|].
  exact (proj1 (index_vars_numbering _ _ _ _ H)).
Defined.

(** ** The code generator stays within its containers *)

Lemma union_u_of_nonneg (p : ExprUnion) : 0 <= union_i p -> union_u p = union_i p.
Proof.
  unfold union_i, union_u, wrap_i32, wrap_u32. intros H.
  pose proof (Z.mod_pos_bound p (2 ^ 32) ltac:(lia)) as Hb.
  rewrite <- (Z.add_mod_idemp_l p) in H |- * by lia.
  destruct (Z.lt_ge_cases (p mod 2 ^ 32) (2 ^ 31)) as [Hlt|Hge].
  - rewrite (Z.mod_small (p mod 2 ^ 32 + 2 ^ 31)) by lia. lia.
  - replace (p mod 2 ^ 32 + 2 ^ 31) with ((p mod 2 ^ 32 - 2 ^ 31) + 1 * 2 ^ 32) in H by lia.
    rewrite Z.mod_add in H by lia.
    rewrite (Z.mod_small (p mod 2 ^ 32 - 2 ^ 31)) in H by lia. lia.
Qed.

Lemma LOAD1_total {A : Type} (s : list A) :
  (1 <= length s)%nat -> exists x r, LOAD1 s = Ok (x, r) /\ length s = S (length r).
Proof.
  intros H. destruct s as [|y s] using rev_ind; [cbn in H; lia|].
  exists y, s. split; [apply LOAD1_Ok; reflexivity|].
  rewrite length_app. cbn. lia.
Qed.

Lemma LOAD2_total {A : Type} (s : list A) :
  (2 <= length s)%nat ->
  exists l r s', LOAD2 s = Ok (l, r, s') /\ length s = S (S (length s')).
Proof.
  intros H. unfold LOAD2.
  destruct (LOAD1_total s ltac:(lia)) as (r & s1 & -> & H1).
  cbn [mbind result_bind].
  destruct (LOAD1_total s1 ltac:(lia)) as (l & s2 & -> & H2).
  cbn [mbind result_bind]. exists l, r, s2. split; [reflexivity | lia].
Qed.

Lemma cmp_in_range_le (n m : Z) (cmp : Z * Z) :
  n <= m -> cmp_in_range n cmp -> cmp_in_range m cmp.
Proof. unfold cmp_in_range. lia. Qed.

(** A comparator inside the stack either goes through or meets
    operands of two kinds. *)
Lemma sort_cmp_benign rr (stack : list Value) (cmp : Z * Z) :
  cmp_in_range (Z.of_nat (length stack)) cmp ->
  match sort_cmp rr stack cmp with
  | Ok stack' => length stack' = length stack
  | Throw e => e = bad_variant_access
  end.
Proof.
  intros [Ha Hb]. unfold sort_cmp.
  destruct (lookup_lt_is_Some_2 stack (stack_top_index stack (fst cmp))) as [va Hva];
    [apply stack_top_index_lt; lia|].
  destruct (lookup_lt_is_Some_2 stack (stack_top_index stack (snd cmp))) as [vb Hvb];
    [apply stack_top_index_lt; lia|].
  rewrite (proj2 (stack_at_Ok stack (fst cmp) va)) by (split; [lia | exact Hva]).
  rewrite (proj2 (stack_at_Ok stack (snd cmp) vb)) by (split; [lia | exact Hvb]).
  cbn [mbind result_bind].
  destruct va as [x cx|x cx], vb as [y cy|y cy]; cbn;
    rewrite ?length_insert; reflexivity.
Qed.

Lemma sort_apply_benign rr (sn : SortingNetwork) : forall stack : list Value,
  Forall (cmp_in_range (Z.of_nat (length stack))) sn ->
  match sort_apply rr sn stack with
  | Ok stack' => length stack' = length stack
  | Throw e => e = bad_variant_access
  end.
Proof.
  induction sn as [|cmp sn IH]; intros stack Hsn; cbn [sort_apply]; [reflexivity|].
  inversion Hsn as [|? ? Hc Hr]; subst.
  pose proof (sort_cmp_benign rr stack cmp Hc) as H1.
  destruct (sort_cmp rr stack cmp) as [s1|e]; cbn [mbind result_bind]; [|exact H1].
  specialize (IH s1). rewrite H1 in IH. specialize (IH Hr).
  destruct (sort_apply rr sn s1); [congruence | exact IH].
Qed.

Lemma check_validity_Ok (ctx : Context) (tok : string) (op : ExprOp) (size : nat) :
  check_validity ctx tok op size = Ok () ->
  (exists k, numOperands (op_type op) = Ok k /\ (k <= size)%nat)
  /\ (op_type op = MEM_LOAD -> union_i (op_imm op) < ctx_numInputs ctx)
  /\ (op_type op = DUP \/ op_type op = SWAP -> union_u (op_imm op) < Z.of_nat size)
  /\ (op_type op = DROP \/ op_type op = SORT -> union_u (op_imm op) <= Z.of_nat size).
Proof.
  unfold check_validity.
  destruct (bool_decide (op_type op = MEM_LOAD)) eqn:E1.
  - apply bool_decide_eq_true in E1. rewrite E1. cbn [andb].
    destruct (Z.leb_spec (ctx_numInputs ctx) (union_i (op_imm op))) as [Hge|Hlt];
      [discriminate|].
    rewrite !bool_decide_eq_false_2 by discriminate. cbn [orb andb numOperands].
    cbn [mbind result_bind]. intros _.
    split; [exists O; split; [reflexivity | lia]|].
    split; [auto|]. split; intros [H|H]; discriminate.
  - apply bool_decide_eq_false in E1. cbn [andb].
    destruct ((bool_decide (op_type op = DUP) || bool_decide (op_type op = SWAP))
              && (Z.of_nat size <=? union_u (op_imm op))) eqn:E2; [discriminate|].
    destruct ((bool_decide (op_type op = DROP) || bool_decide (op_type op = SORT))
              && (Z.of_nat size <? union_u (op_imm op))) eqn:E3; [discriminate|].
    destruct (numOperands (op_type op)) as [k|e] eqn:Ek; [|discriminate].
    cbn [mbind result_bind].
    destruct (Nat.ltb_spec size k) as [Hlt|Hge]; [discriminate|]. intros _.
    split; [exists k; split; [reflexivity | lia]|].
    split; [intros H; contradiction|].
    split.
    + intros H. apply andb_false_iff in E2 as [E2|E2].
      * apply orb_false_iff in E2 as [Ea Eb].
        apply bool_decide_eq_false in Ea, Eb. tauto.
      * apply Z.leb_gt in E2. exact E2.
    + intros H. apply andb_false_iff in E3 as [E3|E3].
      * apply orb_false_iff in E3 as [Ea Eb].
        apply bool_decide_eq_false in Ea, Eb. tauto.
      * apply Z.ltb_ge in E3. exact E3.
Qed.

Lemma check_validity_benign (ctx : Context) (tok : string) (op : ExprOp) (size : nat)
    (nvars : nat) (e : exn) :
  jit_ok (ctx_numInputs ctx) nvars op = true ->
  check_validity ctx tok op size = Throw e -> benign e.
Proof.
  intros Hok H. unfold check_validity in H.
  destruct (bool_decide (op_type op = MEM_LOAD)
            && (ctx_numInputs ctx <=? union_i (op_imm op)));
    [inversion H; exact I|].
  destruct ((bool_decide (op_type op = DUP) || bool_decide (op_type op = SWAP))
            && (Z.of_nat size <=? union_u (op_imm op)));
    [inversion H; exact I|].
  destruct ((bool_decide (op_type op = DROP) || bool_decide (op_type op = SORT))
            && (Z.of_nat size <? union_u (op_imm op)));
    [inversion H; exact I|].
  unfold jit_ok in Hok.
  destruct (op_type op); cbn [numOperands mbind result_bind] in H;
    try discriminate;
    match type of H with
    | (if ?c then _ else _) = _ => destruct c; inversion H; exact I
    end.
Qed.

Lemma BINARYOP_Ok (fop : float -> float -> float) (iop : Z -> Z -> Z) (force : bool)
    (stack : list Value) :
  (2 <= length stack)%nat -> exists s', BINARYOP fop iop force stack = Ok s'.
Proof.
  intros H. unfold BINARYOP. destruct (LOAD2_total stack H) as (l & r & s' & -> & _).
  cbn [mbind result_bind]. destruct l, r, force; eexists; reflexivity.
Qed.

Lemma UNARYOP_Ok (fop : float -> float) (iop : Z -> Z) (force : bool)
    (stack : list Value) :
  (1 <= length stack)%nat -> exists s', UNARYOP fop iop force stack = Ok s'.
Proof.
  intros H. unfold UNARYOP. destruct (LOAD1_total stack H) as (x & s' & -> & _).
  cbn [mbind result_bind]. destruct x, force; eexists; reflexivity.
Qed.

Lemma UNARYOPF_Ok (fop : float -> float) (stack : list Value) :
  (1 <= length stack)%nat -> exists s', UNARYOPF fop stack = Ok s'.
Proof.
  intros H. unfold UNARYOPF. destruct (LOAD1_total stack H) as (x & s' & -> & _).
  cbn [mbind result_bind]. eexists; reflexivity.
Qed.

Lemma LOGICOP_Ok rr (iop : Z -> Z -> Z) (stack : list Value) :
  (2 <= length stack)%nat -> exists s', LOGICOP rr iop stack = Ok s'.
Proof.
  intros H. unfold LOGICOP. destruct (LOAD2_total stack H) as (l & r & s' & -> & _).
  cbn [mbind result_bind]. eexists; reflexivity.
Qed.

Lemma BITWISEOP_Ok rr (iop : Z -> Z -> Z) (stack : list Value) :
  (2 <= length stack)%nat -> exists s', BITWISEOP rr iop stack = Ok s'.
Proof.
  intros H. unfold BITWISEOP. destruct (LOAD2_total stack H) as (l & r & s' & -> & _).
  cbn [mbind result_bind]. eexists; reflexivity.
Qed.

Lemma comparison_code (code : Z) :
  existsb (Z.eqb code) [0; 1; 2; 4; 5; 6] = true ->
  code = ComparisonType.EQ \/ code = ComparisonType.LT \/ code = ComparisonType.LE
  \/ code = ComparisonType.NEQ \/ code = ComparisonType.NLT \/ code = ComparisonType.NLE.
Proof.
  cbn [existsb]. rewrite !orb_true_iff, !Z.eqb_eq.
  unfold ComparisonType.EQ, ComparisonType.LT, ComparisonType.LE, ComparisonType.NEQ,
    ComparisonType.NLT, ComparisonType.NLE. intuition discriminate || tauto.
Qed.

Lemma FCmp_Ok rr (code : Z) (l r : float) :
  existsb (Z.eqb code) [0; 1; 2; 4; 5; 6] = true -> exists z, FCmp rr code l r = Ok z.
Proof.
  intros H. apply comparison_code in H.
  destruct H as [-> | [-> | [-> | [-> | [-> | ->]]]]]; eexists; reflexivity.
Qed.

Lemma ICmp_Ok (code : Z) (l r : Z) :
  existsb (Z.eqb code) [0; 1; 2; 4; 5; 6] = true -> exists z, ICmp code l r = Ok z.
Proof.
  intros H. apply comparison_code in H.
  destruct H as [-> | [-> | [-> | [-> | [-> | ->]]]]]; eexists; reflexivity.
Qed.

Lemma vi_format_Ok (ctx : Context) (i : Z) :
  0 <= i < Z.of_nat (length (ctx_vi ctx)) -> exists f, vi_format ctx i = Ok f.
Proof.
  intros H. unfold vi_format. destruct (Z.ltb_spec i 0) as [Hlt|Hge]; [lia|].
  destruct (lookup_lt_is_Some_2 (ctx_vi ctx) (Z.to_nat i)) as [f ->]; [lia|].
  eexists. reflexivity.
Qed.

Ltac use_total :=
  match goal with
  | |- context [BINARYOP ?f ?i ?b ?s] =>
      let s' := fresh "s'" in
      destruct (BINARYOP_Ok f i b s) as [s' ->]; [lia|]
  | |- context [UNARYOP ?f ?i ?b ?s] =>
      let s' := fresh "s'" in
      destruct (UNARYOP_Ok f i b s) as [s' ->]; [lia|]
  | |- context [UNARYOPF ?f ?s] =>
      let s' := fresh "s'" in
      destruct (UNARYOPF_Ok f s) as [s' ->]; [lia|]
  | |- context [LOGICOP ?r ?i ?s] =>
      let s' := fresh "s'" in
      destruct (LOGICOP_Ok r i s) as [s' ->]; [lia|]
  | |- context [BITWISEOP ?r ?i ?s] =>
      let s' := fresh "s'" in
      destruct (BITWISEOP_Ok r i s) as [s' ->]; [lia|]
  end.

(** One operation that passed the validity checks: the switch of
    [buildOneIter] pops and indexes within the stack, [state.variables]
    and [ctx.vi]; the one exception left is the [std::get] of a [SORT]
    over values of two kinds. *)
Lemma emit_op_safe rr helpers (ctx : Context) env (tok : string) (op : ExprOp)
    (stack vars : list Value) :
  jit_ok (ctx_numInputs ctx) (length vars) op = true ->
  Z.of_nat (length (ctx_vi ctx)) = ctx_numInputs ctx ->
  check_validity ctx tok op (length stack) = Ok () ->
  match emit_op rr helpers ctx env op (stack, vars) with
  | Ok (_, vars') => length vars' = length vars
  | Throw e => e = bad_variant_access
  end.
Proof.
  intros Hok Hvi Hchk.
  destruct (check_validity_Ok ctx tok op (length stack) Hchk)
    as ((k & Hk & Hsz) & Hload & Hdup & Hdrop).
  unfold emit_op, jit_ok in *.
  destruct (op_type op) eqn:Ht; cbv beta iota zeta in Hok |- *;
    cbn [numOperands] in Hk; try discriminate Hk;
    injection Hk as Hk; subst k;
    try (use_total; cbn [mbind result_bind]; reflexivity).
  - (* MEM_LOAD *)
    apply Z.leb_le in Hok.
    destruct (vi_format_Ok ctx (union_i (op_imm op))) as [f ->];
      [specialize (Hload eq_refl); lia|].
    cbn [mbind result_bind]. destruct (sampleType f); reflexivity.
  - (* MEM_LOAD_VAR *)
    apply andb_true_iff in Hok as [H0 H1]. apply Z.leb_le in H0. apply Z.ltb_lt in H1.
    destruct (LOAD2_total stack Hsz) as (l & r & s' & -> & _).
    cbn [mbind result_bind].
    destruct (vi_format_Ok ctx (union_i (op_imm op))) as [f ->]; [lia|].
    cbn [mbind result_bind]. destruct (sampleType f); reflexivity.
  - (* CONSTANTI *)
    reflexivity.
  - (* CONSTANTF *)
    destruct (Float32.eqb _ _); reflexivity.
  - (* CONST_LOAD *)
    repeat match goal with
           | |- context [if ?c =? ?k then _ else _] => destruct (c =? k)
           end; reflexivity.
  - (* VAR_LOAD *)
    apply andb_true_iff in Hok as [H0 H1]. apply Z.leb_le in H0. apply Z.ltb_lt in H1.
    destruct (Z.ltb_spec (union_i (op_imm op)) 0) as [Hlt|Hge]; [lia|].
    destruct (lookup_lt_is_Some_2 vars (Z.to_nat (union_i (op_imm op)))) as [v ->]; [lia|].
    reflexivity.
  - (* VAR_STORE *)
    apply andb_true_iff in Hok as [H0 H1]. apply Z.leb_le in H0. apply Z.ltb_lt in H1.
    destruct (LOAD1_total stack Hsz) as (x & s' & -> & _).
    cbn [mbind result_bind].
    destruct (Z.ltb_spec (union_i (op_imm op)) 0) as [Hlt|Hge]; [lia|].
    destruct (Z.leb_spec (Z.of_nat (length vars)) (union_i (op_imm op))) as [Hle|Hgt];
      [lia|].
    cbn [orb]. apply length_insert.
  - (* CLAMP *)
    destruct (LOAD2_total stack ltac:(lia)) as (mn & mx & s1 & -> & Hl1).
    cbn [mbind result_bind].
    destruct (LOAD1_total s1 ltac:(lia)) as (x & s2 & -> & _).
    cbn [mbind result_bind].
    destruct x, mn, mx; cbn [isFloat orb]; try reflexivity.
    destruct (forceFloat ctx); reflexivity.
  - (* CMP *)
    destruct (LOAD2_total stack Hsz) as (l & r & s' & -> & _).
    cbn [mbind result_bind].
    destruct (isFloat l || isFloat r) eqn:Hf.
    + destruct (FCmp_Ok rr (union_u (op_imm op)) (ensureFloat l) (ensureFloat r) Hok)
        as [z ->].
      reflexivity.
    + apply orb_false_iff in Hf as [Hl Hr].
      destruct l as [li cl|? ?]; [|discriminate].
      destruct r as [ri cr|? ?]; [|discriminate].
      cbn [Value_i mbind result_bind].
      destruct (ICmp_Ok (union_u (op_imm op)) li ri Hok) as [z ->]. reflexivity.
  - (* NOT *)
    destruct (LOAD1_total stack Hsz) as (x & s' & -> & _). reflexivity.
  - (* BITNOT *)
    destruct (LOAD1_total stack Hsz) as (x & s' & -> & _). reflexivity.
  - (* POW *)
    destruct (LOAD2_total stack Hsz) as (l & r & s' & -> & _).
    cbn [mbind result_bind]. destruct r; [destruct (rr_IsConstant rr _)|]; reflexivity.
  - (* TERNARY *)
    destruct (LOAD2_total stack ltac:(lia)) as (t & f & s1 & -> & Hl1).
    cbn [mbind result_bind].
    destruct (LOAD1_total s1 ltac:(lia)) as (c & s2 & -> & _).
    cbn [mbind result_bind]. destruct t, f; reflexivity.
  - (* SORT *)
    apply Z.leb_le in Hok. pose proof (union_u_of_nonneg _ Hok) as Hu.
    specialize (Hdrop (or_intror eq_refl)).
    pose proof (sort_apply_benign rr (buildSortNet (union_i (op_imm op))) stack) as Hs.
    destruct (sort_apply rr _ stack) as [s'|e]; cbn [mbind result_bind].
    + reflexivity.
    + apply Hs. eapply Forall_impl; [apply buildSortNet_in_range|].
      intros cmp Hc. eapply cmp_in_range_le; [|exact Hc]. lia.
  - (* DUP *)
    specialize (Hdup (or_introl eq_refl)).
    assert (Hu : 0 <= union_u (op_imm op))
      by (unfold union_u, wrap_u32; apply Z.mod_pos_bound; lia).
    unfold dup_n, stack_top_index.
    destruct (Z.leb_spec (Z.of_nat (length stack)) (union_u (op_imm op))) as [Hle|Hgt];
      [lia|].
    destruct (lookup_lt_is_Some_2 stack
                (length stack - 1 - Z.to_nat (union_u (op_imm op)))) as [v ->]; [lia|].
    reflexivity.
  - (* SWAP *)
    specialize (Hdup (or_intror eq_refl)).
    assert (Hu : 0 <= union_u (op_imm op))
      by (unfold union_u, wrap_u32; apply Z.mod_pos_bound; lia).
    unfold swap_n, stack_top_index.
    destruct (Z.leb_spec (Z.of_nat (length stack)) (union_u (op_imm op))) as [Hle|Hgt];
      [lia|].
    destruct (lookup_lt_is_Some_2 stack (length stack - 1 - Z.to_nat 0)) as [a ->]; [lia|].
    destruct (lookup_lt_is_Some_2 stack
                (length stack - 1 - Z.to_nat (union_u (op_imm op)))) as [b ->]; [lia|].
    reflexivity.
  - (* DROP *)
    specialize (Hdrop (or_introl eq_refl)). unfold pop_n.
    destruct (Z.ltb_spec (Z.of_nat (length stack)) (union_u (op_imm op))) as [Hlt|Hge];
      [lia|].
    reflexivity.
Qed.

Lemma build_step_safe rr helpers (ctx : Context) env (tok : string) (op : ExprOp)
    (stack vars : list Value) :
  jit_ok (ctx_numInputs ctx) (length vars) op = true ->
  Z.of_nat (length (ctx_vi ctx)) = ctx_numInputs ctx ->
  match build_step rr helpers ctx env tok op (stack, vars) with
  | Ok (_, vars') => length vars' = length vars
  | Throw e => benign e
  end.
Proof.
  intros Hok Hvi. unfold build_step. cbn [fst].
  destruct (check_validity ctx tok op (length stack)) as [[]|e] eqn:Hc;
    cbn [mbind result_bind].
  - pose proof (emit_op_safe rr helpers ctx env tok op stack vars Hok Hvi Hc) as H.
    destruct (emit_op rr helpers ctx env op (stack, vars)) as [[s' v']|e];
      [exact H | subst e; exact I].
  - eapply check_validity_benign; eassumption.
Qed.

Lemma build_loop_safe rr helpers (ctx : Context) env (ops : list ExprOp) :
  forall (toks : list string) (stack vars : list Value),
    Forall (fun op => jit_ok (ctx_numInputs ctx) (length vars) op = true) ops ->
    Z.of_nat (length (ctx_vi ctx)) = ctx_numInputs ctx ->
    match build_loop rr helpers ctx env toks ops (stack, vars) with
    | Ok _ => True
    | Throw e => benign e
    end.
Proof.
  induction ops as [|op ops IH]; intros toks stack vars Hall Hvi; cbn [build_loop];
    [exact I|].
  inversion Hall as [|? ? Hop Hrest]; subst.
  pose proof (build_step_safe rr helpers ctx env (hd ""%string toks) op stack vars Hop Hvi)
    as Hs.
  destruct (build_step rr helpers ctx env (hd ""%string toks) op (stack, vars))
    as [[s' v']|e]; cbn [mbind result_bind]; [|exact Hs].
  apply IH; [|exact Hvi]. rewrite Hs. exact Hrest.
Qed.

Lemma store_result_benign rr (ctx : Context) (stack : list Value) (e : exn) :
  store_result rr ctx stack = Throw e -> benign e.
Proof.
  unfold store_result. destruct (rev stack) as [|res [|x r]].
  - intros H; inversion H; exact I.
  - destruct (sampleType (ctx_vo ctx)).
    + repeat match goal with
             | |- context [if ?c =? ?k then _ else _] => destruct (c =? k)
             end; discriminate.
    + repeat match goal with
             | |- context [if ?c =? ?k then _ else _] => destruct (c =? k)
             end; discriminate.
  - intros H; inversion H; exact I.
Qed.

Lemma decoded_ok_set_bc (extended : bool) (op : ExprOp) (bc : BoundaryCondition) :
  decoded_ok extended (set_bc op bc) = decoded_ok extended op.
Proof. reflexivity. Qed.

Lemma decode_all_Forall (stof : string -> option (float * nat)) (extended : bool)
    (fix_bc : ExprOp -> ExprOp) (P : ExprOp -> Prop) :
  (forall op, decoded_ok extended op = true -> P (fix_bc op)) ->
  forall tokens ops,
    decode_all stof extended fix_bc tokens = Ok ops -> Forall P ops.
Proof.
  intros HP tokens. induction tokens as [|tok tokens IH]; intros ops; cbn [decode_all].
  - intros H; inversion H; subst. constructor.
  - destruct (decodeToken stof tok extended) as [op|e] eqn:E; [|discriminate].
    cbn [mbind result_bind].
    destruct (decode_all stof extended fix_bc tokens) as [ops'|e]; [|discriminate].
    cbn [mbind result_bind]. intros H; inversion H; subst.
    constructor; [apply HP; eapply decodeToken_decoded_ok; eassumption|].
    apply IH. reflexivity.
Qed.

(** An operation as decoded for Expr is fit for [buildOneIter] unless it
    is a variable access, which [compile] has yet to number, or a
    [MEM_LOAD_VAR] of a clip that does not exist. *)
Lemma jit_ok_of_decoded (numInputs : Z) (nvars : nat) (op : ExprOp) :
  decoded_ok false op = true ->
  is_var_access op = false ->
  (op_type op = MEM_LOAD_VAR -> union_i (op_imm op) < numInputs) ->
  jit_ok numInputs nvars op = true.
Proof.
  unfold decoded_ok, jit_ok, is_var_access. intros Hd Hv Hm.
  destruct (op_type op); try reflexivity; try exact Hd; try discriminate.
  rewrite Hd. apply Z.ltb_lt. apply Hm. reflexivity.
Qed.

Lemma jit_ok_set_imm_prop (numInputs : Z) (nvars : nat) (op : ExprOp) (i : Z) :
  op_type op = CONST_LOAD -> jit_ok numInputs nvars (set_imm_i op i) = true.
Proof. intros H. unfold jit_ok, set_imm_i. cbn [op_type]. rewrite H. reflexivity. Qed.

Lemma jit_ok_set_imm_var (numInputs : Z) (nvars : nat) (op : ExprOp) (k : nat) :
  is_var_access op = true -> (k < nvars)%nat -> Z.of_nat nvars <= INT_MAX ->
  jit_ok numInputs nvars (set_imm_i op (Z.of_nat k)) = true.
Proof.
  intros Hv Hk Hn. unfold jit_ok, set_imm_i. cbn [op_type op_imm].
  rewrite union_i_ExprUnion_i_wrap, wrap_i32_small by (unfold INT_MIN, INT_MAX in *; lia).
  assert (Hb : (0 <=? Z.of_nat k) && (Z.of_nat k <? Z.of_nat nvars) = true).
  { apply andb_true_iff. rewrite Z.leb_le, Z.ltb_lt. lia. }
  unfold is_var_access in Hv. apply orb_true_iff in Hv as [Hv|Hv];
    apply bool_decide_eq_true in Hv; rewrite Hv; exact Hb.
Qed.

Lemma is_var_access_set_imm (op : ExprOp) (i : Z) :
  is_var_access (set_imm_i op i) = is_var_access op.
Proof. reflexivity. Qed.

Lemma is_prop_access_type (op : ExprOp) :
  is_prop_access op = true -> op_type op = CONST_LOAD /\ is_var_access op = false.
Proof.
  unfold is_prop_access, is_var_access. intros H. apply andb_true_iff in H as [H _].
  apply bool_decide_eq_true in H. rewrite H. split; reflexivity.
Qed.

Lemma index_props_benign (numInputs : Z) (ops : list ExprOp) :
  forall toks pm e, index_props numInputs toks ops pm = Throw e -> benign e.
Proof.
  induction ops as [|op ops IH]; intros toks pm e; cbn [index_props]; [discriminate|].
  destruct (negb (bool_decide (op_type op = CONST_LOAD))
            || (union_i (op_imm op) <? LoadConstType.LAST)).
  - destruct (index_props numInputs (tl toks) ops pm) as [[r p]|e2] eqn:E;
      cbn [mbind result_bind]; [discriminate|].
    intros H; inversion H; subst. eapply IH; eassumption.
  - destruct (numInputs <=? wrap_i32 (union_i (op_imm op) - LoadConstType.LAST));
      [intros H; inversion H; exact I|].
    match goal with |- context [intern ?k ?t] => destruct (intern k t) as [pm' idx] end.
    destruct (index_props numInputs (tl toks) ops pm') as [[r p]|e2] eqn:E;
      cbn [mbind result_bind]; [discriminate|].
    intros H; inversion H; subst. eapply IH; eassumption.
Qed.

Lemma index_vars_benign (ops : list ExprOp) :
  forall toks vm e, index_vars toks ops vm = Throw e -> benign e.
Proof.
  induction ops as [|op ops IH]; intros toks vm e; cbn [index_vars]; [discriminate|].
  destruct (negb (bool_decide (op_type op = VAR_LOAD))
            && negb (bool_decide (op_type op = VAR_STORE))).
  - destruct (index_vars (tl toks) ops vm) as [[r p]|e2] eqn:E;
      cbn [mbind result_bind]; [discriminate|].
    intros H; inversion H; subst. eapply IH; eassumption.
  - destruct (index_of (op_name op) vm).
    + destruct (index_vars (tl toks) ops vm) as [[r p]|e2] eqn:E;
        cbn [mbind result_bind]; [discriminate|].
      intros H; inversion H; subst. eapply IH; eassumption.
    + destruct (bool_decide (op_type op = VAR_LOAD)); [intros H; inversion H; exact I|].
      destruct (index_vars (tl toks) ops (vm ++ [op_name op])) as [[r p]|e2] eqn:E;
        cbn [mbind result_bind]; [discriminate|].
      intros H; inversion H; subst. eapply IH; eassumption.
Qed.

(** X15.  For an expression decoded for Expr, compiled against as many
    formats as there are inputs, [compile] raises nothing but its own
    [runtime_error]s and the [std::bad_variant_access] of a [SORT] over
    values of two kinds, provided no [MEM_LOAD_VAR] names a clip that
    does not exist (the one check the code generator leaves out): no
    pop from an empty stack, no [stack], [state.variables] or [ctx.vi]
    index out of range, no comparison code outside the switch. *)
Theorem compile_stays_in_bounds rr helpers env
    (stof : string -> option (float * nat)) (expr : string)
    (vo : VSFormat) (vi : list VSFormat) (numInputs opt mirror : Z)
    (ctx : Context) (e : exn) :
  Context_new stof expr vo vi numInputs opt mirror = Ok ctx ->
  Z.of_nat (length vi) = numInputs ->
  Z.of_nat (length (ctx_ops ctx)) <= INT_MAX ->
  Forall (fun op => op_type op = MEM_LOAD_VAR -> union_i (op_imm op) < numInputs)
         (ctx_ops ctx) ->
  compile rr helpers ctx env = Throw e ->
  benign e.
Proof.
  intros Hnew Hvi Hlen Hmem. unfold Context_new in Hnew.
  destruct (decode_all stof false _ (tokenize expr)) as [ops|e0] eqn:Hd; [|discriminate].
  cbn [mbind result_bind] in Hnew. inversion Hnew; subst ctx; clear Hnew.
  cbn [ctx_ops] in Hlen, Hmem.
  assert (Hdec : Forall (fun op => decoded_ok false op = true) ops).
  { eapply decode_all_Forall; [|exact Hd]. intros op Hop. cbv beta.
    destruct (bool_decide _); [rewrite decoded_ok_set_bc|]; exact Hop. }
  clear Hd. unfold compile. cbn [ctx_numInputs ctx_tokens ctx_ops].
  destruct (index_props numInputs (tokenize expr) ops []) as [[ops1 pa]|e1] eqn:Hp.
  2:{ cbn [mbind result_bind]. intros H; inversion H; subst e.
      eapply index_props_benign; exact Hp. }
  cbn [mbind result_bind].
  destruct (index_vars (tokenize expr) ops1 []) as [[ops2 vm]|e1] eqn:Hv.
  2:{ cbn [mbind result_bind]. intros H; inversion H; subst e.
      eapply index_vars_benign; exact Hv. }
  cbn [mbind result_bind].
  destruct (index_props_spec _ _ _ _ _ _ Hp) as (_ & Hl1 & _ & Hops1).
  destruct (index_vars_spec _ _ _ _ _ Hv) as ((vm' & Hvm' & Hvm) & Hl2 & _ & Hops2).
  cbn [app] in Hvm'. subst vm'.
  set (ctx' := with_ops _ ops2).
  assert (Hjit : Forall (fun op => jit_ok (ctx_numInputs ctx')
                                     (length (replicate (length vm) (Value_IntV 0))) op
                                   = true) ops2).
  { rewrite length_replicate. subst ctx'. cbn [with_ops ctx_numInputs].
    apply Forall_lookup. intros i op2 Hi2.
    destruct (lookup_lt_is_Some_2 ops1 i) as [op1 Hi1];
      [rewrite <- Hl2; eapply lookup_lt_Some; exact Hi2|].
    destruct (lookup_lt_is_Some_2 ops i) as [op Hi];
      [rewrite <- Hl1; eapply lookup_lt_Some; exact Hi1|].
    pose proof (proj1 (Forall_lookup _ _) Hdec i op Hi) as Hdo.
    pose proof (proj1 (Forall_lookup _ _) Hmem i op Hi) as Hmo.
    specialize (Hops1 i op Hi). specialize (Hops2 i op1 Hi1).
    destruct (is_prop_access op) eqn:Hpa.
    - destruct Hops1 as (k & Hk & _). rewrite Hi1 in Hk. inversion Hk; subst op1; clear Hk.
      apply is_prop_access_type in Hpa as [Hty Hnv].
      rewrite is_var_access_set_imm, Hnv in Hops2.
      rewrite Hi2 in Hops2. inversion Hops2; subst op2.
      apply jit_ok_set_imm_prop. exact Hty.
    - rewrite Hi1 in Hops1. inversion Hops1; subst op1; clear Hops1.
      destruct (is_var_access op) eqn:Hva.
      + destruct Hops2 as (k & Hk & Hk2 & _). rewrite Hi2 in Hk.
        inversion Hk; subst op2; clear Hk.
        apply jit_ok_set_imm_var; [exact Hva | eapply lookup_lt_Some; exact Hk2 | lia].
      + rewrite Hi2 in Hops2. inversion Hops2; subst op2.
        apply jit_ok_of_decoded; assumption. }
  unfold buildOneIter.
  pose proof (build_loop_safe rr helpers ctx' env (ctx_ops ctx') (ctx_tokens ctx') []
                (replicate (length vm) (Value_IntV 0))) as Hbl.
  subst ctx'. cbn [with_ops ctx_ops ctx_tokens ctx_numInputs ctx_vi] in *.
  specialize (Hbl Hjit Hvi).
  destruct (build_loop _ _ _ _ _ ops2 _) as [st|e1]; cbn [mbind result_bind].
  - destruct (store_result _ _ _) as [s|e1] eqn:Hs; cbn [mbind result_bind];
      [discriminate|].
    intros H; inversion H; subst e. eapply store_result_benign. exact Hs.
  - intros H; inversion H; subst e. exact Hbl.
Qed.

Lemma compile_stays_in_bounds_witness :
  exists ctx,
    Context_new no_stof "x 1 sort2" fmt_u8 [fmt_u8] 1 0 0 = Ok ctx
    /\ compile example_rr example_helpers ctx example_env = Throw bad_variant_access
    /\ benign bad_variant_access.
Proof.
  destruct (Context_new no_stof "x 1 sort2" fmt_u8 [fmt_u8] 1 0 0) as [ctx|e] eqn:Hnew;
    [|vm_compute in Hnew; discriminate].
  assert (Hops : ctx_ops ctx
                 = [mkExprOp MEM_LOAD 0 "" 0 0 Clamped; mkExprOp CONSTANTI 1 "" 0 0 Clamped;
                    mkExprOp SORT 2 "" 0 0 Clamped]).
  { vm_compute in Hnew. inversion Hnew; subst ctx. reflexivity. }
  assert (Hc : compile example_rr example_helpers ctx example_env
               = Throw bad_variant_access).
  { vm_compute in Hnew. inversion Hnew; subst ctx. vm_compute. reflexivity. }
  exists ctx. split; [reflexivity|]. split; [exact Hc|].
  apply (compile_stays_in_bounds example_rr example_helpers example_env
           no_stof "x 1 sort2" fmt_u8 [fmt_u8] 1 0 0 ctx bad_variant_access Hnew).
  - reflexivity.
  - rewrite Hops. cbn. unfold INT_MAX. lia.
  - rewrite Hops. repeat constructor; cbn; discriminate.
  - exact Hc.
Defined.

(** ** The lowered sort at a concrete stack *)

Lemma sort_lowering_sorts_ints_witness :
  exists top',
    sort_apply example_rr (buildSortNet (Z.of_nat 3))
      ([VInt 7 true] ++ [VInt 1 false; VInt 3 true; VInt 2 false])
    = Ok ([VInt 7 true] ++ top')
    /\ Forall (fun v => isFloat v = false) top'
    /\ int_val <$> top' ≡ₚ int_val <$> [VInt 1 false; VInt 3 true; VInt 2 false]
    /\ descending (int_val <$> top') = true.
Proof.
  apply (sort_lowering_sorts_ints example_rr 3 [VInt 7 true]
           [VInt 1 false; VInt 3 true; VInt 2 false]).
  - lia.
  - reflexivity.
  - repeat constructor.
Defined.

(** ** The interpreter's stack checks *)

(** X17.  [dupN] and [swapN] reach [N] places below the top, so they need
    [N+1] values, but the interpreter's [check_stack] asks for [N] only.
    On a stack of exactly [N] values the check passes and the operation
    then indexes the stack out of range; the code generator rejects the
    same operation at the same height with "insufficient values on
    stack". *)
Theorem interp_dup_swap_check_off_by_one (libm : HostMath) (N width height Y X : Z)
    (pixelGet : ExprOp -> Z -> Z -> result float) (propGet : Z -> string -> result float)
    (ctx : Context) (tok : string)
    (op : ExprOp) (stack : list float) (vars : gmap string float) :
  op_type op = DUP \/ op_type op = SWAP ->
  union_u (op_imm op) = Z.of_nat (length stack) ->
  Z.of_nat (length stack) < 2 ^ 31 ->
  check_stack stack (union_i (op_imm op)) = Ok ()
  /\ interp_op libm N width height Y X pixelGet propGet op (stack, vars)
     = Throw undefined_behaviour
  /\ check_validity ctx tok op (length stack) = Throw (insufficient tok).
Proof.
  intros Ht Hu Hlen.
  assert (Hi : union_i (op_imm op) = Z.of_nat (length stack)).
  { rewrite union_i_small; lia. }
  assert (Hc : check_stack stack (union_i (op_imm op)) = Ok ()).
  { apply check_stack_pass; lia. }
  split; [exact Hc|]. split.
  - unfold interp_op. destruct Ht as [Ht|Ht]; rewrite Ht, Hc; cbn [mbind result_bind].
    + unfold dup_n. rewrite Hu, Z.leb_refl. reflexivity.
    + unfold swap_n. rewrite Hu, Z.leb_refl. reflexivity.
  - unfold check_validity.
    assert (Hm : bool_decide (op_type op = MEM_LOAD) = false).
    { apply bool_decide_eq_false. destruct Ht as [Ht|Ht]; rewrite Ht; discriminate. }
    rewrite Hm. cbn [andb].
    assert (Hd : bool_decide (op_type op = DUP) || bool_decide (op_type op = SWAP) = true).
    { destruct Ht as [Ht|Ht]; rewrite Ht; reflexivity. }
    rewrite Hd, Hu, Z.leb_refl. reflexivity.
Qed.

Lemma interp_dup_swap_check_off_by_one_witness :
  check_stack [] (union_i (op_imm (Op2 DUP (ExprUnion_u 0)))) = Ok ()
  /\ interp_op example_libm 0 1 1 0 0 (fun _ _ _ => Ok Float32.zero)
       (fun _ _ => Ok Float32.zero) (Op2 DUP (ExprUnion_u 0)) ([], ∅)
     = Throw undefined_behaviour
  /\ check_validity example_ctx_int "dup" (Op2 DUP (ExprUnion_u 0)) (length (@nil float))
     = Throw (insufficient "dup").
Proof.
  apply (interp_dup_swap_check_off_by_one example_libm 0 1 1 0 0 _ _ example_ctx_int "dup"
           (Op2 DUP (ExprUnion_u 0)) [] ∅).
  - left. reflexivity.
  - reflexivity.
  - reflexivity.
Defined.

(** ** [ARGMIN] and [ARGMAX] *)

Lemma ltb_key (a b : float) :
  Float32.is_nan a = false -> Float32.is_nan b = false ->
  Float32.ltb a b = true <-> lex_lt (float_key a) (float_key b).
Proof.
  unfold Float32.ltb, SFltb, lex_lt.
  destruct a as [sa|sa| |sa ma ea], b as [sb|sb| |sb mb eb]; try discriminate;
    intros _ _; try destruct sa; try destruct sb; cbn;
    try (split; intros H; first [discriminate H | reflexivity | lia]).
  - change (Pos.compare_cont Eq ma mb) with (Pos.compare ma mb).
    destruct (Z.compare_spec ea eb); [destruct (Pos.compare_spec ma mb)| |]; cbn;
      split; intros H'; first [discriminate H' | reflexivity | lia].
  - change (Pos.compare_cont Eq ma mb) with (Pos.compare ma mb).
    destruct (Z.compare_spec ea eb); [destruct (Pos.compare_spec ma mb)| |]; cbn;
      split; intros H'; first [discriminate H' | reflexivity | lia].
Qed.

Lemma ltb_key_false (a b : float) :
  Float32.is_nan a = false -> Float32.is_nan b = false ->
  Float32.ltb a b = false <-> ~ lex_lt (float_key a) (float_key b).
Proof.
  intros Ha Hb. rewrite <- (ltb_key a b Ha Hb).
  destruct (Float32.ltb a b); split; intros H; try discriminate; try congruence.
Qed.

Lemma arg_before_irrefl (is_min : bool) (a : float) :
  Float32.is_nan a = false -> arg_before is_min a a = false.
Proof.
  intros Ha. unfold arg_before.
  assert (H : Float32.ltb a a = false).
  { apply ltb_key_false; [assumption..|]. unfold lex_lt. lia. }
  destruct is_min; exact H.
Qed.

Lemma arg_before_trans (is_min : bool) (a b c : float) :
  Float32.is_nan a = false -> Float32.is_nan b = false -> Float32.is_nan c = false ->
  arg_before is_min a b = true -> arg_before is_min b c = true ->
  arg_before is_min a c = true.
Proof.
  intros Ha Hb Hc. unfold arg_before.
  destruct is_min; rewrite !ltb_key by assumption; unfold lex_lt; lia.
Qed.

Lemma arg_before_neg_trans (is_min : bool) (a b c : float) :
  Float32.is_nan a = false -> Float32.is_nan b = false -> Float32.is_nan c = false ->
  arg_before is_min a b = false -> arg_before is_min b c = false ->
  arg_before is_min a c = false.
Proof.
  intros Ha Hb Hc. unfold arg_before.
  destruct is_min; rewrite !ltb_key_false by assumption; unfold lex_lt; lia.
Qed.

Lemma arg_scan_spec (is_min : bool) (xs : list float) :
  forall (pre : list float) (cur : float) (idx : nat),
    Forall (fun f => Float32.is_nan f = false) (pre ++ xs) ->
    first_best is_min pre idx cur ->
    exists (k : nat) (v : float),
      arg_scan is_min xs (Z.of_nat (length pre)) cur (Z.of_nat idx) = Z.of_nat k
      /\ first_best is_min (pre ++ xs) k v.
Proof.
  induction xs as [|x xs IH]; intros pre cur idx Hnan Hbest.
  - exists idx, cur. rewrite app_nil_r. split; [reflexivity|exact Hbest].
  - cbn [arg_scan].
    replace ((is_min && Float32.ltb x cur) || (negb is_min && Float32.ltb cur x))
      with (arg_before is_min x cur) by (unfold arg_before; destruct is_min; cbn;
                                          rewrite ?orb_false_r; reflexivity).
    replace (Z.of_nat (length pre) + 1) with (Z.of_nat (length (pre ++ [x])))
      by (rewrite length_app; cbn; lia).
    replace (pre ++ x :: xs) with ((pre ++ [x]) ++ xs) in Hnan |- *
      by (rewrite <- app_assoc; reflexivity).
    destruct Hbest as (Hidx & Hmin & Hfirst).
    assert (Hn : forall j w, (pre ++ [x]) !! j = Some w -> Float32.is_nan w = false).
    { intros j w Hj. apply Forall_app in Hnan as [Hnan _].
      rewrite Forall_forall in Hnan. apply Hnan. eapply list_elem_of_lookup_2. exact Hj. }
    assert (Hx : Float32.is_nan x = false).
    { apply (Hn (length pre) x). rewrite lookup_app_r by lia.
      rewrite Nat.sub_diag. reflexivity. }
    assert (Hpre : forall j w, pre !! j = Some w -> Float32.is_nan w = false).
    { intros j w Hj. apply (Hn j w). apply lookup_app_l_Some. exact Hj. }
    assert (Hcur : Float32.is_nan cur = false) by (apply (Hpre idx cur Hidx)).
    destruct (arg_before is_min x cur) eqn:Hb.
    + apply (IH (pre ++ [x]) x (length pre) Hnan).
      split; [|split].
      * rewrite lookup_app_r by lia. rewrite Nat.sub_diag. reflexivity.
      * intros j w Hj. pose proof (Hn j w Hj) as Hw.
        apply lookup_app_Some in Hj as [Hj|[Hge Hj]].
        -- destruct (arg_before is_min w x) eqn:Hwx; [|reflexivity].
           rewrite <- (Hmin j w Hj). symmetry.
           apply (arg_before_trans is_min w x cur); assumption.
        -- destruct (j - length pre)%nat; [|destruct n; discriminate Hj].
           inversion Hj; subst w. apply arg_before_irrefl. exact Hx.
      * intros j w Hj Hlt. pose proof (Hn j w Hj) as Hw.
        apply lookup_app_Some in Hj as [Hj|[Hge Hj]]; [|lia].
        destruct (arg_before is_min x w) eqn:Hxw; [reflexivity|].
        rewrite <- Hb. symmetry.
        apply (arg_before_neg_trans is_min x w cur); try assumption.
        apply (Hmin j w Hj).
    + apply (IH (pre ++ [x]) cur idx Hnan).
      split; [|split].
      * apply lookup_app_l_Some. exact Hidx.
      * intros j w Hj.
        apply lookup_app_Some in Hj as [Hj|[Hge Hj]]; [apply (Hmin j w Hj)|].
        destruct (j - length pre)%nat; [|destruct n; discriminate Hj].
        inversion Hj; subst w. exact Hb.
      * intros j w Hj Hlt.
        apply lookup_app_Some in Hj as [Hj|[Hge Hj]]; [apply (Hfirst j w Hj Hlt)|].
        apply lookup_lt_Some in Hidx. lia.
Qed.

(** X18.  [argminN] and [argmaxN] of the interpreter, on a stack whose
    top [N >= 1] values hold no NaN: the [N] values are replaced by one,
    the index (counted from the deepest of the [N]) of the first value
    that no other of them is smaller than, for [argmaxN] greater than.
    The values below are left alone. *)
Theorem interp_arg_extreme (libm : HostMath) (N width height Y X : Z)
    (pixelGet : ExprOp -> Z -> Z -> result float) (propGet : Z -> string -> result float)
    (t : ExprOpType) (n : Z) (below top : list float) (vars : gmap string float) :
  t = ARGMIN \/ t = ARGMAX ->
  top <> [] -> n = Z.of_nat (length top) ->
  Z.of_nat (length (below ++ top)) < 2 ^ 31 ->
  Forall (fun f => Float32.is_nan f = false) top ->
  exists (idx : nat) (v : float),
    interp_op libm N width height Y X pixelGet propGet
              (Op2 t (ExprUnion_u n)) (below ++ top, vars)
    = Ok (below ++ [float_of_int (Z.of_nat idx)], vars)
    /\ top !! idx = Some v
    /\ (forall j w, top !! j = Some w ->
          (if bool_decide (t = ARGMIN) then Float32.ltb w v else Float32.ltb v w) = false)
    /\ (forall j w, top !! j = Some w -> (j < idx)%nat ->
          (if bool_decide (t = ARGMIN) then Float32.ltb v w else Float32.ltb w v) = true).
Proof.
  intros Ht Hne -> Hlen Hnan.
  destruct top as [|cur xs]; [congruence|].
  destruct (arg_scan_spec (bool_decide (t = ARGMIN)) xs [cur] cur 0) as (k & v & Hk & Hbest).
  { exact Hnan. }
  { split; [reflexivity|]. split; [|intros; lia].
    intros [|j] w Hj; [|destruct j; discriminate Hj].
    inversion Hj; subst w. apply arg_before_irrefl. by inversion Hnan. }
  exists k, v.
  destruct Hbest as (Hv & Hmin & Hfirst).
  split; [|split; [exact Hv|split; [exact Hmin|exact Hfirst]]].
  rewrite length_app in Hlen.
  assert (Hu : union_u (op_imm (Op2 t (ExprUnion_u (Z.of_nat (length (cur :: xs))))))
               = Z.of_nat (length (cur :: xs))).
  { cbn [Op2 op_imm]. apply union_u_ExprUnion_u. unfold in_u32.
    apply andb_true_iff. rewrite Z.leb_le, Z.ltb_lt. cbn [length] in *. lia. }
  assert (Hi : union_i (op_imm (Op2 t (ExprUnion_u (Z.of_nat (length (cur :: xs))))))
               = Z.of_nat (length (cur :: xs))).
  { rewrite union_i_small; rewrite Hu; lia. }
  unfold interp_op.
  assert (Hty : op_type (Op2 t (ExprUnion_u (Z.of_nat (length (cur :: xs))))) = t)
    by reflexivity.
  rewrite Hty, Hi, Hu.
  assert (Hc : check_stack (below ++ cur :: xs) (Z.of_nat (length (cur :: xs))) = Ok ()).
  { apply check_stack_pass; rewrite length_app; lia. }
  assert (Hoff : (length (below ++ cur :: xs) - Z.to_nat (Z.of_nat (length (cur :: xs))))%nat
                 = length below).
  { rewrite length_app. lia. }
  assert (Hguard : (Z.of_nat (length (below ++ cur :: xs)) <? Z.of_nat (length (cur :: xs)))
                   || (Z.of_nat (length (cur :: xs)) =? 0) = false).
  { apply orb_false_iff. rewrite Z.ltb_ge, Z.eqb_neq, length_app. cbn [length]. lia. }
  destruct Ht as [-> | ->]; rewrite Hc; cbn [mbind result_bind];
    rewrite Hguard, Hoff, drop_app_length, take_app_length;
    change (Z.of_nat (length [cur])) with 1 in Hk; change (Z.of_nat 0) with 0 in Hk;
    rewrite Hk; reflexivity.
Qed.

Lemma interp_arg_extreme_witness :
  exists (idx : nat) (v : float),
    interp_op example_libm 0 1 1 0 0 (fun _ _ _ => Ok Float32.zero)
              (fun _ _ => Ok Float32.zero)
              (Op2 ARGMIN (ExprUnion_u (Z.of_nat 3)))
              ([float_of_int 9] ++ [float_of_int 4; float_of_int 2; float_of_int 2], ∅)
    = Ok ([float_of_int 9] ++ [float_of_int (Z.of_nat idx)], ∅)
    /\ [float_of_int 4; float_of_int 2; float_of_int 2] !! idx = Some v
    /\ (forall j w, [float_of_int 4; float_of_int 2; float_of_int 2] !! j = Some w ->
          (if bool_decide (ARGMIN = ARGMIN) then Float32.ltb w v else Float32.ltb v w) = false)
    /\ (forall j w, [float_of_int 4; float_of_int 2; float_of_int 2] !! j = Some w ->
          (j < idx)%nat ->
          (if bool_decide (ARGMIN = ARGMIN) then Float32.ltb v w else Float32.ltb w v) = true).
Proof.
  apply (interp_arg_extreme example_libm 0 1 1 0 0 _ _ ARGMIN (Z.of_nat 3)
           [float_of_int 9] [float_of_int 4; float_of_int 2; float_of_int 2] ∅).
  - left. reflexivity.
  - discriminate.
  - reflexivity.
  - vm_compute. reflexivity.
  - repeat constructor.
Defined.

(** ** Frame properties, from the token to the constant table *)




(** ** Relative pixel access stays inside the plane *)

(** X20.  The row a relative pixel access reads.  For a pixel of a plane
    of fewer than [2^30] rows, whatever the vertical offset [op.y] and
    whichever boundary condition, the row [MEM_LOAD] computes lies in the
    plane; it is the row [y + op.y] itself when that one lies in the
    plane. *)
Theorem mem_load_row_in_plane (bc : BoundaryCondition) (dy y height : Z) :
  0 <= y < height -> height < 2 ^ 30 ->
  0 <= mem_load_row bc dy y height < height
  /\ (0 <= y + dy < height -> mem_load_row bc dy y height = y + dy).
Proof.
  intros Hy Hh.
  assert (Hclamped : 0 <= (if dy =? 0 then y else rr_Clamp (IAdd y dy) 0 (ISub height 1))
                      < height
                     /\ (0 <= y + dy < height ->
                         (if dy =? 0 then y else rr_Clamp (IAdd y dy) 0 (ISub height 1))
                         = y + dy)).
  { destruct (Z.eqb_spec dy 0) as [->|Hdy]; [split; lia|].
    unfold ISub. rewrite (wrap_i32_small (height - 1)) by (unfold INT_MIN, INT_MAX; lia).
    unfold rr_Clamp, IMin, IMax. split; [lia|].
    intros Hin. unfold IAdd. rewrite wrap_i32_small by (unfold INT_MIN, INT_MAX; lia). lia. }
  assert (Hmirrored :
            let r := if dy =? 0 then y
                     else
                       let sy := IAdd y (rr_Clamp dy (wrap_i32 (- height)) height) in
                       if sy <? 0 then ISub (-1) sy
                       else if height <=? sy then ISub (ISub (IMul 2 height) 1) sy
                       else sy in
            0 <= r < height /\ (0 <= y + dy < height -> r = y + dy)).
  { cbv zeta. destruct (Z.eqb_spec dy 0) as [->|Hdy]; [split; lia|].
    rewrite (wrap_i32_small (- height)) by (unfold INT_MIN, INT_MAX; lia).
    assert (Hc : - height <= rr_Clamp dy (- height) height <= height
                 /\ (- height <= dy <= height -> rr_Clamp dy (- height) height = dy)).
    { unfold rr_Clamp, IMin, IMax. lia. }
    destruct Hc as [Hc Hceq].
    set (c := rr_Clamp dy (- height) height) in *.
    unfold IAdd. rewrite (wrap_i32_small (y + c)) by (unfold INT_MIN, INT_MAX; lia).
    destruct (Z.ltb_spec (y + c) 0) as [Hneg|Hnn].
    - unfold ISub. rewrite wrap_i32_small by (unfold INT_MIN, INT_MAX; lia).
      split; [lia|]. intros Hin. rewrite Hceq in Hneg by lia. lia.
    - destruct (Z.leb_spec height (y + c)) as [Hge|Hlt].
      + unfold ISub, IMul.
        rewrite (wrap_i32_small (2 * height)) by (unfold INT_MIN, INT_MAX; lia).
        rewrite (wrap_i32_small (2 * height - 1)) by (unfold INT_MIN, INT_MAX; lia).
        rewrite wrap_i32_small by (unfold INT_MIN, INT_MAX; lia).
        split; [lia|]. intros Hin. rewrite Hceq in Hge by lia. lia.
      + split; [lia|]. intros Hin. rewrite Hceq by lia. reflexivity. }
  unfold mem_load_row. destruct bc; [exact Hmirrored|exact Hclamped|exact Hmirrored].
Qed.

Lemma mem_load_row_in_plane_witness :
  0 <= mem_load_row Mirrored (-3) 1 1080 < 1080
  /\ (0 <= 1 + -3 < 1080 -> mem_load_row Mirrored (-3) 1 1080 = 1 + -3).
Proof.
  apply (mem_load_row_in_plane Mirrored (-3) 1 1080).
  - lia.
  - vm_compute. reflexivity.
Defined.

(** X21.  The columns a mirrored relative access gathers.  In a plane of
    fewer than [2^30] columns, for every lane that holds a pixel of the
    plane ([x + i < width]) and whatever the horizontal offset [op.x],
    the column put in [offsets] lies in the plane, and is [x + i + op.x]
    itself when that one lies in the plane. *)
Theorem mem_load_col_mirrored_in_plane (dx x i width : Z) :
  0 <= x -> 0 <= i -> x + i < width -> width < 2 ^ 30 ->
  0 <= mem_load_col_mirrored dx x i width < width
  /\ (0 <= x + i + dx < width -> mem_load_col_mirrored dx x i width = x + i + dx).
Proof.
  intros Hx Hi Hw Hmax. unfold mem_load_col_mirrored. cbv zeta.
  rewrite (wrap_i32_small (- width)) by (unfold INT_MIN, INT_MAX; lia).
  assert (Hc : - width <= rr_Clamp dx (- width) width <= width
               /\ (- width <= dx <= width -> rr_Clamp dx (- width) width = dx)).
  { unfold rr_Clamp, IMin, IMax. lia. }
  destruct Hc as [Hc Hceq].
  set (c := rr_Clamp dx (- width) width) in *.
  unfold IAdd. rewrite (wrap_i32_small (x + i)) by (unfold INT_MIN, INT_MAX; lia).
  rewrite (wrap_i32_small (x + i + c)) by (unfold INT_MIN, INT_MAX; lia).
  destruct (Z.ltb_spec (x + i + c) 0) as [Hneg|Hnn].
  - unfold ISub. rewrite wrap_i32_small by (unfold INT_MIN, INT_MAX; lia).
    split; [lia|]. intros Hin. rewrite Hceq in Hneg by lia. lia.
  - destruct (Z.leb_spec width (x + i + c)) as [Hge|Hlt].
    + unfold ISub, IMul.
      rewrite (wrap_i32_small (2 * width)) by (unfold INT_MIN, INT_MAX; lia).
      rewrite (wrap_i32_small (2 * width - 1)) by (unfold INT_MIN, INT_MAX; lia).
      rewrite wrap_i32_small by (unfold INT_MIN, INT_MAX; lia).
      split; [lia|]. intros Hin. rewrite Hceq in Hge by lia. lia.
    + split; [lia|]. intros Hin. rewrite Hceq by lia. reflexivity.
Qed.

Lemma mem_load_col_mirrored_in_plane_witness :
  0 <= mem_load_col_mirrored 2 1912 7 1920 < 1920
  /\ (0 <= 1912 + 7 + 2 < 1920 -> mem_load_col_mirrored 2 1912 7 1920 = 1912 + 7 + 2).
Proof.
  apply (mem_load_col_mirrored_in_plane 2 1912 7 1920).
  - lia.
  - lia.
  - lia.
  - vm_compute. reflexivity.
Defined.

(** ** Pixel access tokens *)

Lemma read_signed_eq (s : string) :
  read_signed s
  = match s with
    | String c r =>
        if Ascii.eqb c "-" then
          match count_digits r with
          | O => None
          | n => Some (String.append "-" (str_take n r), str_drop n r)
          end
        else
          match count_digits s with
          | O => None
          | n => Some (String.append "" (str_take n s), str_drop n s)
          end
    | EmptyString => None
    end.
Proof.
  destruct s as [|c r]; [reflexivity|].
  destruct c as [[] [] [] [] [] [] [] []]; reflexivity.
Qed.

Lemma read_signed_numeral (sx rest : string) :
  is_signed_numeral sx ->
  (match rest with String c _ => isdigit c = false | EmptyString => True end) ->
  read_signed (String.append sx rest) = Some (sx, rest).
Proof.
  intros [Hs|(ds & Hds & ->)] Hrest; rewrite read_signed_eq.
  - destruct Hs as [Hne Hd]. destruct sx as [|c s]; [contradiction|].
    rewrite append_cons.
    assert (Hc : isdigit c = true).
    { cbn [list_ascii_of_string] in Hd. by inversion Hd. }
    rewrite (isdigit_not_char c "-" Hc eq_refl).
    rewrite <- append_cons, (count_digits_numeral _ Hd rest Hrest).
    change (str_len (String c s)) with (S (str_len s)). cbv beta iota zeta.
    change (S (str_len s)) with (str_len (String c s)).
    rewrite str_take_app_len, str_drop_app_len, append_nil_l. reflexivity.
  - rewrite append_cons. change (Ascii.eqb "-" "-") with true. cbv beta iota zeta.
    destruct Hds as [Hne Hd].
    rewrite (count_digits_numeral _ Hd rest Hrest).
    destruct ds as [|c s]; [contradiction|].
    change (str_len (String c s)) with (S (str_len s)). cbv beta iota zeta.
    change (S (str_len s)) with (str_len (String c s)).
    rewrite str_take_app_len, str_drop_app_len. reflexivity.
Qed.

Lemma read_signed_sound (s a b : string) :
  read_signed s = Some (a, b) -> s = String.append a b.
Proof.
  rewrite read_signed_eq. destruct s as [|c r]; [discriminate|].
  destruct (Ascii.eqb_spec c "-") as [->|Hc].
  - destruct (count_digits r) as [|n]; [discriminate|].
    intros H; inversion H; subst.
    rewrite !append_cons, append_nil_l, str_take_drop. reflexivity.
  - destruct (count_digits (String c r)) as [|n]; [discriminate|].
    intros H; inversion H; subst.
    change (str_drop n r) with (str_drop (S n) (String c r)).
    rewrite append_nil_l, str_take_drop. reflexivity.
Qed.

Lemma atoi_signed (s : string) :
  is_signed_numeral s -> INT_MIN <= signed_value s <= INT_MAX ->
  atoi s = signed_value s.
Proof.
  intros [Hs|(ds & Hds & ->)] Hr; unfold atoi.
  - rewrite strto_numeral by assumption.
    destruct Hs as [Hne Hd]. destruct s as [|c r]; [contradiction|].
    assert (Hc : isdigit c = true).
    { cbn [list_ascii_of_string] in Hd. by inversion Hd. }
    unfold signed_value in *. rewrite (isdigit_not_char c "-" Hc eq_refl) in *.
    unfold INT_MIN, INT_MAX, LLONG_MIN, LLONG_MAX in *.
    rewrite wrap_i32_small by (unfold INT_MIN, INT_MAX; lia). lia.
  - unfold signed_value in *. change (Ascii.eqb "-" "-") with true in *. cbv iota in *.
    unfold strto.
    change (skip_space (String "-" ds)) with (O, String "-" ds). cbv beta iota zeta.
    change (read_sign (String "-" ds)) with (true, 1%nat, ds). cbv beta iota zeta.
    cbn [Z.eqb]. destruct Hds as [Hne Hd].
    rewrite read_digits_numeral by assumption.
    destruct ds as [|c r]; [contradiction|]. cbn [String.length].
    unfold decimal_value in *.
    unfold INT_MIN, INT_MAX, LLONG_MIN, LLONG_MAX in *.
    rewrite wrap_i32_small by (unfold INT_MIN, INT_MAX; lia). lia.
Qed.

Lemma no_bracket_has_char (s : string) : no_bracket s = true -> has_char "[" s = false.
Proof.
  unfold has_char. induction s as [|c s IH]; [reflexivity|].
  cbn [no_bracket list_ascii_of_string existsb]. intros H.
  apply andb_true_iff in H as [H Hs]. apply andb_true_iff in H as [H _].
  rewrite (IH Hs), Ascii.eqb_sym. apply negb_true_iff in H. rewrite H. reflexivity.
Qed.

(** [framePropRe] refuses a token that holds an opening bracket. *)
Lemma match_framePropRe_bracket (token : string) :
  has_char "[" token = true -> match_framePropRe token = None.
Proof.
  intros Hb. destruct (match_framePropRe token) as [[clip name]|] eqn:E; [|reflexivity].
  exfalso. unfold match_framePropRe in E.
  apply first_match_Some in E as ([c rest] & Hin & Hk).
  apply clip_prefix_splits_sound in Hin as [Hc ->].
  destruct rest as [|d name']; [discriminate|].
  destruct (Ascii.eqb_spec d "."); [subst d|].
  - destruct (no_bracket name') eqn:Hn; [|discriminate].
    rewrite has_char_app, (clip_name_has_char "[" c Hc eq_refl eq_refl) in Hb.
    cbn [orb] in Hb. unfold has_char in Hb. cbn [list_ascii_of_string existsb] in Hb.
    apply no_bracket_has_char in Hn. unfold has_char in Hn. rewrite Hn in Hb.
    discriminate.
  - destruct d as [[] [] [] [] [] [] [] []]; try discriminate. contradiction.
Qed.

(** [relpixelRe] refuses a token that holds no comma. *)
Lemma match_relpixelRe_comma (token : string) :
  has_char "," token = false -> match_relpixelRe token = None.
Proof.
  intros Hb.
  destruct (match_relpixelRe token) as [[[[clip sx] sy] flag]|] eqn:E; [|reflexivity].
  exfalso. unfold match_relpixelRe in E.
  apply first_match_Some in E as ([c rest] & Hin & Hk).
  apply clip_prefix_splits_sound in Hin as [Hc ->].
  destruct rest as [|d r1]; [discriminate|].
  destruct (Ascii.eqb_spec d "["); [subst d|].
  - destruct (read_signed r1) as [[sx' r2]|] eqn:E1; [|discriminate].
    apply read_signed_sound in E1. subst r1.
    destruct r2 as [|d2 r2]; [discriminate|].
    destruct (Ascii.eqb_spec d2 ","); [subst d2|].
    + rewrite has_char_app in Hb. apply orb_false_iff in Hb as [_ Hb].
      unfold has_char in Hb. cbn [list_ascii_of_string existsb] in Hb.
      apply orb_false_iff in Hb as [_ Hb].
      fold (has_char "," (String.append sx' (String "," r2))) in Hb.
      rewrite has_char_app in Hb. apply orb_false_iff in Hb as [_ Hb].
      discriminate Hb.
    + destruct d2 as [[] [] [] [] [] [] [] []]; try discriminate. contradiction.
  - destruct d as [[] [] [] [] [] [] [] []]; try discriminate. contradiction.
Qed.

Lemma match_relpixelRe_clip (clip sx sy flag : string) :
  is_clip_name clip -> is_signed_numeral sx -> is_signed_numeral sy ->
  flag = ""%string \/ flag = ":c"%string \/ flag = ":m"%string ->
  match_relpixelRe
    (String.append clip
       (String "[" (String.append sx (String "," (String.append sy (String "]" flag))))))
  = Some (clip, sx, sy, flag).
Proof.
  intros Hclip Hsx Hsy Hflag. unfold match_relpixelRe.
  destruct Hclip as [(l & Hl & ->)|(ds & Hds & ->)].
  - rewrite append_cons, append_nil_l.
    rewrite clip_prefix_splits_letter by (exact Hl || reflexivity).
    cbn [first_match].
    rewrite (read_signed_numeral sx) by (assumption || reflexivity). cbv beta iota.
    rewrite (read_signed_numeral sy) by (assumption || reflexivity). cbv beta iota.
    destruct Hflag as [-> | [-> | ->]]; reflexivity.
  - rewrite append_assoc.
    destruct (clip_prefix_splits_src ds
                (String "[" (String.append sx (String "," (String.append sy (String "]" flag)))))
                Hds eq_refl) as [others ->].
    cbn [first_match String.append].
    rewrite (read_signed_numeral sx) by (assumption || reflexivity). cbv beta iota.
    rewrite (read_signed_numeral sy) by (assumption || reflexivity). cbv beta iota.
    destruct Hflag as [-> | [-> | ->]]; reflexivity.
Qed.

Lemma match_abspixelRe_clip (clip : string) :
  is_clip_name clip -> match_abspixelRe (String.append clip "[]") = Some clip.
Proof.
  intros Hclip. unfold match_abspixelRe.
  destruct Hclip as [(l & Hl & ->)|(ds & Hds & ->)].
  - rewrite append_cons, append_nil_l.
    rewrite clip_prefix_splits_letter by (exact Hl || reflexivity).
    reflexivity.
  - rewrite append_assoc.
    destruct (clip_prefix_splits_src ds "[]" Hds eq_refl) as [others ->].
    reflexivity.
Qed.

(** X22.  A clip name followed by [[dx,dy]], with an optional [:c] or
    [:m], decodes to a relative pixel load of that clip: a [MEM_LOAD]
    with the clip index as immediate, the offsets [dx] and [dy] as
    written (each an optional minus sign and decimal digits, in the range
    of [int]), and the boundary condition [Clamped] for [:c], [Mirrored]
    for [:m] and [Unspecified] without a suffix. *)
Theorem relative_pixel_tokens (stof : string -> option (float * nat))
    (clip sx sy flag : string) (bc : BoundaryCondition) (extended : bool) :
  is_clip_name clip ->
  is_signed_numeral sx -> INT_MIN <= signed_value sx <= INT_MAX ->
  is_signed_numeral sy -> INT_MIN <= signed_value sy <= INT_MAX ->
  In (flag, bc) [(""%string, Unspecified); (":c"%string, Clamped); (":m"%string, Mirrored)] ->
  decodeToken stof
    (String.append clip
       (String "[" (String.append sx (String "," (String.append sy (String "]" flag))))))
    extended
  = (id ← extractClipId clip;
     Ok (mkExprOp MEM_LOAD (ExprUnion_i id) "" (signed_value sx) (signed_value sy) bc)).
Proof.
  intros Hclip Hsx Hrx Hsy Hry Hflag. unfold decodeToken.
  assert (Hf : flag = ""%string \/ flag = ":c"%string \/ flag = ":m"%string).
  { destruct Hflag as [H|[H|[H|[]]]]; inversion H; auto. }
  rewrite (simple_find_None (has_char "["))
    by (try (vm_compute; reflexivity); rewrite has_char_app; apply orb_true_r).
  rewrite (has_char_not_clip_name "[")
    by (try reflexivity; rewrite has_char_app; apply orb_true_r).
  assert (Hm : ends_with_mark
                 (String.append clip
                    (String "[" (String.append sx
                       (String "," (String.append sy (String "]" flag)))))) = false).
  { repeat (apply ends_with_mark_after; [reflexivity|]).
    destruct Hf as [-> | [-> | ->]]; reflexivity. }
  unfold ends_with_mark in Hm. rewrite Hm, andb_false_r.
  destruct (clip_then_not_counted clip "["
              (String.append sx (String "," (String.append sy (String "]" flag))))
              Hclip eq_refl) as [-> ->].
  rewrite andb_false_r.
  rewrite match_framePropRe_bracket by (rewrite has_char_app; apply orb_true_r).
  rewrite match_relpixelRe_clip by assumption.
  rewrite !atoi_signed by assumption.
  destruct Hflag as [H|[H|[H|[]]]]; inversion H; subst; reflexivity.
Qed.

Lemma relative_pixel_tokens_witness :
  decodeToken no_stof "y[-1,2]:m" false
  = Ok (mkExprOp MEM_LOAD (ExprUnion_i 1) "" (-1) 2 Mirrored).
Proof.
  assert (Hy : is_clip_name "y")
    by (left; exists "y"%char; split; reflexivity).
  assert (Hx : is_signed_numeral "-1").
  { right. exists "1"%string. split; [|reflexivity].
    split; [discriminate|repeat constructor]. }
  assert (H2 : is_signed_numeral "2").
  { left. split; [discriminate|repeat constructor]. }
  apply (relative_pixel_tokens no_stof "y" "-1" "2" ":m" Mirrored false Hy Hx
           ltac:(vm_compute; split; discriminate) H2
           ltac:(vm_compute; split; discriminate)).
  right. right. left. reflexivity.
Defined.

(** X23.  A clip name followed by [[]] decodes to the absolute pixel
    load of that clip, a [MEM_LOAD_VAR] with the clip index as
    immediate. *)
Theorem absolute_pixel_tokens (stof : string -> option (float * nat))
    (clip : string) (extended : bool) :
  is_clip_name clip ->
  decodeToken stof (String.append clip "[]") extended
  = (id ← extractClipId clip; Ok (Op2 MEM_LOAD_VAR (ExprUnion_i id))).
Proof.
  intros Hclip. unfold decodeToken.
  rewrite (simple_find_None (has_char "["))
    by (try (vm_compute; reflexivity); rewrite has_char_app; apply orb_true_r).
  rewrite (has_char_not_clip_name "[")
    by (try reflexivity; rewrite has_char_app; apply orb_true_r).
  pose proof (ends_with_mark_after clip "[" "]" eq_refl eq_refl) as Hm.
  unfold ends_with_mark in Hm.
  change (String.append clip "[]") with (String.append clip (String "[" "]")).
  rewrite Hm, andb_false_r.
  destruct (clip_then_not_counted clip "[" "]" Hclip eq_refl) as [-> ->].
  rewrite andb_false_r.
  rewrite match_framePropRe_bracket by (rewrite has_char_app; apply orb_true_r).
  rewrite match_relpixelRe_comma
    by (rewrite has_char_app, (clip_name_has_char "," clip Hclip eq_refl eq_refl);
        reflexivity).
  rewrite match_abspixelRe_clip by assumption.
  reflexivity.
Qed.

Lemma absolute_pixel_tokens_witness :
  decodeToken no_stof "src12[]" false = Ok (Op2 MEM_LOAD_VAR (ExprUnion_i 12)).
Proof.
  assert (Hc : is_clip_name "src12").
  { right. exists "12"%string. split; [|reflexivity].
    split; [discriminate|repeat constructor]. }
  apply (absolute_pixel_tokens no_stof "src12" false Hc).
Defined.

(** ** The operations the constructor of [Context] keeps *)

Lemma decode_all_lookup (stof : string -> option (float * nat)) (extended : bool)
    (fix_bc : ExprOp -> ExprOp) (tokens : list string) :
  forall ops,
    decode_all stof extended fix_bc tokens = Ok ops ->
    forall i tok,
      tokens !! i = Some tok ->
      exists op0, decodeToken stof tok extended = Ok op0 /\ ops !! i = Some (fix_bc op0).
Proof.
  induction tokens as [|t tokens IH]; intros ops H i tok Hi;
    [rewrite lookup_nil in Hi; discriminate|].
  cbn [decode_all] in H.
  destruct (decodeToken stof t extended) as [op|e] eqn:E; [|discriminate].
  cbn [mbind result_bind] in H.
  destruct (decode_all stof extended fix_bc tokens) as [ops'|e] eqn:E'; [|discriminate].
  cbn [mbind result_bind] in H. inversion H; subst.
  destruct i as [|i]; cbn in Hi |- *.
  - inversion Hi; subst. exists op. split; [exact E|reflexivity].
  - apply (IH ops' eq_refl i tok Hi).
Qed.

(** X24.  The constructor of [Context] first looks its key up in
    [exprCache].  On a hit it succeeds whatever the expression, sets
    [cached] and leaves [tokens] and [ops] empty.  On a miss, when it
    succeeds, [cached] is false and [ops] holds one operation per token
    of the expression, in order, each the decoding of its token, so that
    [ctx.tokens[i]] is the text of [ctx.ops[i]]; a boundary condition
    written in the token ([:c] or [:m]) is kept, an unspecified one is
    replaced by the filter's default, and no operation is left with
    [Unspecified]. *)
Theorem Context_ctor_ops {V : Type} (format_name : VSFormat -> string)
    (exprCache : gmap string V) (stof : string -> option (float * nat)) (expr : string)
    (vo : VSFormat) (vi : list VSFormat) (numInputs opt mirror : Z)
    (ctx : Context) (cached : bool) :
  Context_ctor format_name exprCache stof expr vo vi numInputs opt mirror
  = Ok (ctx, cached) ->
  let key := Context_key format_name expr vo vi numInputs opt (negb (mirror =? 0)) in
  if cached
  then is_Some (exprCache !! key)
       /\ ctx_tokens ctx = [] /\ ctx_ops ctx = []
  else exprCache !! key = None
       /\ ctx_tokens ctx = tokenize expr
       /\ length (ctx_ops ctx) = length (ctx_tokens ctx)
       /\ (forall i tok,
             ctx_tokens ctx !! i = Some tok ->
             exists op0,
               decodeToken stof tok false = Ok op0
               /\ ctx_ops ctx !! i
                  = Some (if bool_decide (op_bc op0 = Unspecified)
                          then set_bc op0 (if mirror =? 0 then Clamped else Mirrored)
                          else op0))
       /\ Forall (fun op => op_bc op <> Unspecified) (ctx_ops ctx).
Proof.
  intros H key. unfold Context_ctor in H. fold key in H.
  destruct (exprCache !! key) as [v|] eqn:Hk.
  { inversion H; subst ctx cached. cbn [ctx_tokens ctx_ops]. eauto. }
  unfold Context_new in H.
  destruct (decode_all stof false _ (tokenize expr)) as [ops|e] eqn:E; [|discriminate].
  cbn [mbind result_bind] in H. inversion H; subst ctx cached. cbn [ctx_tokens ctx_ops].
  split; [reflexivity|].
  split; [reflexivity|]. split; [apply (decode_all_length _ _ _ _ _ E)|].
  split; [apply (decode_all_lookup _ _ _ _ _ E)|].
  apply Forall_lookup_2. intros i op Hi.
  assert (Hlt : (i < length (tokenize expr))%nat).
  { rewrite <- (decode_all_length _ _ _ _ _ E). eapply lookup_lt_Some. exact Hi. }
  destruct (lookup_lt_is_Some_2 _ _ Hlt) as [tok Htok].
  destruct (decode_all_lookup _ _ _ _ _ E i tok Htok) as (op0 & _ & Hop).
  rewrite Hi in Hop. inversion Hop; subst op.
  destruct (bool_decide (op_bc op0 = Unspecified)) eqn:Hb.
  - unfold set_bc. cbn [op_bc]. destruct (mirror =? 0); discriminate.
  - apply bool_decide_eq_false in Hb. exact Hb.
Qed.

Lemma Context_ctor_ops_witness :
  (exists ctx,
      Context_ctor (fun _ => "Gray8"%string) (∅ : gmap string unit) no_stof
        "x[1,0] y[0,1]:c +" fmt_u8 [fmt_u8; fmt_u8] 2 0 1 = Ok (ctx, false)
      /\ ctx_ops ctx = [mkExprOp MEM_LOAD 0 "" 1 0 Mirrored;
                        mkExprOp MEM_LOAD 1 "" 0 1 Clamped;
                        mkExprOp ADD 0 "" 0 0 Mirrored]
      /\ Forall (fun op => op_bc op <> Unspecified) (ctx_ops ctx))
  /\ (exists ctx,
        Context_ctor (fun _ => "Gray8"%string)
          ({[ "n=2|opt=0|mirror=1|expr=x[1,0] y[0,1]:c +|vo=Gray8;|vi0=Gray8;|vi1=Gray8;"%string
              := tt ]} : gmap string unit)
          no_stof "x[1,0] y[0,1]:c +" fmt_u8 [fmt_u8; fmt_u8] 2 0 1 = Ok (ctx, true)
        /\ ctx_ops ctx = []).
Proof.
  split.
  - destruct (Context_ctor (fun _ => "Gray8"%string) (∅ : gmap string unit) no_stof
                "x[1,0] y[0,1]:c +" fmt_u8 [fmt_u8; fmt_u8] 2 0 1)
      as [[ctx cached]|e] eqn:Hnew; [|vm_compute in Hnew; discriminate].
    assert (Hc : cached = false) by (vm_compute in Hnew; congruence).
    subst cached.
    exists ctx. split; [reflexivity|]. split.
    + vm_compute in Hnew. inversion Hnew; subst ctx. reflexivity.
    + exact (proj2 (proj2 (proj2 (proj2
               (Context_ctor_ops _ _ no_stof "x[1,0] y[0,1]:c +" fmt_u8 [fmt_u8; fmt_u8]
                  2 0 1 ctx false Hnew))))).
  - destruct (Context_ctor (fun _ => "Gray8"%string)
                ({[ "n=2|opt=0|mirror=1|expr=x[1,0] y[0,1]:c +|vo=Gray8;|vi0=Gray8;|vi1=Gray8;"%string
                    := tt ]} : gmap string unit)
                no_stof "x[1,0] y[0,1]:c +" fmt_u8 [fmt_u8; fmt_u8] 2 0 1)
      as [[ctx cached]|e] eqn:Hnew; [|vm_compute in Hnew; discriminate].
    assert (Hc : cached = true) by (vm_compute in Hnew; congruence).
    subst cached.
    exists ctx. split; [reflexivity|].
    exact (proj2 (proj2
             (Context_ctor_ops _ _ no_stof "x[1,0] y[0,1]:c +" fmt_u8 [fmt_u8; fmt_u8]
                2 0 1 ctx true Hnew))).
Defined.

(** ** Reads the interpreter does not guard *)

(** X25.  Two more places where the interpreter reads the stack without
    a sufficient check.  [VAR_STORE] pops with no [check_stack] at all,
    so on an empty stack it reads [stack.back()] of an empty vector,
    where the code generator reports "insufficient values on stack";
    [argmin0] and [argmax0] pass [check_stack(0)] on any stack and then
    read [stack[stack.size()]]. *)
Theorem interp_unguarded_reads (libm : HostMath) (N width height Y X : Z)
    (pixelGet : ExprOp -> Z -> Z -> result float) (propGet : Z -> string -> result float)
    (ctx : Context) (tok : string)
    (op : ExprOp) (stack : list float) (vars : gmap string float) :
  (op_type op = VAR_STORE /\ stack = [])
  \/ ((op_type op = ARGMIN \/ op_type op = ARGMAX)
      /\ union_u (op_imm op) = 0 /\ Z.of_nat (length stack) < 2 ^ 31) ->
  interp_op libm N width height Y X pixelGet propGet op (stack, vars)
  = Throw undefined_behaviour
  /\ (op_type op = VAR_STORE ->
      check_validity ctx tok op (length stack) = Throw (insufficient tok)).
Proof.
  intros [[Ht ->]|(Ht & Hu & Hlen)].
  - split.
    + unfold interp_op. rewrite Ht. reflexivity.
    + intros _. unfold check_validity. rewrite Ht. reflexivity.
  - split; [|intros Hv; destruct Ht as [Ht|Ht]; rewrite Ht in Hv; discriminate].
    assert (Hi : union_i (op_imm op) = 0) by (rewrite union_i_small; lia).
    assert (Hc : check_stack stack (union_i (op_imm op)) = Ok ()).
    { apply check_stack_pass; lia. }
    unfold interp_op.
    destruct Ht as [Ht|Ht]; rewrite Ht, Hc; cbn [mbind result_bind];
      rewrite Hu, Z.eqb_refl, orb_true_r; reflexivity.
Qed.

Lemma interp_unguarded_reads_witness :
  interp_op example_libm 0 1 1 0 0 (fun _ _ _ => Ok Float32.zero)
    (fun _ _ => Ok Float32.zero) (Op3 VAR_STORE (ExprUnion_i (-1)) "a") ([], ∅)
  = Throw undefined_behaviour
  /\ (op_type (Op3 VAR_STORE (ExprUnion_i (-1)) "a") = VAR_STORE ->
      check_validity example_ctx_int "a!" (Op3 VAR_STORE (ExprUnion_i (-1)) "a")
        (length (@nil float))
      = Throw (insufficient "a!")).
Proof.
  apply (interp_unguarded_reads example_libm 0 1 1 0 0 _ _ example_ctx_int "a!"
           (Op3 VAR_STORE (ExprUnion_i (-1)) "a") [] ∅).
  left. split; reflexivity.
Defined.

(** ** The sample stored for an integer result *)

(** X26.  Integer results saturate.  When the one value left on the
    stack is an integer and the output format has integer samples of one
    or two bytes with [bits] significant bits, the sample stored is the
    result clamped to [0 .. 2^bits - 1]; the narrowing to the sample's
    width never wraps. *)
Theorem store_result_int_saturates (rr : Reactor) (ctx : Context)
    (i : Z) (c : bool) (bits : Z) :
  sampleType (ctx_vo ctx) = stInteger ->
  bitsPerSample (ctx_vo ctx) = bits ->
  (bytesPerSample (ctx_vo ctx) = 1 /\ 1 <= bits <= 8)
  \/ (bytesPerSample (ctx_vo ctx) = 2 /\ 1 <= bits <= 16) ->
  exists v,
    v = Z.min (Z.max i 0) (2 ^ bits - 1)
    /\ 0 <= v <= 2 ^ bits - 1
    /\ store_result rr ctx [VInt i c]
       = Ok (if bytesPerSample (ctx_vo ctx) =? 1 then StoredByte v else StoredUShort v).
Proof.
  intros Hst Hbits Hfmt.
  exists (Z.min (Z.max i 0) (2 ^ bits - 1)).
  assert (Hb : 1 <= bits <= 16) by (destruct Hfmt as [[_ H]|[_ H]]; lia).
  assert (Hp : 2 <= 2 ^ bits <= 2 ^ 16).
  { split.
    - change 2 with (2 ^ 1) at 1. apply Z.pow_le_mono_r; lia.
    - apply Z.pow_le_mono_r; lia. }
  split; [reflexivity|]. split; [lia|].
  unfold store_result. cbn [rev app]. rewrite Hst, Hbits.
  rewrite (Z.mod_small bits 32) by lia. rewrite Z.shiftl_1_l.
  unfold ISub. rewrite (wrap_i32_small (2 ^ bits)) by (unfold INT_MIN, INT_MAX; lia).
  rewrite (wrap_i32_small (2 ^ bits - 1)) by (unfold INT_MIN, INT_MAX; lia).
  destruct (Z.ltb_spec bits 32) as [_|Hge]; [|lia].
  unfold IMin, IMax.
  destruct Hfmt as [[Hby Hr]|[Hby Hr]]; rewrite Hby; cbn [Z.eqb Pos.eqb].
  - assert (Hp8 : 2 ^ bits <= 2 ^ 8) by (apply Z.pow_le_mono_r; lia).
    rewrite Z.mod_small by lia. reflexivity.
  - rewrite Z.mod_small by lia. reflexivity.
Qed.

Lemma store_result_int_saturates_witness :
  exists v,
    v = Z.min (Z.max 300 0) (2 ^ 8 - 1)
    /\ 0 <= v <= 2 ^ 8 - 1
    /\ store_result example_rr example_ctx_int [VInt 300 false]
       = Ok (if bytesPerSample (ctx_vo example_ctx_int) =? 1
             then StoredByte v else StoredUShort v).
Proof.
  apply (store_result_int_saturates example_rr example_ctx_int 300 false 8).
  - reflexivity.
  - reflexivity.
  - left. split; [reflexivity|lia].
Defined.

(** ** [SORT] and [ARGSORT] *)


(** With a NaN among the values the two sorts return the arrangement the
    library's algorithm reaches: neither is in order. *)
Lemma sorts_with_nan :
  std_sort float_gt [float_of_int 1; Float32.nan; float_of_int 3; float_of_int 2]
  = [float_of_int 3; float_of_int 1; Float32.nan; float_of_int 2]
  /\ std_stable_sort
       (fun l r =>
          float_gt
            (default Float32.zero
               ([float_of_int 1; Float32.nan; float_of_int 3; float_of_int 2] !! l))
            (default Float32.zero
               ([float_of_int 1; Float32.nan; float_of_int 3; float_of_int 2] !! r)))
       (seq 0 4)
     = [2; 3; 0; 1]%nat.
Proof. split; vm_compute; reflexivity. Qed.





(** ** What the dry run at creation rules out *)

Lemma interp_loop_steps (libm : HostMath) (N width height Y X : Z)
    (pixelGet : ExprOp -> Z -> Z -> result float) (propGet : Z -> string -> result float)
    (ops : list ExprOp) :
  forall st st',
    interp_loop libm N width height Y X pixelGet propGet ops st = Ok st' ->
    Forall (fun op => exists s1 s2,
                interp_op libm N width height Y X pixelGet propGet op s1 = Ok s2) ops.
Proof.
  induction ops as [|op ops IH]; intros st st' H; [constructor|].
  cbn [interp_loop] in H.
  destruct (interp_op libm N width height Y X pixelGet propGet op st) as [st1|e] eqn:E;
    [|discriminate].
  cbn [mbind result_bind] in H.
  constructor; [exists st, st1; exact E|]. apply (IH st1 st' H).
Qed.

Lemma dry_run_rules_out (libm : HostMath) (n width height : Z) (what_pixel what_prop : string)
    (ops : list ExprOp) (v : float) :
  Forall (fun op => decoded_ok true op = true) ops ->
  interpret libm 0 width height (-1) (-1)
    (fun _ _ _ => Throw (runtime_error what_pixel))
    (fun index _ => if n <=? index then Throw (runtime_error what_prop) else Ok Float32.zero)
    ops = Ok v ->
  Forall (fun op =>
            op_type op <> MEM_LOAD /\ op_type op <> MEM_LOAD_VAR
            /\ (is_prop_access op = true -> 0 <= fst (prop_access_key op) < n)) ops.
Proof.
  intros Hok H. unfold interpret in H.
  destruct (interp_loop _ _ _ _ _ _ _ _ ops ([], ∅)) as [st|e] eqn:E; [|discriminate].
  clear H. apply interp_loop_steps in E.
  rewrite Forall_forall in Hok, E. apply Forall_forall. intros op Hin.
  specialize (Hok op Hin). destruct (E op Hin) as ([stack vars] & s2 & Hstep).
  unfold interp_op in Hstep.
  split; [|split].
  - intros Ht. rewrite Ht in Hstep. discriminate.
  - intros Ht. rewrite Ht in Hstep. discriminate.
  - intros Hacc. unfold is_prop_access in Hacc.
    apply andb_true_iff in Hacc as [Ht Hc].
    apply bool_decide_eq_true in Ht. apply negb_true_iff, Z.ltb_ge in Hc.
    unfold LoadConstType.LAST in Hc.
    rewrite Ht in Hstep.
    unfold LoadConstType.N, LoadConstType.Y, LoadConstType.X, LoadConstType.Width,
      LoadConstType.Height in Hstep.
    repeat (match type of Hstep with
            | context [?a =? ?b] =>
                destruct (Z.eqb_spec a b) as [Heq|_]; [lia|]
            end).
    unfold prop_access_key. cbn [fst].
    destruct (Z.leb_spec n (wrap_i32 (union_i (op_imm op) - LoadConstType.LAST)))
      as [Hge|Hlt]; [discriminate|].
    split; [|exact Hlt].
    unfold decoded_ok in Hok. rewrite Ht in Hok.
    apply orb_true_iff in Hok as [Hok|Hok].
    + apply andb_true_iff in Hok as [_ Hok]. apply Z.ltb_lt in Hok.
      unfold LoadConstType.LAST in Hok. lia.
    + apply Z.leb_le in Hok. exact Hok.
Qed.

(** X28.  What an accepted expression cannot hold.  An expression that
    [selectCreate] or [propExprCreate] accepted has no pixel load, be it
    relative or absolute, and every frame property it reads is read from
    one of the clips given for that purpose: the clip index is at least
    zero and below their number. *)
Theorem accepted_expressions_read_no_pixels (stof : string -> option (float * nat))
    (libm : HostMath) (key : string) (n width height : Z) (expr : string)
    (ops : list ExprOp) :
  selectCreate_ops stof libm n width height expr = Ok ops
  \/ propExprCreate_ops stof libm key n width height expr = Ok ops ->
  Forall (fun op =>
            op_type op <> MEM_LOAD /\ op_type op <> MEM_LOAD_VAR
            /\ (is_prop_access op = true -> 0 <= fst (prop_access_key op) < n)) ops.
Proof.
  intros [H|H].
  - unfold selectCreate_ops in H.
    destruct (decode_all stof true (fun op => op) (tokenize expr)) as [ops0|e] eqn:Hd;
      [|discriminate].
    cbn [mbind result_bind] in H.
    destruct (interpret _ _ _ _ _ _ _ _ ops0) as [v|e] eqn:Hi; [|discriminate].
    cbn [mbind result_bind] in H. inversion H; subst ops0.
    eapply (dry_run_rules_out libm n width height); [|exact Hi].
    apply (decode_all_decoded_ok _ _ _ _ Hd).
  - unfold propExprCreate_ops in H.
    destruct (negb (str_len expr =? 0)%nat); [|inversion H; constructor].
    destruct (decode_all stof true (fun op => op) (tokenize expr)) as [ops0|e] eqn:Hd;
      [|discriminate].
    cbn [mbind result_bind] in H.
    destruct (interpret _ _ _ _ _ _ _ _ ops0) as [v|e] eqn:Hi; [|discriminate].
    cbn [mbind result_bind] in H. inversion H; subst ops0.
    eapply (dry_run_rules_out libm n width height); [|exact Hi].
    apply (decode_all_decoded_ok _ _ _ _ Hd).
Qed.

Lemma accepted_expressions_read_no_pixels_witness :
  Forall (fun op =>
            op_type op <> MEM_LOAD /\ op_type op <> MEM_LOAD_VAR
            /\ (is_prop_access op = true -> 0 <= fst (prop_access_key op) < 2))
    [mkExprOp CONST_LOAD (ExprUnion_i 6) "_Sel" 0 0 Unspecified;
     Op2 CONSTANTI (ExprUnion_i 1); Op1 ADD].
Proof.
  assert (Hc : selectCreate_ops no_stof example_libm 2 640 480 "y._Sel 1 +"
               = Ok [mkExprOp CONST_LOAD (ExprUnion_i 6) "_Sel" 0 0 Unspecified;
                     Op2 CONSTANTI (ExprUnion_i 1); Op1 ADD])
    by (vm_compute; reflexivity).
  apply (accepted_expressions_read_no_pixels no_stof example_libm "" 2 640 480
           "y._Sel 1 +" _ (or_introl Hc)).
Defined.
